(** * Catapult Commander: the ballistic solver kernel of [src/App.jsx]

    A shallow embedding of the physics kernel ([calculateLaunchVector],
    [simulateFlightPath]), of the solver ([solveTensionForAngle],
    [runOptimizer]) and of the flight phases of the render loop ([animate]),
    followed by the properties of the natural-language specification.

    JavaScript numbers are IEEE 754 binary64 values, so they are embedded as
    Rocq's primitive [float]s: every arithmetic operation below is the
    correctly rounded binary64 operation, [NaN] and the infinities included,
    and comparisons are the IEEE ones (false on [NaN]). *)

From Stdlib Require Import Floats ZArith List Lia Bool PeanoNat.
Import ListNotations.
Set Warnings "-inexact-float,-abstract-large-number".
Open Scope float_scope.

(** ** The numeric environment of the JavaScript runtime *)

Definition Math_PI : float := 0x1.921fb54442d18p+1.
Definition Infinity : float := infinity.
Definition Math_abs (a : float) : float := abs a.
Definition Math_sqrt (a : float) : float := sqrt a.

(** [a ** 2]: the square, computed by engines as one rounded multiplication. *)
Definition pow2 (a : float) : float := a * a.

(** [Math.cos] and [Math.sin] are implementation-approximated functions of the
    runtime: the kernel is parametric in them. *)
Class MathLib := { Math_cos : float -> float; Math_sin : float -> float }.

(** An integer as a number. *)
Definition Z2float (n : Z) : float := SF2Prim (binary_normalize prec emax n 0 false).

(** The integer [floor (v + 1/2)] for the finite value [v = (-1)^s * m * 2^e]. *)
Definition roundHalfUp (s : bool) (m : positive) (e : Z) : Z :=
  let n := cond_Zopp s (Zpos m) in
  match e with
  | Zneg k => (2 * n + Z.pow_pos 2 k) / (2 * Z.pow_pos 2 k)
  | _ => n * 2 ^ e
  end.

(** [Math.round]: the nearest integer, ties towards +Infinity; [NaN], the
    infinities and the zeros are returned unchanged, and a zero result keeps
    the sign of its argument. *)
Definition Math_round (a : float) : float :=
  match Prim2SF a with
  | S754_finite s m e =>
      let n := roundHalfUp s m e in
      if (n =? 0)%Z then (if s then neg_zero else zero) else Z2float n
  | _ => a
  end.

(** ** Data model *)

(** Plain [{x, y, z}] objects and [THREE.Vector3]. *)
Module Vec.
Record t := mk { x : float; y : float; z : float }.
Definition lengthSq (v : t) : float := x v * x v + y v * y v + z v * z v.
Definition multiplyScalar (v : t) (s : float) : t := mk (x v * s) (y v * s) (z v * s).
Definition add (v w : t) : t := mk (x v + x w) (y v + y w) (z v + z w).
Definition setY (v : t) (b : float) : t := mk (x v) b (z v).
End Vec.

(** The [specs] state of the component. *)
Record Specs := mkSpecs {
  tension : float;
  armLength : float;
  armMass : float;
  projMass : float;
  angle : float;
  targetDist : float;
  wind : float;
  drag : float }.

Definition defaultSpecs : Specs := mkSpecs 4000 6 25 10 45 150 0 0.05.

(** [{ ...specs, tension: k, angle: a }] *)
Definition withTensionAngle (p : Specs) (k a : float) : Specs :=
  mkSpecs k (armLength p) (armMass p) (projMass p) a (targetDist p) (wind p) (drag p).

(** The release state [{ pos, vel }]; also the pair of local variables
    [pos], [vel] of the integrator. *)
Record Launch := mkLaunch { pos : Vec.t; vel : Vec.t }.

(** ** 1. Analytic launch calculation *)

Definition releaseAngle (p : Specs) : float := (angle p - 90) * (Math_PI / 180).
Definition launchAngle (p : Specs) : float := angle p * (Math_PI / 180).

Definition launchSpeed (p : Specs) : float :=
  let I := (armMass p * pow2 (armLength p)) / 3 + (projMass p * pow2 (armLength p)) in
  let swingArc := 2.3 in
  let PE := 0.5 * tension p * pow2 swingArc in
  let efficiency := 0.4 in
  let KE_usable := PE * efficiency in
  let omega := Math_sqrt ((2 * KE_usable) / I) in
  omega * armLength p.

Definition calculateLaunchVector `{MathLib} (p : Specs) : Launch :=
  let rad := launchAngle p in
  let releaseTheta := releaseAngle p in
  let vMag := launchSpeed p in
  {| pos := Vec.mk (0 + Math_cos releaseTheta * armLength p)
                   (5.5 + Math_sin releaseTheta * armLength p)
                   0;
     vel := Vec.mk (Math_cos rad * vMag) (Math_sin rad * vMag) 0 |}.

(** ** 2. Flight integrator *)

Definition dt : float := 0.016.

(** The acceleration [(ax, ay)] of one step, from the squared speed [vSq] and
    the velocity components. *)
Definition acceleration (p : Specs) (vSq vx vy : float) : float * float :=
  let v := Math_sqrt vSq in
  let Fd := 0.5 * 1.225 * vSq * drag p * 0.05 in
  let ax := (- (Fd * (vx / v) + wind p)) / projMass p in
  let ay := (- (Fd * (vy / v))) / projMass p - 9.81 in
  (ax, ay).

(** The body of the [for] loop, up to the ground test. *)
Definition flightStep (p : Specs) (s : Launch) : Launch :=
  let vSq := pow2 (Vec.x (vel s)) + pow2 (Vec.y (vel s)) in
  let '(ax, ay) := acceleration p vSq (Vec.x (vel s)) (Vec.y (vel s)) in
  let vx := Vec.x (vel s) + ax * dt in
  let vy := Vec.y (vel s) + ay * dt in
  {| pos := Vec.mk (Vec.x (pos s) + vx * dt) (Vec.y (pos s) + vy * dt) (Vec.z (pos s));
     vel := Vec.mk vx vy (Vec.z (vel s)) |}.

(** [pos.y <= 0] *)
Definition grounded (s : Launch) : bool := Vec.y (pos s) <=? 0.

(** [n] is the number of iterations the loop has left. *)
Fixpoint flightLoop (n : nat) (p : Specs) (s : Launch) : float :=
  match n with
  | O => Vec.x (pos s)
  | S n' =>
      let s' := flightStep p s in
      if grounded s' then Vec.x (pos s') else flightLoop n' p s'
  end.

Definition simulateFlightPath (startPos startVel : Vec.t) (p : Specs) : float :=
  flightLoop 5000 p (mkLaunch startPos startVel).

(** The state after [k] steps of the integrator. *)
Definition stateAt (p : Specs) (s : Launch) (k : nat) : Launch :=
  Nat.iter k (flightStep p) s.

(** ** 3. The solver *)

(** The result [{ t, err }] of the inner search. *)
Module Sol.
Record result := mk { t : float; err : float }.
End Sol.

(** The loop variables [min], [max], [bestT], [bestErr] of the inner search. *)
Record Bracket := mkBracket {
  bmin : float;
  bmax : float;
  bestT : float;
  bestErr : float }.

Definition initialBracket : Bracket := mkBracket 100 150000 100 Infinity.

Definition midpoint (b : Bracket) : float := (bmin b + bmax b) / 2.

Section Search.
  (** The two closures the search is made of: [dist mid], the range reached
      with the stiffness [mid] (launch model, then integrator), and
      [solver a], the inner search at the angle [a]. *)
  Variable dist : float -> float.
  Variable target : float.

  (** [err] of one iteration: the signed miss distance at the midpoint. *)
Definition missAt (b : Bracket) : float := dist (midpoint b) - target.

  (** The body of the [for] loop of the inner search. *)
Definition bisectStep (b : Bracket) : Bracket :=
    let mid := midpoint b in
    let err := missAt b in
    let '(bT, bE) :=
      if Math_abs err <? bestErr b then (mid, Math_abs err) else (bestT b, bestErr b) in
    if 0 <? err then mkBracket (bmin b) mid bT bE else mkBracket mid (bmax b) bT bE.

Fixpoint bisectLoop (n : nat) (b : Bracket) : Bracket :=
    match n with
    | O => b
    | S n' => bisectLoop n' (bisectStep b)
    end.

  (** The loop variables at the start of iteration [i]. *)
Definition bracketAt (i : nat) : Bracket := Nat.iter i bisectStep initialBracket.

  (** The stiffness evaluated by iteration [i] and the [|err|] it obtains. *)
Definition midAt (i : nat) : float := midpoint (bracketAt i).
Definition absErrAt (i : nat) : float := Math_abs (missAt (bracketAt i)).

  Variable solver : float -> Sol.result.

  (** The angle sweep [for (let a = 15; a <= 75; a += 5)]; [fuel] bounds the
      number of iterations. *)
Fixpoint sweepLoop (fuel : nat) (a : float) (bestGlobal : Sol.result) (bestGlobalAngle : float)
    : Sol.result * float :=
    match fuel with
    | O => (bestGlobal, bestGlobalAngle)
    | S fuel' =>
        if a <=? 75 then
          let attempt := solver a in
          if Sol.err attempt <? Sol.err bestGlobal
          then sweepLoop fuel' (a + 5) attempt a
          else sweepLoop fuel' (a + 5) bestGlobal bestGlobalAngle
        else (bestGlobal, bestGlobalAngle)
    end.

  (** The search of [runOptimizer] from the requested angle [angle0]: the
      solution, the final angle and the value given to [setAutoCorrected]. *)
Definition sweepSearch (angle0 : float) : Sol.result * float * bool :=
    let solution := solver angle0 in
    let finalAngle := angle0 in
    if 1.0 <? Sol.err solution then
      let '(bestGlobal, bestGlobalAngle) := sweepLoop 13 15 solution angle0 in
      if Sol.err bestGlobal <? 2.0
      then (bestGlobal, bestGlobalAngle, true)
      else (solution, finalAngle, false)
    else (solution, finalAngle, false).

  (** One iteration of the sweep as a function on (best solution, best angle). *)
Definition keepBetter (best : Sol.result * float) (a : float) : Sol.result * float :=
    let attempt := solver a in
    if Sol.err attempt <? Sol.err (fst best) then (attempt, a) else best.
End Search.

(** The range reached with the stiffness [mid] at the angle [targetAngle]:
    [calculateLaunchVector({ ...specs, tension: mid, angle: targetAngle })]
    passed to [simulateFlightPath] with [specs]. *)
Definition rangeAt `{MathLib} (specs : Specs) (targetAngle mid : float) : float :=
  let launch := calculateLaunchVector (withTensionAngle specs mid targetAngle) in
  simulateFlightPath (pos launch) (vel launch) specs.

Definition solveTensionForAngle `{MathLib} (specs : Specs) (targetAngle : float) : Sol.result :=
  let b := bisectLoop (rangeAt specs targetAngle) (targetDist specs) 40 initialBracket in
  Sol.mk (bestT b) (bestErr b).

Definition optimizerSearch `{MathLib} (specs : Specs) : Sol.result * float * bool :=
  sweepSearch (solveTensionForAngle specs) (angle specs).

Inductive SolverState := IDLE | CALCULATING | LOCKED.

(** The part of the component state [runOptimizer] reads and writes. *)
Record AppState := mkApp {
  specs : Specs;
  solverState : SolverState;
  autoCorrected : bool }.

(** [runOptimizer], with its timer callback run to completion. *)
Definition runOptimizer `{MathLib} (st : AppState) : AppState :=
  let '(solution, finalAngle, corrected) := optimizerSearch (specs st) in
  {| specs := withTensionAngle (specs st) (Math_round (Sol.t solution))
                               (Math_round finalAngle);
     solverState := LOCKED;
     autoCorrected := corrected |}.

(** ** 4. The flight phases of the render loop *)

Inductive Phase := READY | FLIGHT_START | FLIGHT | IMPACT.

(** The [telemetry] state of the component. *)
Record Telemetry := mkTelemetry {
  range : float;
  velocity : float;
  impactError : float }.

(** The [state] object of the engine (camera and trail left out) together
    with the telemetry the frame publishes. *)
Module Eng.
Record state := mk {
    phase : Phase;
    pos : Vec.t;
    vel : Vec.t;
    theta : float;
    time : float;
    telemetry : Telemetry }.
End Eng.

(** [THREE.MathUtils.lerp] *)
Definition lerp (a b w : float) : float := (1 - w) * a + w * b.

(** One frame of [animate] with the specs [p]. *)
Definition animate `{MathLib} (p : Specs) (st : Eng.state) : Eng.state :=
  match Eng.phase st with
  | READY =>
      Eng.mk READY (Eng.pos st) (Eng.vel st)
             (lerp (Eng.theta st) (- Math_PI * 0.75) 0.1) (Eng.time st) (Eng.telemetry st)
  | FLIGHT_START =>
      let launch := calculateLaunchVector p in
      Eng.mk FLIGHT
             (Vec.mk (Vec.x (pos launch)) (Vec.y (pos launch)) (Vec.z (pos launch)))
             (Vec.mk (Vec.x (vel launch)) (Vec.y (vel launch)) (Vec.z (vel launch)))
             (releaseAngle p) (Eng.time st) (Eng.telemetry st)
  | FLIGHT =>
      let time' := Eng.time st + dt in
      let vSq := Vec.lengthSq (Eng.vel st) in
      let '(ax, ay) := acceleration p vSq (Vec.x (Eng.vel st)) (Vec.y (Eng.vel st)) in
      let vel' := Vec.mk (Vec.x (Eng.vel st) + ax * dt) (Vec.y (Eng.vel st) + ay * dt)
                         (Vec.z (Eng.vel st)) in
      let pos' := Vec.add (Eng.pos st) (Vec.multiplyScalar vel' dt) in
      if Vec.y pos' <=? 0 then
        let pos'' := Vec.setY pos' 0 in
        let err := Vec.x pos'' - targetDist p in
        Eng.mk IMPACT pos'' vel' (Eng.theta st) time' (mkTelemetry (Vec.x pos'') 0 err)
      else
        Eng.mk FLIGHT pos' vel' (Eng.theta st) time' (Eng.telemetry st)
  | IMPACT => st
  end.

(** The engine state [n] frames later. *)
Definition frames `{MathLib} (p : Specs) (st : Eng.state) (n : nat) : Eng.state :=
  Nat.iter n (animate p) st.

(** The engine state right after [fire]. *)
Definition fired : Eng.state :=
  Eng.mk FLIGHT_START (Vec.mk 0 0 0) (Vec.mk 0 0 0) (- Math_PI / 4) 0 (mkTelemetry 0 0 0).

(** ** Auxiliary definitions for the statements *)

(** The candidate angles of the sweep. *)
Definition sweepAngles : list float := [15; 20; 25; 30; 35; 40; 45; 50; 55; 60; 65; 70; 75].

(** The range of a release state, as the fire path and the solver compute it. *)
Definition rangeOf `{MathLib} (p : Specs) : float :=
  let launch := calculateLaunchVector p in
  simulateFlightPath (pos launch) (vel launch) p.

(** Modelled from the spec: the closed-form range of a drag-free projectile
    released at [(x0, y0)] with velocity [(vx, vy)], "v^2 sin(2 theta) / g
    adjusted for release height": the flight time is the positive root of
    [y0 + vy t - g t^2 / 2 = 0]. (The formula is not part of the source.) *)
Definition closedFormRange (p0 v0 : Vec.t) : float :=
  let g := 9.81 in
  Vec.x p0 + Vec.x v0 * ((Vec.y v0 + Math_sqrt (pow2 (Vec.y v0) + 2 * g * Vec.y p0)) / g).

(** A concrete runtime for the evaluations below: Maclaurin polynomials in
    Horner form, accurate to about one unit in the last place on the angles
    the kernel uses. *)
Definition horner (cs : list float) (u : float) : float :=
  fold_right (fun c acc => c + u * acc) 0 cs.

Definition taylor_sin (a : float) : float :=
  a * horner [1; -1/6; 1/120; -1/5040; 1/362880; -1/39916800; 1/6227020800;
              -1/1307674368000; 1/355687428096000; -1/121645100408832000;
              1/51090942171709440000] (a * a).

Definition taylor_cos (a : float) : float :=
  horner [1; -1/2; 1/24; -1/720; 1/40320; -1/3628800; 1/479001600;
          -1/87178291200; 1/20922789888000; -1/6402373705728000;
          1/2432902008176640000; -1/1124000727777607680000] (a * a).

Definition taylorMath : MathLib := {| Math_cos := taylor_cos; Math_sin := taylor_sin |}.

(** ** 5. The rest of the component: engine handles, trail, camera, targets *)

(** [engineRef.current.fire] and [engineRef.current.reset], on the fields of
    the engine state that are modelled. *)
Definition fire (st : Eng.state) : Eng.state :=
  Eng.mk FLIGHT_START (Eng.pos st) (Eng.vel st) (Eng.theta st) 0 (Eng.telemetry st).

Definition reset (st : Eng.state) : Eng.state :=
  Eng.mk READY (Eng.pos st) (Eng.vel st) (- Math_PI * 0.8) (Eng.time st) (Eng.telemetry st).

(** The flight clock after [k] frames of flight. *)
Definition clock (k : nat) (t0 : float) : float := Nat.iter k (fun t => t + dt) t0.

(** The remainder [n % d] of two numbers: the exact remainder of the
    truncated division, with the sign of [n]; both values are counted in
    units of [2^-1074], in which every finite number is an integer. *)
Definition Number_remainder (n d : float) : float :=
  match Prim2SF n, Prim2SF d with
  | S754_nan, _ | _, S754_nan => nan
  | S754_infinity _, _ => nan
  | _, S754_infinity _ => n
  | _, S754_zero _ => nan
  | S754_zero _, _ => n
  | S754_finite s m e, S754_finite _ m' e' =>
      let r := Z.rem (cond_Zopp s (Zpos m * 2 ^ (e + 1074))) (Zpos m' * 2 ^ (e' + 1074)) in
      if (r =? 0)%Z then (if s then neg_zero else zero)
      else SF2Prim (binary_normalize prec emax r (-1074) false)
  end.

(** The engine state together with [state.trail]. *)
Record Scene := mkScene {
  eng : Eng.state;
  trail : list Vec.t }.

(** One frame of [animate], the trail included: in the FLIGHT phase the new
    position is pushed when the trail has fewer than 500 points and the clock
    has just passed a multiple of 0.05. *)
Definition animateScene `{MathLib} (p : Specs) (sc : Scene) : Scene :=
  let st' := animate p (eng sc) in
  match Eng.phase (eng sc) with
  | FLIGHT =>
      if (length (trail sc) <? 500)%nat && (Number_remainder (Eng.time st') 0.05 <? dt)
      then mkScene st' (trail sc ++ [Eng.pos st'])
      else mkScene st' (trail sc)
  | _ => mkScene st' (trail sc)
  end.

Definition sceneAfter `{MathLib} (p : Specs) (sc : Scene) (n : nat) : Scene :=
  Nat.iter n (animateScene p) sc.

(** [fire] and [reset], the trail included. *)
Definition fireScene (sc : Scene) : Scene := mkScene (fire (eng sc)) [].
Definition resetScene (sc : Scene) : Scene := mkScene (reset (eng sc)) [].

(** [Math.max] and [Math.min] of two numbers: NaN when an argument is NaN,
    and +0 counts as larger than -0. *)
Definition is_positive_zero (a : float) : bool := is_zero a && negb (get_sign a).
Definition is_negative_zero (a : float) : bool := is_zero a && get_sign a.

Definition Math_max (a b : float) : float :=
  if is_nan a || is_nan b then nan
  else if is_negative_zero a && is_positive_zero b then b
  else if a <? b then b else a.

Definition Math_min (a b : float) : float :=
  if is_nan a || is_nan b then nan
  else if is_positive_zero a && is_negative_zero b then b
  else if b <? a then b else a.

(** The events [handleMouse] is registered for, with the fields it reads. *)
Inductive EventType := mousedown | mousemove | mouseup | wheel.

Record MouseEvent := mkEvent {
  etype : EventType;
  clientX : float;
  clientY : float;
  deltaY : float }.

(** [state.camera] *)
Module Cam.
Record t := mk {
  radius : float;
  theta : float;
  phi : float;
  center : Vec.t;
  dragging : bool;
  lastMouse : float * float }.
End Cam.

Definition initialCamera : Cam.t :=
  Cam.mk 80 (Math_PI / 4) (Math_PI / 3) (Vec.mk 0 10 0) false (0, 0).

Definition handleMouse (e : MouseEvent) (c : Cam.t) : Cam.t :=
  let c1 :=
    match etype e with
    | mousedown =>
        Cam.mk (Cam.radius c) (Cam.theta c) (Cam.phi c) (Cam.center c) true
               (clientX e, clientY e)
    | _ => c
    end in
  let c2 :=
    match etype e with
    | mouseup =>
        Cam.mk (Cam.radius c1) (Cam.theta c1) (Cam.phi c1) (Cam.center c1) false
               (Cam.lastMouse c1)
    | _ => c1
    end in
  let c3 :=
    match etype e with
    | mousemove =>
        if Cam.dragging c2 then
          let dx := clientX e - fst (Cam.lastMouse c2) in
          let dy := clientY e - snd (Cam.lastMouse c2) in
          Cam.mk (Cam.radius c2) (Cam.theta c2 - dx * 0.005)
                 (Math_max 0.1 (Math_min (Math_PI / 2 - 0.1) (Cam.phi c2 - dy * 0.005)))
                 (Cam.center c2) (Cam.dragging c2) (clientX e, clientY e)
        else c2
    | _ => c2
    end in
  match etype e with
  | wheel =>
      Cam.mk (Math_max 20 (Math_min 200 (Cam.radius c3 + deltaY e * 0.1)))
             (Cam.theta c3) (Cam.phi c3) (Cam.center c3) (Cam.dragging c3) (Cam.lastMouse c3)
  | _ => c3
  end.

(** The camera after a sequence of events. *)
Definition cameraAfter (es : list MouseEvent) : Cam.t :=
  fold_left (fun c e => handleMouse e c) es initialCamera.

(** What the browser guarantees of an event: the ordinate of a mouse event
    and the delta of a wheel event are finite numbers. *)
Definition finiteEvent (e : MouseEvent) : bool :=
  match etype e with
  | mousedown | mousemove => Math_abs (clientY e) <? Infinity
  | wheel => Math_abs (deltaY e) <? Infinity
  | mouseup => true
  end.

(** The integer [floor v] for the finite value [v = (-1)^s * m * 2^e]. *)
Definition floorZ (s : bool) (m : positive) (e : Z) : Z :=
  let n := cond_Zopp s (Zpos m) in
  match e with
  | Zneg k => (n / Z.pow_pos 2 k)%Z
  | _ => (n * 2 ^ e)%Z
  end.

(** [Math.floor]: NaN, the infinities and the zeros are returned unchanged. *)
Definition Math_floor (a : float) : float :=
  match Prim2SF a with
  | S754_finite s m e =>
      let n := floorZ s m e in
      if (n =? 0)%Z then zero else Z2float n
  | _ => a
  end.

(** [parseFloat(a.toFixed(1))].  [toFixed(1)] writes the integer [n] closest
    to [10 |a|] (the larger one on a tie) as a decimal with one fractional
    digit, behind a minus sign when [a < 0]; [parseFloat] reads it back as
    the number nearest to [n / 10].  From 1e21 on, and for NaN and the
    infinities, [toFixed] writes the number as [String] does, which
    [parseFloat] reads back unchanged. *)
Definition roundToTenth (a : float) : float :=
  match Prim2SF a with
  | S754_zero _ => zero
  | S754_finite s m e =>
      if 1e21 <=? Math_abs a then a
      else
        let n := roundHalfUp false (10 * m) e in
        match n with
        | Zpos q => SF2Prim (SF64div (S754_finite s q 0) (S754_finite false 10 0))
        | _ => if s then neg_zero else zero
        end
  | _ => a
  end.

(** [simState] *)
Module Sim.
Inductive state := READY | FIRED | IMPACT.
End Sim.

(** The component: the state [runOptimizer] works on, [simState], and the
    engine behind [engineRef] once the scene is initialised. *)
Record Component := mkComponent {
  appState : AppState;
  simState : Sim.state;
  engine : option Eng.state }.

(** [generateTarget]; [r1] and [r2] are the results of its two calls of
    [Math.random], in this order. *)
Definition generateTarget (r1 r2 : float) (c : Component) : Component :=
  let dist := 50 + r1 * 400 in
  let wind := (r2 * 40) - 20 in
  let s := specs (appState c) in
  let s' := mkSpecs (tension s) (armLength s) (armMass s) (projMass s) (angle s)
                    (Math_floor dist) (roundToTenth wind) (drag s) in
  {| appState := mkApp s' IDLE false;
     simState := Sim.READY;
     engine := option_map reset (engine c) |}.

(** * Properties *)

(** Closed statements are settled by evaluating the embedded code. *)
Ltac by_evaluation :=
  cbv zeta; repeat match goal with |- _ /\ _ => split end; vm_compute; reflexivity.

(** ** The flight integrator *)

Lemma stateAt_S (p : Specs) (s : Launch) (k : nat) :
  stateAt p s (S k) = stateAt p (flightStep p s) k.
Proof. unfold stateAt. now rewrite Nat.iter_succ_r. Qed.

(** The loop with [n >= 1] iterations left stops at the first grounded state
    or at its last iteration. *)
Lemma flightLoop_exit (p : Specs) (n : nat) :
  forall s, exists k,
    (1 <= k <= S n)%nat /\
    flightLoop (S n) p s = Vec.x (pos (stateAt p s k)) /\
    (forall j, (1 <= j < k)%nat -> grounded (stateAt p s j) = false) /\
    (grounded (stateAt p s k) = true \/ k = S n).
Proof.
  induction n as [|n IH]; intros s.
  - exists 1%nat. cbn [flightLoop].
    split; [lia|]. split; [now destruct (grounded (flightStep p s))|].
    split; [intros j Hj; lia | now right].
  - change (flightLoop (S (S n)) p s)
      with (if grounded (flightStep p s) then Vec.x (pos (flightStep p s))
            else flightLoop (S n) p (flightStep p s)).
    destruct (grounded (flightStep p s)) eqn:Hg.
    + exists 1%nat.
      split; [lia|]. split; [reflexivity|].
      split; [intros j Hj; lia | now left].
    + destruct (IH (flightStep p s)) as (k & Hk & Hres & Hbefore & Hlast).
      exists (S k). rewrite stateAt_S.
      split; [lia|]. split; [exact Hres|]. split.
      * intros j Hj. destruct j as [|j]; [lia|].
        rewrite stateAt_S. destruct j as [|j]; [exact Hg|].
        apply Hbefore. lia.
      * destruct Hlast as [Hlast | ->]; [now left | now right].
Qed.

Lemma simulateFlightPath_exit (startPos startVel : Vec.t) (p : Specs) :
  exists k,
    (1 <= k <= 5000)%nat /\
    simulateFlightPath startPos startVel p
      = Vec.x (pos (stateAt p (mkLaunch startPos startVel) k)) /\
    (forall j, (1 <= j < k)%nat ->
               grounded (stateAt p (mkLaunch startPos startVel) j) = false) /\
    (grounded (stateAt p (mkLaunch startPos startVel) k) = true \/ k = 5000%nat).
Proof. exact (flightLoop_exit p 4999 (mkLaunch startPos startVel)). Qed.

(** When the first grounded step is within the budget, it gives the result. *)
Lemma simulateFlightPath_at_first_hit (startPos startVel : Vec.t) (p : Specs) (k : nat) :
  (1 <= k <= 5000)%nat ->
  grounded (stateAt p (mkLaunch startPos startVel) k) = true ->
  (forall j, (1 <= j < k)%nat ->
             grounded (stateAt p (mkLaunch startPos startVel) j) = false) ->
  simulateFlightPath startPos startVel p
    = Vec.x (pos (stateAt p (mkLaunch startPos startVel) k)).
Proof.
  intros Hk Hg Hbefore.
  destruct (simulateFlightPath_exit startPos startVel p) as (k' & Hk' & -> & Hbefore' & Hlast).
  destruct (Nat.lt_trichotomy k' k) as [Hlt | [-> | Hgt]]; [|reflexivity|].
  - destruct Hlast as [Hg' | ->]; [|lia].
    rewrite Hbefore in Hg' by lia. discriminate.
  - rewrite Hbefore' in Hg by lia. discriminate.
Qed.

(** C5. For every start state and spec the integrator returns a value: the
    horizontal position of the first step whose vertical position is [<= 0],
    or, when no step within the budget of 5000 is, the horizontal position
    after the last step; no case is left without a result.  Each step first
    updates the velocity from the acceleration of the current state and then
    the position from the updated velocity (Euler-Cromer ordering). *)
Theorem simulateFlightPath_first_ground_hit (startPos startVel : Vec.t) (p : Specs) :
  (exists k,
      (1 <= k <= 5000)%nat /\
      simulateFlightPath startPos startVel p
        = Vec.x (pos (stateAt p (mkLaunch startPos startVel) k)) /\
      (forall j, (1 <= j < k)%nat ->
                 grounded (stateAt p (mkLaunch startPos startVel) j) = false) /\
      (grounded (stateAt p (mkLaunch startPos startVel) k) = true \/ k = 5000%nat))
  /\
  (forall s : Launch,
      let a := acceleration p (pow2 (Vec.x (vel s)) + pow2 (Vec.y (vel s)))
                            (Vec.x (vel s)) (Vec.y (vel s)) in
      let s' := flightStep p s in
      Vec.x (vel s') = Vec.x (vel s) + fst a * dt /\
      Vec.y (vel s') = Vec.y (vel s) + snd a * dt /\
      Vec.x (pos s') = Vec.x (pos s) + Vec.x (vel s') * dt /\
      Vec.y (pos s') = Vec.y (pos s) + Vec.y (vel s') * dt).
Proof.
  split.
  - exact (simulateFlightPath_exit startPos startVel p).
  - intros s. unfold flightStep.
    destruct (acceleration p _ _ _) as [ax ay]. cbn. auto.
Qed.

(** C3 (as stated, refuted). The claim gives the step size as exactly 1/60 s.
    From the velocity (60, 0) at height 100, without drag or wind, one step
    keeps the horizontal velocity 60 and advances the horizontal position by
    0.96, whereas a step of 1/60 s would advance it by 1: the step is 0.016 s. *)
Lemma time_step_is_not_one_sixtieth :
  let p := mkSpecs 4000 6 25 10 45 150 0 0 in
  let s := flightStep p (mkLaunch (Vec.mk 0 100 0) (Vec.mk 60 0 0)) in
  Vec.x (vel s) = 60 /\
  Vec.x (pos s) = 0.95999999999999996 /\
  0 + 60 * (1 / 60) = 1 /\
  (Vec.x (pos s) =? 0 + Vec.x (vel s) * (1 / 60)) = false /\
  (dt =? 1 / 60) = false.
Proof. by_evaluation. Qed.

(** The loop with [n + 1] iterations runs them all when none of its first [n]
    steps is grounded. *)
Lemma flightLoop_budget (p : Specs) (n : nat) (s : Launch) :
  (forall j, (1 <= j <= n)%nat -> grounded (stateAt p s j) = false) ->
  flightLoop (S n) p s = Vec.x (pos (stateAt p s (S n))).
Proof.
  intros Hair.
  destruct (flightLoop_exit p n s) as (k & Hk & -> & _ & Hlast).
  destruct (Nat.eq_dec k (S n)) as [-> | Hne]; [reflexivity|].
  destruct Hlast as [Hg | ->]; [|reflexivity].
  rewrite Hair in Hg by lia. discriminate.
Qed.

(** Whether none of the next [n] steps from [s] is grounded. *)
Fixpoint airborne (n : nat) (p : Specs) (s : Launch) : bool :=
  match n with
  | O => true
  | S n' => negb (grounded (flightStep p s)) && airborne n' p (flightStep p s)
  end.

Lemma airborne_stateAt (p : Specs) (n : nat) :
  forall s, airborne n p s = true ->
  forall j, (1 <= j <= n)%nat -> grounded (stateAt p s j) = false.
Proof.
  induction n as [|n IH]; intros s Ha j Hj; [lia|].
  cbn [airborne] in Ha. apply andb_prop in Ha. destruct Ha as [Hg Ha].
  apply negb_true_iff in Hg.
  destruct j as [|j]; [lia|]. rewrite stateAt_S.
  destruct j as [|j]; [exact Hg|].
  apply (IH (flightStep p s) Ha). lia.
Qed.

(** A projectile released 100 km above the ground. *)
Definition highDrop : Launch := mkLaunch (Vec.mk 0 100000 0) (Vec.mk 10 0 0).

(** C3 (amended). The integrator uses the fixed time step 0.016 s, for every
    start state and spec: each step adds the acceleration times 0.016 to the
    velocity and then the updated velocity times 0.016 to the position.  It is
    bounded to a maximum of 5000 steps: the result is the horizontal position
    after at least 1 and at most 5000 steps, the loop stopping before step
    5000 only at a step whose height is [<= 0]; a flight whose first 4999
    steps stay above the ground gives the position after exactly 5000 steps.
    The bound is reached: released 100 km up with the default specs, the
    projectile is above the ground on every one of the 5000 steps, and the
    result is the position of step 5000, beyond that of step 4999. *)
Theorem simulateFlightPath_step_size_and_budget :
  (forall (p : Specs) (s : Launch),
      let a := acceleration p (pow2 (Vec.x (vel s)) + pow2 (Vec.y (vel s)))
                            (Vec.x (vel s)) (Vec.y (vel s)) in
      Vec.x (vel (flightStep p s)) = Vec.x (vel s) + fst a * 0.016 /\
      Vec.y (vel (flightStep p s)) = Vec.y (vel s) + snd a * 0.016 /\
      Vec.x (pos (flightStep p s)) = Vec.x (pos s) + Vec.x (vel (flightStep p s)) * 0.016 /\
      Vec.y (pos (flightStep p s)) = Vec.y (pos s) + Vec.y (vel (flightStep p s)) * 0.016) /\
  (forall (startPos startVel : Vec.t) (p : Specs),
      exists k,
        (1 <= k <= 5000)%nat /\
        simulateFlightPath startPos startVel p
          = Vec.x (pos (stateAt p (mkLaunch startPos startVel) k)) /\
        (grounded (stateAt p (mkLaunch startPos startVel) k) = true \/ k = 5000%nat)) /\
  (forall (startPos startVel : Vec.t) (p : Specs),
      (forall j, (1 <= j < 5000)%nat ->
                 grounded (stateAt p (mkLaunch startPos startVel) j) = false) ->
      simulateFlightPath startPos startVel p
        = Vec.x (pos (stateAt p (mkLaunch startPos startVel) 5000))) /\
  (forall j, (1 <= j <= 5000)%nat -> grounded (stateAt defaultSpecs highDrop j) = false) /\
  simulateFlightPath (pos highDrop) (vel highDrop) defaultSpecs
    = Vec.x (pos (stateAt defaultSpecs highDrop 5000)) /\
  (Vec.x (pos (stateAt defaultSpecs highDrop 4999))
     <? Vec.x (pos (stateAt defaultSpecs highDrop 5000))) = true.
Proof.
  split; [|split; [|split; [|split; [|split]]]].
  - intros p s. unfold flightStep, dt.
    destruct (acceleration p _ _ _) as [ax ay]. cbn. auto.
  - intros startPos startVel p.
    destruct (simulateFlightPath_exit startPos startVel p) as (k & Hk & Hres & _ & Hlast).
    exists k. auto.
  - intros startPos startVel p Hair.
    apply (flightLoop_budget p 4999 (mkLaunch startPos startVel)).
    intros j Hj. apply Hair. lia.
  - apply airborne_stateAt. vm_compute. reflexivity.
  - vm_compute. reflexivity.
  - vm_compute. reflexivity.
Qed.

(** C2 (the code at the failing input). A start state with zero velocity makes
    the first step divide 0 by the speed 0: the acceleration, the velocity and
    the position become NaN, the ground test [NaN <= 0] never succeeds, and
    the integrator returns NaN after its 5000 steps.  The launch model
    produces such a state from a stiffness of 0. *)
Lemma simulateFlightPath_nan_at_zero_speed :
  let s := flightStep defaultSpecs (mkLaunch (Vec.mk 0 5.5 0) (Vec.mk 0 0 0)) in
  Vec.x (vel s) = nan /\ Vec.y (vel s) = nan /\
  Vec.x (pos s) = nan /\ Vec.y (pos s) = nan /\
  simulateFlightPath (Vec.mk 0 5.5 0) (Vec.mk 0 0 0) defaultSpecs = nan /\
  vel (@calculateLaunchVector taylorMath (mkSpecs 0 6 25 10 45 150 0 0.05)) = Vec.mk 0 0 0 /\
  @rangeOf taylorMath (mkSpecs 0 6 25 10 45 150 0 0.05) = nan.
Proof. by_evaluation. Qed.

(** C6 (the code at the failing input). With the angle at 80 degrees and a
    head wind of 20, both within the ranges of the controls, and every other
    field at its default, the range decreases when the stiffness grows from
    1000 to 2000, and it keeps decreasing over the solver's bracket.  The
    inner search, which relies on the monotonicity, then returns its first
    midpoint 75050 with an error of 40 for the target 2, although the
    stiffness 4000 lands within 0.4 of that target. *)
Lemma range_decreases_with_stiffness_in_head_wind :
  let p k := mkSpecs k 6 25 10 80 150 20 0.05 in
  (1000 <? 2000) = true /\
  @rangeOf taylorMath (p 1000) = 4.243729860941202 /\
  @rangeOf taylorMath (p 2000) = 3.6191174851126342 /\
  (@rangeOf taylorMath (p 2000) <? @rangeOf taylorMath (p 1000)) = true /\
  (@rangeOf taylorMath (p 112525) <? @rangeOf taylorMath (p 75050)) = true /\
  (@rangeOf taylorMath (p 75050) <? @rangeOf taylorMath (p 2000)) = true /\
  @solveTensionForAngle taylorMath (mkSpecs 4000 6 25 10 80 2 20 0.05) 80
    = Sol.mk 75050 40.051716893019552 /\
  (Math_abs (@rangeOf taylorMath (p 4000) - 2) <? 0.4) = true.
Proof. by_evaluation. Qed.

(** The positions of the tension slider: the tensions [100 n] for
    [10 <= n <= 800], that is 1000 to 80000 in steps of 100. *)
Definition sliderPositions : list Z := map (fun i => (10 + Z.of_nat i)%Z) (seq 0 791).

Lemma all_sliderPositions (P : Z -> bool) :
  forallb P sliderPositions = true ->
  forall n, (10 <= n <= 800)%Z -> P n = true.
Proof.
  intros Hall n Hn. rewrite forallb_forall in Hall. apply Hall.
  unfold sliderPositions. apply in_map_iff.
  exists (Z.to_nat (n - 10)). split; [lia|]. apply in_seq. lia.
Qed.

(** The distance between the integrator's range and the closed-form range,
    from the release state of [p]. *)
Definition closedFormMiss (p : Specs) : float :=
  let l := @calculateLaunchVector taylorMath p in
  Math_abs (simulateFlightPath (pos l) (vel l) p - closedFormRange (pos l) (vel l)).

(** C7 (as stated, refuted). Without drag and wind, from the release state of
    the default launcher (45 degrees, speed about 21.49), the integrator
    returns 52.375... while the closed form gives 52.529...: they differ by
    more than 0.15, not by at most 1e-2.  The default pair is no exception:
    at 45 degrees, of the 791 launch speeds the tension slider can produce,
    the two ranges are within 1e-2 of each other at 14 only (the tensions
    4100, 6300, 7800, ...), and further apart at the other 777. *)
Lemma integrator_misses_closed_form_by_more_than_a_centimetre :
  let p := mkSpecs 4000 6 25 10 45 150 0 0 in
  let l := @calculateLaunchVector taylorMath p in
  simulateFlightPath (pos l) (vel l) p = 52.375014956419449 /\
  closedFormRange (pos l) (vel l) = 52.529530180552278 /\
  (Math_abs (simulateFlightPath (pos l) (vel l) p - closedFormRange (pos l) (vel l))
     <=? 1e-2) = false /\
  (0.15 <? Math_abs (simulateFlightPath (pos l) (vel l) p - closedFormRange (pos l) (vel l)))
    = true /\
  length sliderPositions = 791%nat /\
  filter (fun n => closedFormMiss (mkSpecs (Z2float (100 * n)) 6 25 10 45 150 0 0) <=? 1e-2)
         sliderPositions
    = [41; 63; 78; 112; 152; 214; 251; 329; 395; 506; 576; 712; 719; 742]%Z.
Proof. by_evaluation. Qed.

(** C7 (amended). With drag 0 and wind 0, at the default angle of 45 degrees
    and for every launch speed the tension slider can produce (the tensions
    [100 n], [10 <= n <= 800], every other field at its default), the range
    of the integrator equals the closed-form range to within one step of
    horizontal travel, [vel.x * 0.016], which lies between 0.12 and 1.09. *)
Theorem integrator_matches_closed_form_within_one_step (n : Z) :
  (10 <= n <= 800)%Z ->
  let p := mkSpecs (Z2float (100 * n)) 6 25 10 45 150 0 0 in
  let l := @calculateLaunchVector taylorMath p in
  (Math_abs (simulateFlightPath (pos l) (vel l) p - closedFormRange (pos l) (vel l))
     <=? Vec.x (vel l) * 0.016) = true /\
  (0.12 <? Vec.x (vel l) * 0.016) = true /\
  (Vec.x (vel l) * 0.016 <? 1.09) = true.
Proof.
  intros Hn. cbv zeta.
  pose (check := fun n : Z =>
    let p := mkSpecs (Z2float (100 * n)) 6 25 10 45 150 0 0 in
    let l := @calculateLaunchVector taylorMath p in
    (Math_abs (simulateFlightPath (pos l) (vel l) p - closedFormRange (pos l) (vel l))
       <=? Vec.x (vel l) * 0.016)
    && (0.12 <? Vec.x (vel l) * 0.016)
    && (Vec.x (vel l) * 0.016 <? 1.09)).
  assert (Hall : forallb check sliderPositions = true) by (vm_compute; reflexivity).
  pose proof (all_sliderPositions check Hall n Hn) as Hc.
  unfold check in Hc. cbv zeta in Hc.
  apply andb_prop in Hc. destruct Hc as [Hc H3].
  apply andb_prop in Hc. destruct Hc as [H1 H2].
  split; [exact H1|]. split; [exact H2 | exact H3].
Qed.

(** C7, on the default launcher (tension 4000): the two ranges are 0.1545...
    apart, within the step of 0.2430.... *)
Lemma integrator_matches_closed_form_within_one_step_witness :
  (10 <= 40 <= 800)%Z /\
  (let p := mkSpecs (Z2float (100 * 40)) 6 25 10 45 150 0 0 in
   let l := @calculateLaunchVector taylorMath p in
   (Math_abs (simulateFlightPath (pos l) (vel l) p - closedFormRange (pos l) (vel l))
      <=? Vec.x (vel l) * 0.016) = true /\
   (0.12 <? Vec.x (vel l) * 0.016) = true /\
   (Vec.x (vel l) * 0.016 <? 1.09) = true).
Proof.
  split; [lia|]. apply (integrator_matches_closed_form_within_one_step 40). lia.
Defined.

(** ** Order facts on binary64 comparisons *)

Ltac cmp_cases :=
  repeat match goal with
  | |- context [Z.compare ?a ?b] => destruct (Z.compare_spec a b); subst
  | H : context [Z.compare ?a ?b] |- _ => destruct (Z.compare_spec a b); subst
  | |- context [Pos.compare_cont Eq ?a ?b] =>
      change (Pos.compare_cont Eq a b) with (Pos.compare a b);
      destruct (Pos.compare_spec a b); subst
  | H : context [Pos.compare_cont Eq ?a ?b] |- _ =>
      change (Pos.compare_cont Eq a b) with (Pos.compare a b) in H;
      destruct (Pos.compare_spec a b); subst
  end.

Lemma SFltb_irrefl (u : spec_float) : SFltb u u = false.
Proof.
  unfold SFltb, SFcompare.
  destruct u as [[|]|[|]| |[|] m e]; try reflexivity;
    cmp_cases; simpl; try reflexivity; lia.
Qed.

Lemma SFltb_trans (u v w : spec_float) :
  SFltb u v = true -> SFltb v w = true -> SFltb u w = true.
Proof.
  unfold SFltb, SFcompare.
  destruct u as [[|]|[|]| |[|] mu eu], v as [[|]|[|]| |[|] mv ev],
           w as [[|]|[|]| |[|] mw ew];
    try discriminate; try reflexivity; intros H1 H2; cmp_cases; simpl in *;
    try discriminate; try reflexivity; lia.
Qed.

Lemma SFleb_ltb_trans (u v w : spec_float) :
  SFleb u v = true -> SFltb v w = true -> SFltb u w = true.
Proof.
  unfold SFleb, SFltb, SFcompare.
  destruct u as [[|]|[|]| |[|] mu eu], v as [[|]|[|]| |[|] mv ev],
           w as [[|]|[|]| |[|] mw ew];
    try discriminate; try reflexivity; intros H1 H2; cmp_cases; simpl in *;
    try discriminate; try reflexivity; lia.
Qed.

Lemma ltb_irrefl (a : float) : (a <? a) = false.
Proof. rewrite ltb_spec. apply SFltb_irrefl. Qed.

Lemma ltb_trans (a b c : float) : (a <? b) = true -> (b <? c) = true -> (a <? c) = true.
Proof. rewrite !ltb_spec. apply SFltb_trans. Qed.

Lemma leb_ltb_trans (a b c : float) : (a <=? b) = true -> (b <? c) = true -> (a <? c) = true.
Proof. rewrite leb_spec, !ltb_spec. apply SFleb_ltb_trans. Qed.

(** A value that improves on [b] is not beaten by anything that did not beat [b]. *)
Lemma not_ltb_improved (a b c : float) :
  (a <? b) = true -> (c <? b) = false -> (c <? a) = false.
Proof.
  intros Hab Hcb. destruct (c <? a) eqn:Hca; [|reflexivity].
  now rewrite (ltb_trans _ _ _ Hca Hab) in Hcb.
Qed.

Lemma not_leb_improved (a b c : float) :
  (a <? b) = true -> (c <? b) = false -> (c <=? a) = false.
Proof.
  intros Hab Hcb. destruct (c <=? a) eqn:Hca; [|reflexivity].
  now rewrite (leb_ltb_trans _ _ _ Hca Hab) in Hcb.
Qed.

(** ** The inner search *)

(** From here on the integrator is used as a black box: proofs never unfold
    its 5000 iterations. *)
Opaque simulateFlightPath.

Section InnerSearch.
  Variable dist : float -> float.
  Variable target : float.

Lemma bisectLoop_iter (n : nat) (b : Bracket) :
    bisectLoop dist target n b = Nat.iter n (bisectStep dist target) b.
  Proof.
    revert b; induction n as [|n IH]; intros b; [reflexivity|].
    cbn [bisectLoop]. rewrite IH. now rewrite Nat.iter_succ_r.
  Qed.

Lemma bisectStep_best (b : Bracket) :
    (bestT (bisectStep dist target b), bestErr (bisectStep dist target b))
      = if Math_abs (missAt dist target b) <? bestErr b
        then (midpoint b, Math_abs (missAt dist target b))
        else (bestT b, bestErr b).
  Proof.
    unfold bisectStep.
    destruct (Math_abs (missAt dist target b) <? bestErr b), (0 <? missAt dist target b);
      reflexivity.
  Qed.

Lemma bisectStep_bounds (b : Bracket) :
    (bmin (bisectStep dist target b), bmax (bisectStep dist target b))
      = if 0 <? missAt dist target b then (bmin b, midpoint b) else (midpoint b, bmax b).
  Proof.
    unfold bisectStep.
    destruct (Math_abs (missAt dist target b) <? bestErr b), (0 <? missAt dist target b);
      reflexivity.
  Qed.

  (** What [bestT], [bestErr] hold at the start of iteration [i]: nothing
      evaluated so far is strictly better, and the pair is the earliest
      evaluation with that error, or still the initial one. *)
Definition bestSeen (i : nat) (t e : float) : Prop :=
    (forall j, (j < i)%nat -> (absErrAt dist target j <? e) = false) /\
    ((exists j, (j < i)%nat /\ t = midAt dist target j /\ e = absErrAt dist target j /\
                forall j', (j' < j)%nat ->
                           (absErrAt dist target j' <=? absErrAt dist target j) = false)
     \/ (t = 100 /\ e = Infinity)).

Lemma bestSeen_bracketAt (i : nat) :
    bestSeen i (bestT (bracketAt dist target i)) (bestErr (bracketAt dist target i)).
  Proof.
    induction i as [|i [IHlt IHwho]].
    - split; [intros j Hj; lia | right; split; reflexivity].
    - change (bracketAt dist target (S i))
        with (bisectStep dist target (bracketAt dist target i)).
      pose proof (bisectStep_best (bracketAt dist target i)) as Hb.
      change (Math_abs (missAt dist target (bracketAt dist target i)))
        with (absErrAt dist target i) in Hb.
      change (midpoint (bracketAt dist target i)) with (midAt dist target i) in Hb.
      destruct (absErrAt dist target i <? bestErr (bracketAt dist target i)) eqn:E;
        injection Hb as -> ->.
      + split.
        * intros j Hj. destruct (Nat.eq_dec j i) as [->|Hne]; [apply ltb_irrefl|].
          apply (not_ltb_improved _ _ _ E). apply IHlt. lia.
        * left. exists i. repeat split; try lia.
          intros j' Hj'. apply (not_leb_improved _ _ _ E). now apply IHlt.
      + split.
        * intros j Hj. destruct (Nat.eq_dec j i) as [->|Hne]; [exact E|].
          apply IHlt. lia.
        * destruct IHwho as [(j & Hj & Ht & He & Hfirst) | Hinit]; [left | now right].
          exists j. repeat split; trivial. lia.
  Qed.
End InnerSearch.

Lemma solveTensionForAngle_bracketAt `{MathLib} (specs : Specs) (a : float) :
  solveTensionForAngle specs a
    = Sol.mk (bestT (bracketAt (rangeAt specs a) (targetDist specs) 40))
             (bestErr (bracketAt (rangeAt specs a) (targetDist specs) 40)).
Proof. unfold solveTensionForAngle, bracketAt. now rewrite bisectLoop_iter. Qed.

Definition hugeDrag : Specs := mkSpecs 4000 6 25 10 45 150 0 1e308.

(** C1 (as stated, refuted). With a drag coefficient of 1e308 every midpoint
    evaluation has an infinite range, hence the error Infinity, which is not
    below the initial [bestErr]: the search returns the initial pair
    (100, Infinity), and 100 is none of the 40 stiffnesses it evaluated. *)
Lemma inner_search_may_return_unevaluated_stiffness :
  let r := @solveTensionForAngle taylorMath hugeDrag 45 in
  let range := @rangeAt taylorMath hugeDrag 45 in
  r = Sol.mk 100 Infinity /\
  ~ (exists i, (i < 40)%nat /\
               Sol.t r = midAt range (targetDist hugeDrag) i /\
               Sol.err r = absErrAt range (targetDist hugeDrag) i).
Proof.
  assert (Hr : @solveTensionForAngle taylorMath hugeDrag 45 = Sol.mk 100 Infinity)
    by (vm_compute; reflexivity).
  cbv zeta. rewrite Hr. split; [reflexivity|].
  intros (i & Hi & Ht & _). cbn [Sol.t] in Ht.
  assert (Hall : forallb (fun i => negb (100 =? midAt (@rangeAt taylorMath hugeDrag 45)
                                                      (targetDist hugeDrag) i))
                         (seq 0 40) = true) by (vm_compute; reflexivity).
  rewrite forallb_forall in Hall.
  specialize (Hall i). rewrite in_seq in Hall.
  assert (Hi' : (0 <= i < 0 + 40)%nat) by lia.
  apply Hall in Hi'. rewrite <- Ht in Hi'. vm_compute in Hi'. discriminate.
Qed.

(** C1 (amended). For every spec and candidate angle the inner search runs a
    binary search over the stiffness on the fixed bracket [100, 150000] for
    exactly 40 iterations; each iteration evaluates the range at the midpoint
    of the bracket through the launch model and the integrator, and continues
    with the lower half when the range exceeds the target, with the upper half
    otherwise.  No evaluation has an error strictly below the returned one,
    and the returned pair is the earliest of the 40 evaluations with that
    error, not merely the last one; only when no evaluation has an error below
    Infinity does the search return the initial pair (100, Infinity). *)
Theorem solveTensionForAngle_returns_best_evaluation `{MathLib} (specs : Specs) (a : float) :
  let r := solveTensionForAngle specs a in
  let bracket := bracketAt (rangeAt specs a) (targetDist specs) in
  let mid := midAt (rangeAt specs a) (targetDist specs) in
  let absErr := absErrAt (rangeAt specs a) (targetDist specs) in
  bracket 0%nat = mkBracket 100 150000 100 Infinity /\
  r = Sol.mk (bestT (bracket 40%nat)) (bestErr (bracket 40%nat)) /\
  (forall i,
      let launch := calculateLaunchVector (withTensionAngle specs (mid i) a) in
      let range := simulateFlightPath (pos launch) (vel launch) specs in
      mid i = (bmin (bracket i) + bmax (bracket i)) / 2 /\
      absErr i = Math_abs (range - targetDist specs) /\
      (bmin (bracket (S i)), bmax (bracket (S i)))
        = if 0 <? range - targetDist specs
          then (bmin (bracket i), mid i)
          else (mid i, bmax (bracket i))) /\
  (forall i, (i < 40)%nat -> (absErr i <? Sol.err r) = false) /\
  ((exists j, (j < 40)%nat /\
              Sol.t r = mid j /\ Sol.err r = absErr j /\
              forall j', (j' < j)%nat -> (absErr j' <=? absErr j) = false)
   \/ (r = Sol.mk 100 Infinity /\
       forall i, (i < 40)%nat -> (absErr i <? Infinity) = false)).
Proof.
  cbv zeta. rewrite solveTensionForAngle_bracketAt. cbn [Sol.t Sol.err].
  destruct (bestSeen_bracketAt (rangeAt specs a) (targetDist specs) 40) as [Hlt Hwho].
  split; [reflexivity|]. split; [reflexivity|]. split.
  - intros i. split; [reflexivity|]. split; [reflexivity|].
    exact (bisectStep_bounds (rangeAt specs a) (targetDist specs)
                             (bracketAt (rangeAt specs a) (targetDist specs) i)).
  - split; [exact Hlt|].
    destruct Hwho as [Hj | [Ht He]]; [now left | right].
    rewrite Ht, He in *. split; [reflexivity | exact Hlt].
Qed.

(** ** The angle sweep *)

Section Sweep.
Variable solver : float -> Sol.result.

Lemma sweepLoop_step (fuel : nat) (a : float) (r : Sol.result * float) :
  sweepLoop solver (S fuel) a (fst r) (snd r)
    = if a <=? 75
      then sweepLoop solver fuel (a + 5) (fst (keepBetter solver r a))
                     (snd (keepBetter solver r a))
      else r.
Proof.
  destruct r as [best ang]. cbn [sweepLoop fst snd]. unfold keepBetter. cbn [fst].
  destruct (a <=? 75), (Sol.err (solver a) <? Sol.err best); reflexivity.
Qed.

(** The loop visits exactly the candidates 15, 20, ..., 75, in this order. *)
Lemma sweepLoop_fold (solution : Sol.result) (angle0 : float) :
  sweepLoop solver 13 15 solution angle0
    = fold_left (keepBetter solver) sweepAngles (solution, angle0).
Proof.
  change (sweepLoop solver 13 15 solution angle0)
    with (sweepLoop solver 13 15 (fst (solution, angle0)) (snd (solution, angle0))).
  generalize (solution, angle0) as r. intros r.
  unfold sweepAngles. cbn [fold_left].
  repeat (rewrite sweepLoop_step;
          match goal with
          | |- context [?u <=? 75] =>
              let b := eval vm_compute in (u <=? 75) in change (u <=? 75) with b
          end;
          cbv iota;
          match goal with
          | |- context [?u + 5] =>
              let v := eval vm_compute in (u + 5) in change (u + 5) with v
          end).
  cbn [sweepLoop]. symmetry. apply surjective_pairing.
Qed.

(** Folding [keepBetter] keeps a candidate no other candidate beats. *)
Lemma fold_keepBetter_best (l : list float) (r0 : Sol.result * float) :
  let r := fold_left (keepBetter solver) l r0 in
  (Sol.err (fst r0) <? Sol.err (fst r)) = false /\
  (forall a, In a l -> (Sol.err (solver a) <? Sol.err (fst r)) = false) /\
  (r = r0 \/ exists a, In a l /\ r = (solver a, a)).
Proof.
  induction l as [|a l IH] using rev_ind; cbv zeta.
  - cbn. split; [apply ltb_irrefl|]. split; [intros a []| now left].
  - rewrite fold_left_app. cbn [fold_left].
    destruct IH as (H0 & Hall & Hwho).
    set (r := fold_left (keepBetter solver) l r0) in *.
    destruct (Sol.err (solver a) <? Sol.err (fst r)) eqn:E.
    + assert (Hk : keepBetter solver r a = (solver a, a))
        by (unfold keepBetter; now rewrite E).
      rewrite Hk. cbn [fst].
      split; [exact (not_ltb_improved _ _ _ E H0)|]. split.
      * intros a' Ha'. apply in_app_or in Ha'. destruct Ha' as [Ha'|[<-|[]]].
        -- exact (not_ltb_improved _ _ _ E (Hall a' Ha')).
        -- apply ltb_irrefl.
      * right. exists a. split; [apply in_or_app; right; now left | reflexivity].
    + assert (Hk : keepBetter solver r a = r)
        by (unfold keepBetter; now rewrite E).
      rewrite Hk.
      split; [exact H0|]. split.
      * intros a' Ha'. apply in_app_or in Ha'. destruct Ha' as [Ha'|[<-|[]]].
        -- exact (Hall a' Ha').
        -- exact E.
      * destruct Hwho as [Heq | (a' & Ha' & Heq)]; [now left | right].
        exists a'. split; [apply in_or_app; now left | exact Heq].
Qed.

Lemma sweepSearch_fold (angle0 : float) :
  sweepSearch solver angle0
    = let solution := solver angle0 in
      let swept := fold_left (keepBetter solver) sweepAngles (solution, angle0) in
      if 1.0 <? Sol.err solution
      then if Sol.err (fst swept) <? 2.0
           then (fst swept, snd swept, true)
           else (solution, angle0, false)
      else (solution, angle0, false).
Proof.
  unfold sweepSearch. cbv zeta. rewrite sweepLoop_fold.
  destruct (fold_left _ _ _) as [bg ba]. reflexivity.
Qed.
End Sweep.

(** The state [runOptimizer] commits for a solution, a final angle and a flag. *)
Definition commit (sp : Specs) (r : Sol.result) (a : float) (flag : bool) : AppState :=
  mkApp (withTensionAngle sp (Math_round (Sol.t r)) (Math_round a)) LOCKED flag.

Definition farTarget : Specs := mkSpecs 4000 6 25 10 80 1473.1946327023675 0 0.05.

(** C4 (as stated, refuted). For the target 1473.1946327023675 requested at 80
    degrees, the inner search at 80 degrees misses by 966, the sweep runs, and
    its best candidate (45 degrees) misses by exactly 2: the best global error
    is not above 2.0.  The claim has the sweep's result replace the original
    one in that case; the code keeps the result for 80 degrees and leaves the
    flag false, because it commits the sweep only below 2.0. *)
Lemma sweep_result_discarded_at_error_two :
  let solver := @solveTensionForAngle taylorMath farTarget in
  let swept := fold_left (keepBetter solver) sweepAngles (solver 80, 80) in
  (solver 80, swept, @runOptimizer taylorMath (mkApp farTarget IDLE false))
    = (Sol.mk 149999.99999986368 966.02679563200513,
       (Sol.mk 149999.99999986368 2, 45),
       mkApp (withTensionAngle farTarget 150000 80) LOCKED false) /\
  (1.0 <? 966.02679563200513) = true /\
  (2.0 <? 2) = false /\
  (2 <? 2.0) = false.
Proof. by_evaluation. Qed.

(** C4 (amended). The solver runs the angle sweep only when the inner search
    at the requested angle yields an error above 1.0; the sweep tries the
    candidate angles 15, 20, ..., 75 and keeps the globally best
    (stiffness, angle) pair by error; its result replaces the single-angle
    result, and the auto-corrected flag is set, exactly when the best global
    error is below 2.0; otherwise (in particular at exactly 2.0) the original
    single-angle result is kept and the flag stays false. *)
Theorem runOptimizer_sweep_policy `{MathLib} (st : AppState) :
  let sp := specs st in
  let solver := solveTensionForAngle sp in
  let solution := solver (angle sp) in
  let swept := fold_left (keepBetter solver) sweepAngles (solution, angle sp) in
  sweepAngles = [15; 20; 25; 30; 35; 40; 45; 50; 55; 60; 65; 70; 75] /\
  runOptimizer st
    = (if 1.0 <? Sol.err solution
       then if Sol.err (fst swept) <? 2.0
            then commit sp (fst swept) (snd swept) true
            else commit sp solution (angle sp) false
       else commit sp solution (angle sp) false) /\
  (Sol.err solution <? Sol.err (fst swept)) = false /\
  (forall a, In a sweepAngles -> (Sol.err (solver a) <? Sol.err (fst swept)) = false) /\
  (swept = (solution, angle sp) \/ exists a, In a sweepAngles /\ swept = (solver a, a)).
Proof.
  cbv zeta. split; [reflexivity|]. split.
  - unfold runOptimizer, optimizerSearch. rewrite sweepSearch_fold. cbv zeta.
    destruct (1.0 <? _); [destruct (_ <? 2.0)|]; reflexivity.
  - exact (fold_keepBetter_best (solveTensionForAngle (specs st)) sweepAngles
             (solveTensionForAngle (specs st) (angle (specs st)), angle (specs st))).
Qed.

(** ** The flight phase of the render loop *)

(** Signs: a square, and a sum of squares, is never a negative number, a
    negative zero included; so adding the square of a zero [z] component
    changes nothing. *)
Definition nonneg_sign (u : spec_float) : Prop :=
  match u with
  | S754_zero true | S754_infinity true | S754_finite true _ _ => False
  | _ => True
  end.

Lemma binary_round_aux_nonneg (m e : Z) (l : location) :
  nonneg_sign (binary_round_aux prec emax false m e l).
Proof.
  unfold binary_round_aux.
  destruct (shr_fexp prec emax m e l) as [mrs e'].
  destruct (shr_fexp prec emax _ e' loc_Exact) as [mrs' e''].
  destruct (shr_m mrs'); cbn; trivial.
  destruct (Z.leb _ _); exact I.
Qed.

Lemma SFmul_self_nonneg (u : spec_float) : nonneg_sign (SF64mul u u).
Proof.
  destruct u as [[|]|[|]| |[|] m e]; cbn; trivial; apply binary_round_aux_nonneg.
Qed.

Lemma SFadd_nonneg (u v : spec_float) :
  nonneg_sign u -> nonneg_sign v -> nonneg_sign (SF64add u v).
Proof.
  destruct u as [[|]|[|]| |[|] mu eu], v as [[|]|[|]| |[|] mv ev];
    cbn [nonneg_sign]; try contradiction; intros _ _; try exact I.
  unfold SF64add, SFadd, binary_normalize, cond_Zopp.
  cbn [Z.add]. unfold binary_round.
  destruct (shl_align _ _ _) as [mz ez]. apply binary_round_aux_nonneg.
Qed.

Lemma SFadd_zero_r (u : spec_float) :
  nonneg_sign u -> SF64add u (S754_zero false) = u.
Proof.
  destruct u as [[|]|[|]| |[|] m e]; cbn [nonneg_sign]; try contradiction; reflexivity.
Qed.

Lemma sum_of_squares_plus_zero (a b : float) : a * a + b * b + 0 * 0 = a * a + b * b.
Proof.
  apply Prim2SF_inj. rewrite (add_spec (a * a + b * b)).
  change (Prim2SF (0 * 0)) with (S754_zero false).
  apply SFadd_zero_r. rewrite add_spec, !mul_spec.
  apply SFadd_nonneg; apply SFmul_self_nonneg.
Qed.

(** The integrator state an engine state carries. *)
Definition flightState (st : Eng.state) : Launch := mkLaunch (Eng.pos st) (Eng.vel st).

(** Engine states as the launch model produces them: no [z] component. *)
Definition planar (st : Eng.state) : Prop :=
  Vec.z (Eng.pos st) = 0 /\ Vec.z (Eng.vel st) = 0.

Section RenderLoop.
Context `{MathLib}.
Variable p : Specs.

(** A frame of the FLIGHT phase is one step of the integrator, followed by the
    clamp of [pos.y] and the telemetry when the ground is reached. *)
Lemma animate_flight (st : Eng.state) :
  Eng.phase st = FLIGHT -> planar st ->
  let s' := flightStep p (flightState st) in
  animate p st
    = if grounded s'
      then Eng.mk IMPACT (Vec.setY (pos s') 0) (vel s') (Eng.theta st) (Eng.time st + dt)
                  (mkTelemetry (Vec.x (pos s')) 0 (Vec.x (pos s') - targetDist p))
      else Eng.mk FLIGHT (pos s') (vel s') (Eng.theta st) (Eng.time st + dt)
                  (Eng.telemetry st).
Proof.
  destruct st as [ph [px py pz] [vx vy vz] th tm tel].
  unfold planar. cbn [Eng.phase Eng.pos Eng.vel Vec.z]. intros -> [-> ->].
  cbv zeta. unfold animate, flightStep, flightState, grounded, Vec.lengthSq, pow2.
  cbn [Eng.phase Eng.pos Eng.vel Eng.theta Eng.time Eng.telemetry Vec.x Vec.y Vec.z pos vel].
  rewrite sum_of_squares_plus_zero.
  destruct (acceleration p _ vx vy) as [ax ay].
  unfold Vec.add, Vec.multiplyScalar, Vec.setY.
  cbn [Vec.x Vec.y Vec.z pos vel].
  change (0 + 0 * dt) with 0.
  destruct (_ <=? 0); reflexivity.
Qed.

Lemma flightStep_planar (s : Launch) :
  Vec.z (pos s) = 0 -> Vec.z (vel s) = 0 ->
  Vec.z (pos (flightStep p s)) = 0 /\ Vec.z (vel (flightStep p s)) = 0.
Proof.
  intros Hp Hv. unfold flightStep.
  destruct (acceleration p _ _ _) as [ax ay]. cbn. now split.
Qed.

Variable st0 : Eng.state.
Hypothesis fired0 : Eng.phase st0 = FLIGHT_START.

Lemma frames_launch :
  Eng.phase (frames p st0 1) = FLIGHT /\
  flightState (frames p st0 1) = calculateLaunchVector p /\
  planar (frames p st0 1).
Proof.
  change (frames p st0 1) with (animate p st0).
  unfold animate. rewrite fired0.
  unfold flightState, planar, calculateLaunchVector. cbn. repeat split.
Qed.

(** While the integrator has not reached the ground, the engine is in flight
    and carries the integrator's state. *)
Lemma frames_in_flight (k : nat) :
  (forall j, (1 <= j <= k)%nat -> grounded (stateAt p (calculateLaunchVector p) j) = false) ->
  Eng.phase (frames p st0 (1 + k)) = FLIGHT /\
  flightState (frames p st0 (1 + k)) = stateAt p (calculateLaunchVector p) k /\
  planar (frames p st0 (1 + k)).
Proof.
  induction k as [|k IH]; intros Hair.
  - exact frames_launch.
  - destruct IH as (Hph & Hst & Hpl); [intros j Hj; apply Hair; lia|].
    change (frames p st0 (1 + S k)) with (animate p (frames p st0 (1 + k))).
    rewrite (animate_flight _ Hph Hpl). cbv zeta. rewrite Hst.
    change (flightStep p (stateAt p (calculateLaunchVector p) k))
      with (stateAt p (calculateLaunchVector p) (S k)).
    rewrite Hair by lia.
    unfold flightState, planar. cbn [Eng.phase Eng.pos Eng.vel].
    split; [reflexivity|]. split.
    + now destruct (stateAt p (calculateLaunchVector p) (S k)).
    + change (stateAt p (calculateLaunchVector p) (S k))
        with (flightStep p (stateAt p (calculateLaunchVector p) k)).
      rewrite <- Hst. destruct Hpl as [Hz1 Hz2]. now apply flightStep_planar.
Qed.

(** The frame on which the integrator reaches the ground. *)
Lemma frames_impact (k : nat) :
  (1 <= k)%nat ->
  grounded (stateAt p (calculateLaunchVector p) k) = true ->
  (forall j, (1 <= j < k)%nat -> grounded (stateAt p (calculateLaunchVector p) j) = false) ->
  let s := stateAt p (calculateLaunchVector p) k in
  Eng.phase (frames p st0 (1 + k)) = IMPACT /\
  Eng.pos (frames p st0 (1 + k)) = Vec.setY (pos s) 0 /\
  Eng.vel (frames p st0 (1 + k)) = vel s /\
  Eng.telemetry (frames p st0 (1 + k))
    = mkTelemetry (Vec.x (pos s)) 0 (Vec.x (pos s) - targetDist p).
Proof.
  intros Hk Hg Hair. destruct k as [|k]; [lia|].
  destruct (frames_in_flight k) as (Hph & Hst & Hpl); [intros j Hj; apply Hair; lia|].
  change (frames p st0 (1 + S k)) with (animate p (frames p st0 (1 + k))).
  rewrite (animate_flight _ Hph Hpl). cbv zeta. rewrite Hst.
  change (flightStep p (stateAt p (calculateLaunchVector p) k))
    with (stateAt p (calculateLaunchVector p) (S k)).
  rewrite Hg. cbn. repeat split.
Qed.
End RenderLoop.

Definition longShot : Specs := mkSpecs 2000000 6 25 10 80 150 0 0.

(** C10 (as stated, refuted). Path mode and range-only mode do not always
    report the same ground-impact distance, and the positions they produce
    differ at the impact.  With a stiffness of 2000000 at 80 degrees, without
    drag and wind, the projectile is still in flight after 5000 steps:
    range-only mode returns the horizontal position 6680.31... of step 5000,
    while the render loop flies on and reports the impact at 8053.90... on
    frame 6030.  With the default specs both report 52.17..., but at the impact
    the render loop's position has its height set to 0, while the integrator's
    is -0.158.... *)
Lemma path_mode_and_range_mode_differ :
  let l := @calculateLaunchVector taylorMath longShot in
  let d := @calculateLaunchVector taylorMath defaultSpecs in
  simulateFlightPath (pos l) (vel l) longShot = 6680.3103611333945 /\
  Eng.phase (@frames taylorMath longShot fired 6029) = FLIGHT /\
  Eng.phase (@frames taylorMath longShot fired 6030) = IMPACT /\
  range (Eng.telemetry (@frames taylorMath longShot fired 6030)) = 8053.902192841173 /\
  (6680.3103611333945 =? 8053.902192841173) = false /\
  grounded (stateAt defaultSpecs d 198) = true /\
  Vec.y (pos (stateAt defaultSpecs d 198)) = -0.15861638263140893 /\
  Vec.y (Eng.pos (@frames taylorMath defaultSpecs fired 199)) = 0.
Proof. by_evaluation. Qed.

(** C10 (amended). The physics update of a FLIGHT frame of the render loop is
    the step function of [simulateFlightPath] (same drag, wind, gravity, time
    step 0.016, velocity before position), followed on the frame that reaches
    the ground by setting the height to 0.  So from the release state of the
    same spec both produce the same positions while the projectile is in the
    air, the same horizontal position when it reaches the ground, and, when it
    does so within the 5000 steps of range-only mode, the same ground-impact
    distance. *)
Theorem animate_flight_matches_simulateFlightPath
  `{MathLib} (p : Specs) (st0 : Eng.state) :
  Eng.phase st0 = FLIGHT_START ->
  let l := calculateLaunchVector p in
  (forall st, Eng.phase st = FLIGHT -> planar st ->
     let s' := flightStep p (flightState st) in
     Eng.vel (animate p st) = vel s' /\
     Eng.pos (animate p st) = (if grounded s' then Vec.setY (pos s') 0 else pos s') /\
     Eng.phase (animate p st) = (if grounded s' then IMPACT else FLIGHT)) /\
  (forall k,
     (forall j, (1 <= j <= k)%nat -> grounded (stateAt p l j) = false) ->
     Eng.phase (frames p st0 (1 + k)) = FLIGHT /\
     Eng.pos (frames p st0 (1 + k)) = pos (stateAt p l k) /\
     Eng.vel (frames p st0 (1 + k)) = vel (stateAt p l k)) /\
  (forall k,
     (1 <= k)%nat ->
     grounded (stateAt p l k) = true ->
     (forall j, (1 <= j < k)%nat -> grounded (stateAt p l j) = false) ->
     Eng.phase (frames p st0 (1 + k)) = IMPACT /\
     Eng.pos (frames p st0 (1 + k)) = Vec.setY (pos (stateAt p l k)) 0 /\
     range (Eng.telemetry (frames p st0 (1 + k))) = Vec.x (pos (stateAt p l k)) /\
     ((k <= 5000)%nat ->
      range (Eng.telemetry (frames p st0 (1 + k))) = simulateFlightPath (pos l) (vel l) p /\
      impactError (Eng.telemetry (frames p st0 (1 + k)))
        = simulateFlightPath (pos l) (vel l) p - targetDist p)).
Proof.
  intros Hfired. cbv zeta. split; [|split].
  - intros st Hph Hpl. rewrite (animate_flight p st Hph Hpl). cbv zeta.
    destruct (grounded _); cbn; auto.
  - intros k Hair.
    destruct (frames_in_flight p st0 Hfired k Hair) as (Hph & Hst & _).
    rewrite <- Hst. now split.
  - intros k Hk Hg Hair.
    destruct (frames_impact p st0 Hfired k Hk Hg Hair) as (Hph & Hpos & _ & Htel).
    rewrite Htel. cbn [range impactError].
    split; [exact Hph|]. split; [exact Hpos|]. split; [reflexivity|].
    intros Hbudget.
    assert (Hsim : simulateFlightPath (pos (calculateLaunchVector p))
                                      (vel (calculateLaunchVector p)) p
                   = Vec.x (pos (stateAt p (calculateLaunchVector p) k))).
    { destruct (calculateLaunchVector p) as [lp lv] eqn:El. cbn [pos vel].
      apply simulateFlightPath_at_first_hit; [lia | exact Hg | exact Hair]. }
    rewrite Hsim. now split.
Qed.

(** The default launcher: the projectile reaches the ground on step 198, and
    the impact frame reports the range of [simulateFlightPath]. *)
Lemma animate_flight_matches_simulateFlightPath_witness :
  let l := @calculateLaunchVector taylorMath defaultSpecs in
  range (Eng.telemetry (@frames taylorMath defaultSpecs fired (1 + 198)))
    = simulateFlightPath (pos l) (vel l) defaultSpecs.
Proof.
  cbv zeta.
  destruct (@animate_flight_matches_simulateFlightPath taylorMath defaultSpecs fired eq_refl)
    as (_ & _ & Himpact).
  destruct (Himpact 198%nat) as (_ & _ & _ & Hrange).
  - lia.
  - vm_compute; reflexivity.
  - intros j Hj.
    assert (Hall : forallb (fun j => negb (grounded (stateAt defaultSpecs
                      (@calculateLaunchVector taylorMath defaultSpecs) j))) (seq 1 197) = true)
      by (vm_compute; reflexivity).
    rewrite forallb_forall in Hall. apply negb_true_iff, Hall, in_seq. lia.
  - apply Hrange. lia.
Defined.

(** * Binary64 rounding

    The remaining properties need the arithmetic of the numbers themselves.
    A finite number is measured by its value in units of [2^-1074], an
    integer; rounding to nearest, ties to even, is then a function on
    integers, and the operations of [SpecFloat] are related to it. *)

Section BinaryRounding.
Local Open Scope Z_scope.

(** The number of binary digits of a positive mantissa. *)
Lemma digits2_pos_bounds (p : positive) :
  2 ^ (Zpos (digits2_pos p) - 1) <= Zpos p < 2 ^ Zpos (digits2_pos p).
Proof.
  induction p as [p IH|p IH|]; cbn [digits2_pos].
  - rewrite Pos2Z.inj_succ.
    replace (Z.succ (Zpos (digits2_pos p)) - 1) with (Z.succ (Zpos (digits2_pos p) - 1)) by lia.
    rewrite !Z.pow_succ_r by lia. lia.
  - rewrite Pos2Z.inj_succ.
    replace (Z.succ (Zpos (digits2_pos p)) - 1) with (Z.succ (Zpos (digits2_pos p) - 1)) by lia.
    rewrite !Z.pow_succ_r by lia. lia.
  - cbn. lia.
Qed.

Lemma digits2_pos_log2 (p : positive) : Zpos (digits2_pos p) = Z.log2 (Zpos p) + 1.
Proof.
  pose proof (digits2_pos_bounds p) as [Hlo Hhi].
  symmetry. replace (Zpos (digits2_pos p)) with (Z.succ (Zpos (digits2_pos p) - 1)) in Hhi |- * by lia.
  rewrite (Z.log2_unique (Zpos p) (Zpos (digits2_pos p) - 1)); lia.
Qed.

Lemma iter_pos_nat {A : Type} (f : A -> A) (p : positive) (a : A) :
  SpecFloat.iter_pos f p a = Nat.iter (Pos.to_nat p) f a.
Proof.
  revert a; induction p as [p IH|p IH|]; intros a; cbn [SpecFloat.iter_pos].
  - rewrite !IH, Pos2Nat.inj_xI, <- Nat.iter_add.
    replace (S (2 * Pos.to_nat p))%nat with (S (Pos.to_nat p + Pos.to_nat p))%nat by lia.
    now rewrite Nat.iter_succ_r.
  - rewrite !IH, Pos2Nat.inj_xO, <- Nat.iter_add.
    now replace (2 * Pos.to_nat p)%nat with (Pos.to_nat p + Pos.to_nat p)%nat by lia.
  - reflexivity.
Qed.

(** The record after [n] right shifts of [M]: quotient, and the position of
    the remainder with respect to one half. *)
Definition shr_inv (M P : Z) (r : shr_record) : Prop :=
  0 <= shr_m r /\
  0 <= M - shr_m r * P < P /\
  (shr_r r = true <-> P <= 2 * (M - shr_m r * P)) /\
  (shr_s r = true <-> (M - shr_m r * P <> 0 /\ 2 * (M - shr_m r * P) <> P)).

Lemma shr_inv_0 (M : Z) : 0 <= M -> shr_inv M 1 (Build_shr_record M false false).
Proof.
  intros HM. unfold shr_inv. cbn [shr_m shr_r shr_s].
  replace (M - M * 1) with 0 by lia. intuition (try discriminate; try lia).
Qed.

Lemma shr_inv_S (M P : Z) (r : shr_record) :
  0 < P -> shr_inv M P r -> shr_inv M (2 * P) (shr_1 r).
Proof.
  intros HP. destruct r as [m r s]. unfold shr_inv. cbn [shr_m shr_r shr_s].
  intros (Hm & Hrho & Hr & Hs).
  destruct m as [|[p|p|]|p]; try lia; cbn [shr_1 shr_m shr_r shr_s];
    destruct r, s; cbn [orb]; intuition (try discriminate; try lia).
Qed.

Lemma shr_inv_iter (M : Z) (n : nat) :
  0 <= M -> shr_inv M (2 ^ Z.of_nat n) (Nat.iter n shr_1 (Build_shr_record M false false)).
Proof.
  intros HM. induction n as [|n IH].
  - now apply shr_inv_0.
  - rewrite Nat2Z.inj_succ, Z.pow_succ_r by lia. cbn [Nat.iter nat_rect].
    apply shr_inv_S; [|exact IH]. apply Z.pow_pos_nonneg; lia.
Qed.

Lemma shr_spec (M e k : Z) :
  0 <= M -> 0 <= k ->
  exists r, shr (Build_shr_record M false false) e k = (r, e + k) /\ shr_inv M (2 ^ k) r.
Proof.
  intros HM Hk. destruct k as [|k|k]; [| |lia].
  - exists (Build_shr_record M false false). rewrite Z.add_0_r. split; [reflexivity|].
    now apply shr_inv_0.
  - exists (SpecFloat.iter_pos shr_1 k (Build_shr_record M false false)).
    split; [reflexivity|]. rewrite iter_pos_nat, <- (positive_nat_Z k).
    now apply shr_inv_iter.
Qed.

(** Rounding [M / P] to the nearest integer, ties to even. *)
Definition rnd (M P : Z) : Z :=
  let q := M / P in
  let rho := M mod P in
  if 2 * rho <? P then q
  else if (2 * rho =? P) && Z.even q then q
  else q + 1.

Lemma shr_inv_div_mod (M P : Z) (r : shr_record) :
  0 < P -> shr_inv M P r -> M / P = shr_m r /\ M mod P = M - shr_m r * P.
Proof.
  intros HP (Hm & Hrho & _).
  assert (Hq : M / P = shr_m r).
  { symmetry. apply (Z.div_unique M P (shr_m r) (M - shr_m r * P)); lia. }
  split; [exact Hq|]. rewrite Z.mod_eq, Hq by lia. lia.
Qed.

Lemma round_nearest_even_rnd (M P : Z) (r : shr_record) :
  0 < P -> shr_inv M P r ->
  round_nearest_even (shr_m r) (loc_of_shr_record r) = rnd M P.
Proof.
  intros HP Hinv. destruct (shr_inv_div_mod M P r HP Hinv) as [Hq Hrho].
  unfold rnd. cbv zeta. rewrite Hq, Hrho.
  destruct Hinv as (Hm & Hb & Hr & Hs). destruct r as [m r s].
  cbn [shr_m shr_r shr_s] in *.
  destruct r, s; cbn [loc_of_shr_record round_nearest_even].
  - (* Gt *)
    destruct (Z.ltb_spec (2 * (M - m * P)) P); [intuition lia|].
    destruct (Z.eqb_spec (2 * (M - m * P)) P); [intuition lia|]. reflexivity.
  - (* Eq *)
    destruct (Z.ltb_spec (2 * (M - m * P)) P); [intuition lia|].
    destruct (Z.eqb_spec (2 * (M - m * P)) P).
    + cbn [andb]. reflexivity.
    + assert (M - m * P = 0) by (destruct (Z.eq_dec (M - m * P) 0); intuition (try discriminate; try lia)).
      intuition lia.
  - (* Lt *)
    destruct (Z.ltb_spec (2 * (M - m * P)) P); [reflexivity|].
    intuition (try discriminate; try lia).
  - (* Exact *)
    destruct (Z.ltb_spec (2 * (M - m * P)) P); [reflexivity|].
    intuition (try discriminate; try lia).
Qed.

Lemma rnd_bounds (M P : Z) : M / P <= rnd M P <= M / P + 1.
Proof.
  unfold rnd. cbv zeta.
  destruct (2 * (M mod P) <? P); [lia|].
  destruct ((2 * (M mod P) =? P) && Z.even (M / P)); lia.
Qed.

Lemma rnd_exact (M P : Z) : 0 < P -> M mod P = 0 -> rnd M P = M / P.
Proof.
  intros HP H0. unfold rnd. cbv zeta. rewrite H0.
  destruct (Z.ltb_spec (2 * 0) P); [reflexivity | lia].
Qed.

Lemma rnd_mono (M1 M2 P : Z) : 0 < P -> M1 <= M2 -> rnd M1 P <= rnd M2 P.
Proof.
  intros HP HM.
  pose proof (Z.div_le_mono M1 M2 P HP HM) as Hq.
  destruct (Z.eq_dec (M1 / P) (M2 / P)) as [E|N].
  - pose proof (Z.div_mod M1 P ltac:(lia)) as D1.
    pose proof (Z.div_mod M2 P ltac:(lia)) as D2.
    assert (Hrho : M1 mod P <= M2 mod P) by (rewrite E in D1; nia).
    unfold rnd. cbv zeta. rewrite E.
    destruct (Z.ltb_spec (2 * (M1 mod P)) P), (Z.ltb_spec (2 * (M2 mod P)) P); try lia.
    + destruct ((2 * (M2 mod P) =? P) && Z.even (M2 / P)); lia.
    + destruct (Z.eqb_spec (2 * (M1 mod P)) P), (Z.eqb_spec (2 * (M2 mod P)) P);
        cbn [andb]; try lia; destruct (Z.even (M2 / P)); lia.
  - pose proof (rnd_bounds M1 P). pose proof (rnd_bounds M2 P). lia.
Qed.

(** Rounding never crosses a multiple of the unit. *)
Lemma rnd_le_multiple (M P T : Z) : 0 < P -> M <= T * P -> rnd M P <= T.
Proof.
  intros HP HM.
  pose proof (Z.div_mod M P ltac:(lia)) as D.
  pose proof (Z.mod_pos_bound M P HP) as B.
  destruct (Z.eq_dec (M / P) T) as [E|N].
  - assert (M mod P = 0) by nia. rewrite rnd_exact; lia.
  - assert (M / P < T) by nia. pose proof (rnd_bounds M P). lia.
Qed.

Lemma rnd_ge_multiple (M P T : Z) : 0 < P -> T * P <= M -> T <= rnd M P.
Proof.
  intros HP HM.
  pose proof (Z.div_mod M P ltac:(lia)) as D.
  pose proof (Z.mod_pos_bound M P HP) as B.
  assert (T <= M / P) by nia. pose proof (rnd_bounds M P). lia.
Qed.

Lemma rnd_error (M P : Z) :
  0 < P -> 2 * rnd M P * P <= 2 * M + P /\ 2 * M <= 2 * rnd M P * P + P.
Proof.
  intros HP.
  pose proof (Z.div_mod M P ltac:(lia)) as D.
  pose proof (Z.mod_pos_bound M P HP) as B.
  unfold rnd. cbv zeta.
  destruct (Z.ltb_spec (2 * (M mod P)) P); [nia|].
  destruct (Z.eqb_spec (2 * (M mod P)) P); cbn [andb];
    [destruct (Z.even (M / P))|]; nia.
Qed.

(** The exponent of the format for binary64: 53 bits of precision, and no
    exponent below -1074. *)
Lemma fexp_eq (e : Z) : fexp prec emax e = Z.max (e - 53) (-1074).
Proof. reflexivity. Qed.

(** The second half of [binary_round_aux]: renormalise after a carry, detect
    zero and overflow. *)
Definition finish (sx : bool) (q c : Z) : spec_float :=
  let '(mrs, e) := shr_fexp prec emax q c loc_Exact in
  match shr_m mrs with
  | Z0 => S754_zero sx
  | Zpos m => if e <=? emax - prec then S754_finite sx m e else S754_infinity sx
  | Zneg _ => S754_nan
  end.

Lemma binary_round_aux_exact (sx : bool) (M : positive) (E : Z) :
  let c := fexp prec emax (Zpos (digits2_pos M) + E) in
  E <= c ->
  binary_round_aux prec emax sx (Zpos M) E loc_Exact
    = finish sx (rnd (Zpos M) (2 ^ (c - E))) c.
Proof.
  intros c Hc. unfold binary_round_aux.
  unfold shr_fexp at 1. cbn [Zdigits2 shr_record_of_loc]. fold c.
  destruct (shr_spec (Zpos M) E (c - E)) as (r & Hshr & Hinv); [lia|lia|].
  rewrite Hshr. replace (E + (c - E)) with c by lia.
  rewrite (round_nearest_even_rnd (Zpos M) (2 ^ (c - E)) r);
    [reflexivity | apply Z.pow_pos_nonneg; lia | exact Hinv].
Qed.

Lemma Zdigits2_bounds (q : Z) :
  0 < q -> 2 ^ (Zdigits2 q - 1) <= q < 2 ^ Zdigits2 q.
Proof. destruct q as [|p|p]; try lia. intros _. apply digits2_pos_bounds. Qed.

Lemma Zdigits2_unique (q d : Z) : 2 ^ (d - 1) <= q < 2 ^ d -> 0 < q -> Zdigits2 q = d.
Proof.
  intros [Hlo Hhi] Hq. pose proof (Zdigits2_bounds q Hq) as [Blo Bhi].
  assert (0 < d).
  { destruct (Z.ltb_spec 0 d); [lia|]. rewrite (Z.pow_neg_r 2 (d - 1)) in Hlo by lia.
    destruct (Z.eq_dec d 0) as [->|]; [cbn in Hhi; lia|].
    rewrite (Z.pow_neg_r 2 d) in Hhi by lia. lia. }
  assert (0 < Zdigits2 q) by (destruct q; cbn; lia).
  destruct (Z.lt_trichotomy (Zdigits2 q) d) as [L|[E|G]]; [|exact E|].
  - assert (2 ^ Zdigits2 q <= 2 ^ (d - 1)) by (apply Z.pow_le_mono_r; lia). lia.
  - assert (2 ^ d <= 2 ^ (Zdigits2 q - 1)) by (apply Z.pow_le_mono_r; lia). lia.
Qed.

Lemma Zdigits2_le (q d : Z) : 0 <= d -> 0 <= q < 2 ^ d -> Zdigits2 q <= d.
Proof.
  intros Hd [Hq Hhi]. destruct (Z.eq_dec q 0) as [->|N]; [cbn; lia|].
  pose proof (Zdigits2_bounds q ltac:(lia)) as [Blo Bhi].
  destruct (Z.le_gt_cases (Zdigits2 q) d) as [L|G]; [exact L|].
  assert (2 ^ d <= 2 ^ (Zdigits2 q - 1)) by (apply Z.pow_le_mono_r; lia). lia.
Qed.

(** What [finish] returns on a rounded mantissa [q] at the exponent [c]. *)
Lemma finish_zero (sx : bool) (c : Z) : -1074 <= c -> finish sx 0 c = S754_zero sx.
Proof.
  intros Hc. unfold finish, shr_fexp. cbn [Zdigits2 shr_record_of_loc]. rewrite fexp_eq.
  unfold shr. destruct (Z.max (0 + c - 53) (-1074) - c) eqn:E; try reflexivity. lia.
Qed.

Lemma finish_no_carry (sx : bool) (q c : Z) :
  0 < q < 2 ^ 53 -> -1074 <= c -> (c = -1074 \/ 2 ^ 52 <= q) ->
  finish sx q c
    = if c <=? emax - prec then S754_finite sx (Z.to_pos q) c else S754_infinity sx.
Proof.
  intros Hq Hc Hnorm. unfold finish, shr_fexp. rewrite fexp_eq.
  assert (Hd : Zdigits2 q <= 53) by (apply Zdigits2_le; lia).
  assert (Hs : Z.max (Zdigits2 q + c - 53) (-1074) - c = 0).
  { destruct Hnorm as [-> | Hn]; [lia|].
    rewrite (Zdigits2_unique q 53); [lia | change (53 - 1) with 52; lia | lia]. }
  rewrite Hs. cbn [shr]. destruct q as [|p|p]; try lia. reflexivity.
Qed.

Lemma finish_carry (sx : bool) (c : Z) :
  -1074 <= c ->
  finish sx (2 ^ 53) c
    = if c + 1 <=? emax - prec then S754_finite sx (Z.to_pos (2 ^ 52)) (c + 1)
      else S754_infinity sx.
Proof.
  intros Hc. unfold finish, shr_fexp. rewrite fexp_eq.
  change (Zdigits2 (2 ^ 53)) with 54.
  replace (Z.max (54 + c - 53) (-1074) - c) with 1 by lia.
  reflexivity.
Qed.

(** The rounded mantissa is within the format. *)
Lemma rnd_in_format (M : positive) (E : Z) :
  let c := fexp prec emax (Zpos (digits2_pos M) + E) in
  E <= c ->
  0 <= rnd (Zpos M) (2 ^ (c - E)) <= 2 ^ 53 /\
  (c = -1074 \/ 2 ^ 52 <= rnd (Zpos M) (2 ^ (c - E))).
Proof.
  intros c Hc. subst c. rewrite fexp_eq in *.
  pose proof (digits2_pos_bounds M) as [Hlo Hhi].
  set (d := Zpos (digits2_pos M)) in *.
  set (c := Z.max (d + E - 53) (-1074)) in *.
  assert (HP : 0 < 2 ^ (c - E)) by (apply Z.pow_pos_nonneg; lia).
  assert (H0 : 0 <= rnd (Zpos M) (2 ^ (c - E))).
  { pose proof (rnd_bounds (Zpos M) (2 ^ (c - E))).
    pose proof (Z.div_pos (Zpos M) (2 ^ (c - E)) ltac:(lia) HP). lia. }
  destruct (Z.le_gt_cases (-1074) (d + E - 53)) as [Hn|Hs].
  - (* normal *)
    assert (Ec : c - E = d - 53) by lia. rewrite Ec in *.
    assert (Hd : 2 ^ d = 2 ^ 53 * 2 ^ (d - 53))
      by (rewrite <- Z.pow_add_r by lia; f_equal; lia).
    assert (Hd' : 2 ^ (d - 1) = 2 ^ 52 * 2 ^ (d - 53))
      by (rewrite <- Z.pow_add_r by lia; f_equal; lia).
    split; [split; [exact H0|]|right].
    + apply rnd_le_multiple; lia.
    + apply rnd_ge_multiple; lia.
  - (* subnormal *)
    assert (Ec : c = -1074) by lia.
    split; [split; [exact H0|]|now left].
    apply rnd_le_multiple; [exact HP|].
    assert (2 ^ d <= 2 ^ (53 + (c - E))) by (apply Z.pow_le_mono_r; lia).
    rewrite Z.pow_add_r in H by lia. lia.
Qed.

(** The first magnitude beyond the finite numbers, [2^1024], in units of
    [2^-1074]. *)
Definition overflow : Z := 2 ^ 2098.

Lemma overflow_pos : 0 < overflow.
Proof. reflexivity. Qed.

Lemma below_overflow (m k : Z) : 0 <= m < 2 ^ 53 -> 0 <= k <= 2045 -> m * 2 ^ k < overflow.
Proof.
  intros [Hm0 Hm] [Hk0 Hk].
  assert (E : overflow = 2 ^ 53 * 2 ^ 2045) by reflexivity. rewrite E.
  apply Z.le_lt_trans with (m * 2 ^ 2045).
  - apply Z.mul_le_mono_nonneg_l; [exact Hm0|]. apply Z.pow_le_mono_r; [reflexivity | exact Hk].
  - apply Z.mul_lt_mono_pos_r; [reflexivity | exact Hm].
Qed.

Lemma above_overflow (q k : Z) : 2 ^ 52 <= q -> 2046 <= k -> overflow <= q * 2 ^ k.
Proof.
  intros Hq Hk.
  assert (E : overflow = 2 ^ 52 * 2 ^ 2046) by reflexivity. rewrite E.
  apply Z.mul_le_mono_nonneg; [discriminate | exact Hq | discriminate |].
  apply Z.pow_le_mono_r; [reflexivity | exact Hk].
Qed.

Lemma scaled_below_overflow (n : Z) : n < 2 ^ 1024 -> n * 2 ^ 1074 < overflow.
Proof.
  intros Hn. assert (E : overflow = 2 ^ 1024 * 2 ^ 1074) by reflexivity. rewrite E.
  apply Z.mul_lt_mono_pos_r; [reflexivity | exact Hn].
Qed.

(** [represents u s R]: [u] is the binary64 number of sign [s] whose
    magnitude, in units of 2^-1074, is [R]; the infinity when [R] is beyond
    the largest finite number. *)
Definition represents (u : spec_float) (s : bool) (R : Z) : Prop :=
  (overflow <= R /\ u = S754_infinity s) \/
  (R < overflow /\
   exists m e, u = S754_finite s m e /\ valid_binary u = true /\
               Zpos m * 2 ^ (e + 1074) = R).

Lemma valid_binary_finite (s : bool) (m : positive) (e : Z) :
  valid_binary (S754_finite s m e) = true <->
  (e = Z.max (Zpos (digits2_pos m) + e - 53) (-1074) /\ e <= 971).
Proof.
  cbn [SpecFloat.valid_binary]. unfold bounded, canonical_mantissa.
  rewrite andb_true_iff, Z.eqb_eq, Z.leb_le, fexp_eq.
  change (emax - prec) with 971. intuition lia.
Qed.

Lemma finish_represents (sx : bool) (q c : Z) :
  0 < q <= 2 ^ 53 -> -1074 <= c -> (c = -1074 \/ 2 ^ 52 <= q) ->
  represents (finish sx q c) sx (q * 2 ^ (c + 1074)).
Proof.
  intros Hq Hc Hnorm. change (emax - prec) with 971 in *.
  assert (Hpow : forall a b, 0 <= a -> 0 <= b -> 2 ^ (a + b) = 2 ^ a * 2 ^ b)
    by (intros; apply Z.pow_add_r; lia).
  destruct (Z.eq_dec q (2 ^ 53)) as [->|Hne].
  - rewrite finish_carry by lia. change (emax - prec) with 971.
    replace (2 ^ 53 * 2 ^ (c + 1074)) with (2 ^ (c + 1127))
      by (rewrite <- Z.pow_add_r by lia; f_equal; lia).
    destruct (Z.leb_spec (c + 1) 971) as [Hle|Hgt].
    + right. split; [unfold overflow; apply Z.pow_lt_mono_r; lia|].
      exists (Z.to_pos (2 ^ 52)), (c + 1). split; [reflexivity|]. split.
      * apply valid_binary_finite. change (Zpos (digits2_pos (Z.to_pos (2 ^ 52)))) with 53. lia.
      * change (Zpos (Z.to_pos (2 ^ 52))) with (2 ^ 52).
        rewrite <- Z.pow_add_r by lia. f_equal; lia.
    + left. split; [unfold overflow; apply Z.pow_le_mono_r; lia | reflexivity].
  - rewrite finish_no_carry by lia. change (emax - prec) with 971.
    assert (Hd : Zdigits2 q <= 53) by (apply Zdigits2_le; lia).
    destruct (Z.leb_spec c 971) as [Hle|Hgt].
    + right. split.
      * apply below_overflow; lia.
      * exists (Z.to_pos q), c. split; [reflexivity|]. split.
        -- apply valid_binary_finite. split; [|exact Hle].
           destruct q as [|p|p]; try lia. cbn [Z.to_pos]. cbn [Zdigits2] in Hd.
           destruct Hnorm as [-> | Hn]; [lia|].
           change (Zpos (digits2_pos p)) with (Zdigits2 (Zpos p)).
           rewrite (Zdigits2_unique (Zpos p) 53); [lia | change (53 - 1) with 52; lia | lia].
        -- rewrite Z2Pos.id by lia. reflexivity.
    + left. split; [|reflexivity].
      destruct Hnorm as [-> | Hn]; [lia|].
      apply above_overflow; lia.
Qed.

Lemma rnd_scale (M P A : Z) : 0 < P -> 0 < A -> rnd (M * A) (P * A) = rnd M P.
Proof.
  intros HP HA. unfold rnd. cbv zeta.
  rewrite Z.div_mul_cancel_r, Z.mul_mod_distr_r by lia.
  replace (2 * (M mod P * A)) with ((2 * (M mod P)) * A) by lia.
  destruct (Z.ltb_spec (2 * (M mod P)) P), (Z.ltb_spec (2 * (M mod P) * A) (P * A));
    try nia; try reflexivity.
  destruct (Z.eqb_spec (2 * (M mod P)) P), (Z.eqb_spec (2 * (M mod P) * A) (P * A));
    try nia; reflexivity.
Qed.

Lemma rnd_one (M : Z) : rnd M 1 = M.
Proof. rewrite rnd_exact by (try lia; apply Z.mod_1_r). apply Z.div_1_r. Qed.

Lemma Pos_iter_xO (m p : positive) : Zpos (Pos.iter xO m p) = Zpos m * 2 ^ Zpos p.
Proof.
  rewrite <- Z.shiftl_mul_pow2 by lia. cbn [Z.shiftl].
  apply (Pos.iter_swap_gen _ _ Zpos xO (Z.mul 2)). reflexivity.
Qed.

(** The number of binary digits of a positive integer. *)
Definition digits (S : Z) : Z := Z.log2 S + 1.

Lemma digits_pos (p : positive) : Zpos (digits2_pos p) = digits (Zpos p).
Proof. apply digits2_pos_log2. Qed.

Lemma digits_mul_pow2 (M j : Z) : 0 < M -> 0 <= j -> digits (M * 2 ^ j) = digits M + j.
Proof. intros. unfold digits. rewrite Z.log2_mul_pow2 by lia. lia. Qed.

Lemma digits_bounds (S : Z) : 0 < S -> 2 ^ (digits S - 1) <= S < 2 ^ digits S.
Proof.
  intros HS. unfold digits. replace (Z.log2 S + 1 - 1) with (Z.log2 S) by lia.
  replace (Z.log2 S + 1) with (Z.succ (Z.log2 S)) by lia. now apply Z.log2_spec.
Qed.

Lemma digits_ge_1 (S : Z) : 0 < S -> 1 <= digits S.
Proof. intros. unfold digits. pose proof (Z.log2_nonneg S). lia. Qed.

Lemma digits_mono (S1 S2 : Z) : 0 < S1 <= S2 -> digits S1 <= digits S2.
Proof. intros. unfold digits. pose proof (Z.log2_le_mono S1 S2). lia. Qed.

(** Rounding to 53 significant bits on the grid of the integers (the
    multiples of 2^-1074): the shift and the rounded value. *)
Definition roundShift (S : Z) : Z := Z.max (digits S - 53) 0.
Definition roundV (S : Z) : Z := rnd S (2 ^ roundShift S) * 2 ^ roundShift S.

Lemma binary_round_represents (sx : bool) (M : positive) (E : Z) :
  -1074 <= E ->
  represents (binary_round prec emax sx M E) sx (roundV (Zpos M * 2 ^ (E + 1074))).
Proof.
  intros HE. unfold binary_round.
  pose proof (digits2_pos_bounds M) as [Hlo Hhi].
  set (d := Zpos (digits2_pos M)) in *.
  set (c := fexp prec emax (d + E)).
  assert (Hc : c = Z.max (d + E - 53) (-1074)) by reflexivity.
  assert (Hd1 : 1 <= d) by (subst d; lia).
  set (S := Zpos M * 2 ^ (E + 1074)).
  assert (HS : 0 < S) by (subst S; apply Z.mul_pos_pos; [lia | apply Z.pow_pos_nonneg; lia]).
  assert (HdS : digits S = d + E + 1074).
  { subst S. rewrite digits_mul_pow2 by lia. rewrite <- digits_pos. fold d. lia. }
  assert (Hk : roundShift S = c + 1074) by (unfold roundShift; lia).
  unfold roundV. rewrite Hk.
  destruct (Z.le_gt_cases c E) as [Hle | Hgt].
  - (* the mantissa is shifted left: the value is representable *)
    set (M' := Zpos M * 2 ^ (E - c)).
    assert (HM' : 0 < M') by (subst M'; apply Z.mul_pos_pos; [lia | apply Z.pow_pos_nonneg; lia]).
    assert (Hal : shl_align M E c = (Z.to_pos M', c)).
    { unfold shl_align. destruct (c - E) as [|p|p] eqn:Ep; [|lia|].
      - assert (E = c) by lia. subst M'. replace (E - c) with 0 by lia.
        rewrite Z.mul_1_r. cbn [Z.to_pos]. now f_equal.
      - f_equal. apply Pos2Z.inj. rewrite Pos_iter_xO, Z2Pos.id by lia.
        subst M'. do 2 f_equal. lia. }
    assert (HSM : S = M' * 2 ^ (c + 1074)).
    { subst S M'. rewrite <- Z.mul_assoc, <- Z.pow_add_r by lia. do 2 f_equal. lia. }
    assert (HdM' : digits M' = d + E - c).
    { subst M'. rewrite digits_mul_pow2 by lia. rewrite <- digits_pos. fold d. lia. }
    assert (Hrnd : rnd S (2 ^ (c + 1074)) = M').
    { rewrite HSM. rewrite <- (Z.mul_1_l (2 ^ (c + 1074))) at 2.
      rewrite rnd_scale by (try lia; apply Z.pow_pos_nonneg; lia). apply rnd_one. }
    rewrite Hrnd.
    assert (Hfin : binary_round_aux prec emax sx (Zpos (Z.to_pos M')) c loc_Exact
                   = finish sx M' c).
    { pose proof (binary_round_aux_exact sx (Z.to_pos M') c) as Hb. cbv zeta in Hb.
      rewrite digits_pos, Z2Pos.id, HdM' in Hb by lia.
      replace (d + E - c + c) with (d + E) in Hb by lia. fold c in Hb.
      rewrite (Z2Pos.id M') by lia.
      rewrite Hb by lia. rewrite Z.sub_diag. change (2 ^ 0) with 1. now rewrite rnd_one. }
    assert (Hrep : represents (finish sx M' c) sx (M' * 2 ^ (c + 1074))).
    { apply finish_represents; [|lia|].
      - pose proof (digits_bounds M' HM') as [_ B].
        assert (2 ^ digits M' <= 2 ^ 53) by (apply Z.pow_le_mono_r; lia). lia.
      - destruct (Z.eq_dec c (-1074)) as [->|Hn]; [now left | right].
        pose proof (digits_bounds M' HM') as [B _].
        replace (digits M' - 1) with 52 in B by lia. exact B. }
    rewrite Hal, Hfin. exact Hrep.
  - (* the mantissa is shifted right and rounded *)
    assert (Hal : shl_align M E c = (M, E)).
    { unfold shl_align. destruct (c - E) as [|p|p] eqn:Ep; try reflexivity. lia. }
    rewrite Hal.
    pose proof (binary_round_aux_exact sx M E) as Hb. cbv zeta in Hb.
    change (fexp prec emax (Zpos (digits2_pos M) + E)) with c in Hb.
    rewrite (Hb (Z.lt_le_incl _ _ Hgt)).
    pose proof (rnd_in_format M E) as Hf. cbv zeta in Hf.
    change (fexp prec emax (Zpos (digits2_pos M) + E)) with c in Hf.
    specialize (Hf (Z.lt_le_incl _ _ Hgt)). destruct Hf as [Hr Hn].
    assert (Hq : rnd S (2 ^ (c + 1074)) = rnd (Zpos M) (2 ^ (c - E))).
    { subst S. replace (c + 1074) with ((c - E) + (E + 1074)) by lia.
      rewrite (Z.pow_add_r 2 (c - E) (E + 1074)) by lia.
      apply rnd_scale; apply Z.pow_pos_nonneg; lia. }
    rewrite Hq. apply finish_represents; [|lia|exact Hn].
    destruct Hn as [Hn|Hn]; lia.
Qed.

Lemma roundShift_nonneg (S : Z) : 0 <= roundShift S.
Proof. unfold roundShift. lia. Qed.

Lemma pow_roundShift_pos (S : Z) : 0 < 2 ^ roundShift S.
Proof. apply Z.pow_pos_nonneg; [lia | apply roundShift_nonneg]. Qed.

(** The power of two below [S], on the grid of [S]. *)
Lemma roundV_ge_pow2 (S : Z) : 0 < S -> 2 ^ (digits S - 1) <= roundV S.
Proof.
  intros HS. pose proof (digits_bounds S HS) as [Hlo Hhi].
  pose proof (digits_ge_1 S HS) as Hd. pose proof (pow_roundShift_pos S) as HP.
  unfold roundV.
  assert (Hsplit : 2 ^ (digits S - 1) = 2 ^ (digits S - 1 - roundShift S) * 2 ^ roundShift S).
  { rewrite <- Z.pow_add_r by (unfold roundShift; lia). f_equal. lia. }
  rewrite Hsplit. apply Z.mul_le_mono_nonneg_r; [lia|].
  apply rnd_ge_multiple; lia.
Qed.

Lemma roundV_le_pow2 (S : Z) : 0 < S -> roundV S <= 2 ^ digits S.
Proof.
  intros HS. pose proof (digits_bounds S HS) as [Hlo Hhi].
  pose proof (digits_ge_1 S HS) as Hd. pose proof (pow_roundShift_pos S) as HP.
  unfold roundV.
  assert (Hsplit : 2 ^ digits S = 2 ^ (digits S - roundShift S) * 2 ^ roundShift S).
  { rewrite <- Z.pow_add_r by (unfold roundShift; lia). f_equal. lia. }
  rewrite Hsplit. apply Z.mul_le_mono_nonneg_r; [lia|].
  apply rnd_le_multiple; lia.
Qed.

Lemma roundV_pos (S : Z) : 0 < S -> 0 < roundV S.
Proof.
  intros HS. pose proof (roundV_ge_pow2 S HS).
  assert (0 < 2 ^ (digits S - 1)); [|lia].
  apply Z.pow_pos_nonneg; [lia|]. pose proof (digits_ge_1 S HS). lia.
Qed.

Lemma roundV_mono (S1 S2 : Z) : 0 < S1 <= S2 -> roundV S1 <= roundV S2.
Proof.
  intros [H1 H12].
  pose proof (digits_mono S1 S2 (conj H1 H12)) as Hd.
  destruct (Z.eq_dec (roundShift S1) (roundShift S2)) as [E|N].
  - unfold roundV. rewrite E. apply Z.mul_le_mono_nonneg_r.
    + pose proof (pow_roundShift_pos S2). lia.
    + apply rnd_mono; [apply pow_roundShift_pos | exact H12].
  - assert (Hlt : digits S1 < digits S2) by (unfold roundShift in N; lia).
    pose proof (roundV_le_pow2 S1 H1). pose proof (roundV_ge_pow2 S2 ltac:(lia)).
    assert (2 ^ digits S1 <= 2 ^ (digits S2 - 1)) by (apply Z.pow_le_mono_r; lia).
    lia.
Qed.

Lemma roundV_exact (m j : Z) : 0 < m < 2 ^ 53 -> 0 <= j -> roundV (m * 2 ^ j) = m * 2 ^ j.
Proof.
  intros Hm Hj. set (S := m * 2 ^ j).
  assert (HS : 0 < S) by (subst S; apply Z.mul_pos_pos; [lia | apply Z.pow_pos_nonneg; lia]).
  assert (Hdm : digits m <= 53).
  { pose proof (digits_bounds m ltac:(lia)) as [B _].
    destruct (Z.le_gt_cases (digits m) 53); [assumption|].
    assert (2 ^ 53 <= 2 ^ (digits m - 1)) by (apply Z.pow_le_mono_r; lia). lia. }
  assert (Hk : roundShift S <= j).
  { unfold roundShift. subst S. rewrite digits_mul_pow2 by lia. lia. }
  pose proof (roundShift_nonneg S) as Hk0. pose proof (pow_roundShift_pos S) as HP.
  assert (HSk : S = (m * 2 ^ (j - roundShift S)) * 2 ^ roundShift S).
  { subst S. rewrite <- Z.mul_assoc, <- Z.pow_add_r by lia. do 2 f_equal. lia. }
  unfold roundV. remember (roundShift S) as k eqn:Ek.
  assert (Hr : rnd S (2 ^ k) = m * 2 ^ (j - k)).
  { rewrite rnd_exact; [|exact HP|].
    - rewrite HSk. apply Z.div_mul. lia.
    - rewrite HSk. apply Z.mod_mul. lia. }
  rewrite Hr. now rewrite <- HSk.
Qed.

Lemma roundV_error (S : Z) :
  0 < S -> 2 * roundV S <= 2 * S + 2 ^ roundShift S /\ 2 * S <= 2 * roundV S + 2 ^ roundShift S.
Proof.
  intros HS. unfold roundV. pose proof (rnd_error S (2 ^ roundShift S) (pow_roundShift_pos S)).
  lia.
Qed.

(** ** Values of finite numbers, in units of 2^-1074 *)

Definition SFval (u : spec_float) : Z :=
  match u with
  | S754_finite s m e => cond_Zopp s (Zpos m * 2 ^ (e + 1074))
  | _ => 0
  end.

Definition finite_or_zero (u : spec_float) : bool :=
  match u with
  | S754_finite _ _ _ | S754_zero _ => true
  | _ => false
  end.

Lemma valid_finite_bounds (s : bool) (m : positive) (e : Z) :
  valid_binary (S754_finite s m e) = true ->
  -1074 <= e <= 971 /\ Zpos m < 2 ^ 53 /\ (e = -1074 \/ 2 ^ 52 <= Zpos m).
Proof.
  rewrite valid_binary_finite. intros [Hc He].
  pose proof (digits2_pos_bounds m) as [Hlo Hhi].
  set (d := Zpos (digits2_pos m)) in *.
  assert (Hd : d <= 53) by lia.
  split; [lia|]. split.
  - assert (2 ^ d <= 2 ^ 53) by (apply Z.pow_le_mono_r; lia). lia.
  - destruct (Z.eq_dec e (-1074)); [now left | right].
    assert (d = 53) by lia. subst d. rewrite H in Hlo. exact Hlo.
Qed.

Lemma valid_finite_val (s : bool) (m : positive) (e : Z) :
  valid_binary (S754_finite s m e) = true ->
  0 < Zpos m * 2 ^ (e + 1074) < overflow.
Proof.
  intros Hv. destruct (valid_finite_bounds s m e Hv) as (He & Hm & _).
  split; [|apply below_overflow; lia].
  apply Z.mul_pos_pos; [reflexivity | apply Z.pow_pos_nonneg; lia].
Qed.

(** On valid positive numbers the order is the order of the values. *)
Lemma SFcompare_pos_val (m1 m2 : positive) (e1 e2 : Z) :
  valid_binary (S754_finite false m1 e1) = true ->
  valid_binary (S754_finite false m2 e2) = true ->
  SFcompare (S754_finite false m1 e1) (S754_finite false m2 e2)
    = Some (Zpos m1 * 2 ^ (e1 + 1074) ?= Zpos m2 * 2 ^ (e2 + 1074)).
Proof.
  intros V1 V2.
  destruct (valid_finite_bounds _ _ _ V1) as (He1 & Hm1 & Hn1).
  destruct (valid_finite_bounds _ _ _ V2) as (He2 & Hm2 & Hn2).
  cbn [SFcompare]. f_equal.
  assert (Hstep : forall a b ma mb, -1074 <= a -> a < b -> Zpos ma < 2 ^ 53 ->
                    2 ^ 52 <= Zpos mb ->
                    Zpos ma * 2 ^ (a + 1074) < Zpos mb * 2 ^ (b + 1074)).
  { intros a b ma mb Ha Hab Hma Hmb.
    replace (b + 1074) with ((b - a - 1) + (a + 1075)) by lia.
    rewrite (Z.pow_add_r 2 (b - a - 1) (a + 1075)) by lia.
    replace (a + 1075) with (Z.succ (a + 1074)) by lia.
    rewrite (Z.pow_succ_r 2 (a + 1074)) by lia.
    assert (0 < 2 ^ (a + 1074)) by (apply Z.pow_pos_nonneg; lia).
    assert (1 <= 2 ^ (b - a - 1)) by (apply (Z.pow_le_mono_r 2 0); lia).
    set (P := 2 ^ (a + 1074)) in *. set (Q := 2 ^ (b - a - 1)) in *.
    assert (A1 : Zpos ma * P < 2 ^ 53 * P) by (apply Z.mul_lt_mono_pos_r; lia).
    assert (A2 : 2 ^ 53 * P <= Zpos mb * (2 * P)).
    { change (2 ^ 53) with (2 ^ 52 * 2). rewrite <- Z.mul_assoc.
      apply Z.mul_le_mono_nonneg_r; lia. }
    assert (A3 : Zpos mb * (2 * P) * 1 <= Zpos mb * (2 * P) * Q)
      by (apply Z.mul_le_mono_nonneg_l; lia).
    lia. }
  destruct (Z.compare_spec e1 e2) as [->|Hlt|Hgt].
  - change (Pos.compare_cont Eq m1 m2) with (Pos.compare m1 m2).
    assert (0 < 2 ^ (e2 + 1074)) by (apply Z.pow_pos_nonneg; lia).
    destruct (Pos.compare_spec m1 m2) as [->|Hlt|Hgt]; symmetry.
    + apply Z.compare_refl.
    + apply Z.compare_lt_iff, Z.mul_lt_mono_pos_r; lia.
    + apply Z.compare_gt_iff, Z.mul_lt_mono_pos_r; lia.
  - symmetry. apply Z.compare_lt_iff. apply Hstep; lia.
  - symmetry. apply Z.compare_gt_iff. apply Hstep; lia.
Qed.

Lemma SFcompare_val (u v : spec_float) :
  finite_or_zero u = true -> finite_or_zero v = true ->
  valid_binary u = true -> valid_binary v = true ->
  SFcompare u v = Some (SFval u ?= SFval v).
Proof.
  destruct u as [su| | |su mu eu], v as [sv| | |sv mv ev]; try discriminate; intros _ _ Vu Vv.
  - reflexivity.
  - pose proof (valid_finite_val _ _ _ Vv) as [Hv _].
    unfold SFcompare, SFval. destruct sv; unfold cond_Zopp; f_equal; symmetry.
    + apply Z.compare_gt_iff. lia.
    + apply Z.compare_lt_iff. lia.
  - pose proof (valid_finite_val _ _ _ Vu) as [Hu _].
    unfold SFcompare, SFval. destruct su; unfold cond_Zopp; f_equal; symmetry.
    + apply Z.compare_lt_iff. lia.
    + apply Z.compare_gt_iff. lia.
  - pose proof (valid_finite_val _ _ _ Vu) as [Hu _].
    pose proof (valid_finite_val _ _ _ Vv) as [Hv _].
    destruct su, sv.
    + change (valid_binary (S754_finite true mu eu)) with (valid_binary (S754_finite false mu eu)) in Vu.
      change (valid_binary (S754_finite true mv ev)) with (valid_binary (S754_finite false mv ev)) in Vv.
      pose proof (SFcompare_pos_val mu mv eu ev Vu Vv) as Hc.
      unfold SFval, cond_Zopp. rewrite Z.compare_opp, Z.compare_antisym.
      remember (Zpos mu * 2 ^ (eu + 1074) ?= Zpos mv * 2 ^ (ev + 1074)) as X eqn:EX.
      unfold SFcompare in Hc |- *. injection Hc as Hc. rewrite <- Hc. f_equal.
      destruct (eu ?= ev); reflexivity.
    + unfold SFcompare, SFval, cond_Zopp. f_equal. symmetry. apply Z.compare_lt_iff. lia.
    + unfold SFcompare, SFval, cond_Zopp. f_equal. symmetry. apply Z.compare_gt_iff. lia.
    + exact (SFcompare_pos_val mu mv eu ev Vu Vv).
Qed.

Lemma SFleb_val (u v : spec_float) :
  finite_or_zero u = true -> finite_or_zero v = true ->
  valid_binary u = true -> valid_binary v = true ->
  SFleb u v = (SFval u <=? SFval v).
Proof.
  intros Fu Fv Vu Vv. unfold SFleb. rewrite (SFcompare_val u v Fu Fv Vu Vv).
  unfold Z.leb. destruct (SFval u ?= SFval v); reflexivity.
Qed.

Lemma SFltb_val (u v : spec_float) :
  finite_or_zero u = true -> finite_or_zero v = true ->
  valid_binary u = true -> valid_binary v = true ->
  SFltb u v = (SFval u <? SFval v).
Proof.
  intros Fu Fv Vu Vv. unfold SFltb. rewrite (SFcompare_val u v Fu Fv Vu Vv).
  unfold Z.ltb. destruct (SFval u ?= SFval v); reflexivity.
Qed.

(** [represented u R]: [u] is the binary64 number (a zero, a finite number or
    an infinity) whose signed magnitude was [R] before the overflow test. *)
Definition represented (u : spec_float) (R : Z) : Prop :=
  (R = 0 /\ exists s, u = S754_zero s) \/
  (0 < R /\ represents u false R) \/
  (R < 0 /\ represents u true (- R)).

Lemma represented_le (u1 u2 : spec_float) (R1 R2 : Z) :
  represented u1 R1 -> represented u2 R2 -> R1 <= R2 -> SFleb u1 u2 = true.
Proof.
  intros H1 H2 HR.
  assert (Hfin : forall u s R, R < overflow ->
            (exists m e, u = S754_finite s m e /\ valid_binary u = true /\
                         Zpos m * 2 ^ (e + 1074) = R) ->
            finite_or_zero u = true /\ valid_binary u = true /\ SFval u = cond_Zopp s R).
  { intros u s R _ (m & e & -> & Hv & <-). repeat split; assumption. }
  assert (Hz : forall s, finite_or_zero (S754_zero s) = true /\
                         valid_binary (S754_zero s) = true /\ SFval (S754_zero s) = 0)
    by (intros; repeat split).
  destruct H1 as [[-> [s1 ->]] | [[P1 [[B1 ->] | [B1 F1]]] | [P1 [[B1 ->] | [B1 F1]]]]];
  destruct H2 as [[-> [s2 ->]] | [[P2 [[B2 ->] | [B2 F2]]] | [P2 [[B2 ->] | [B2 F2]]]]];
    try lia; try reflexivity;
    try (apply (Hfin _ _ _ B1) in F1; destruct F1 as (Fa & Va & Ea));
    try (apply (Hfin _ _ _ B2) in F2; destruct F2 as (Fb & Vb & Eb));
    try (destruct u1 as [| | |[|] ? ?]; try discriminate; reflexivity);
    try (destruct u2 as [| | |[|] ? ?]; try discriminate; reflexivity);
    try (rewrite SFleb_val by (try assumption; reflexivity);
         try rewrite Ea; try rewrite Eb; unfold SFval, cond_Zopp; apply Z.leb_le; lia).
Qed.

Lemma represented_finite (u : spec_float) (R : Z) :
  represented u R -> Z.abs R < overflow ->
  finite_or_zero u = true /\ valid_binary u = true /\ SFval u = R.
Proof.
  intros [[-> [s ->]] | [[P [[B ->] | [B (m & e & -> & Hv & <-)]]]
                        | [P [[B ->] | [B (m & e & -> & Hv & E)]]]]] HR;
    try lia; repeat split; try assumption.
  unfold SFval, cond_Zopp. lia.
Qed.

Lemma finite_val_abs (u : spec_float) :
  finite_or_zero u = true -> valid_binary u = true -> Z.abs (SFval u) < overflow.
Proof.
  intros F V. destruct u as [s|s| |s m e]; try discriminate.
  - exact overflow_pos.
  - pose proof (valid_finite_val s m e V). unfold SFval, cond_Zopp. destruct s; lia.
Qed.

(** Rounding a signed value. *)
Definition roundVs (S : Z) : Z :=
  if 0 <? S then roundV S else if S <? 0 then - roundV (- S) else 0.

Lemma roundVs_mono (S1 S2 : Z) : S1 <= S2 -> roundVs S1 <= roundVs S2.
Proof.
  intros H. unfold roundVs.
  destruct (Z.ltb_spec 0 S1), (Z.ltb_spec 0 S2); try lia.
  - apply roundV_mono. lia.
  - destruct (Z.ltb_spec S1 0).
    + pose proof (roundV_pos (- S1)). pose proof (roundV_pos S2). lia.
    + pose proof (roundV_pos S2). lia.
  - destruct (Z.ltb_spec S1 0), (Z.ltb_spec S2 0); try lia.
    + pose proof (roundV_mono (- S2) (- S1)). lia.
    + pose proof (roundV_pos (- S1)). lia.
Qed.

Lemma roundVs_exact (u : spec_float) :
  finite_or_zero u = true -> valid_binary u = true -> roundVs (SFval u) = SFval u.
Proof.
  destruct u as [s| | |s m e]; try discriminate; intros _ Hv; [reflexivity|].
  destruct (valid_finite_bounds s m e Hv) as (He & Hm & _).
  pose proof (valid_finite_val s m e Hv) as [Hp _].
  unfold roundVs, SFval. destruct s; unfold cond_Zopp.
  - destruct (Z.ltb_spec 0 (- (Zpos m * 2 ^ (e + 1074)))); [lia|].
    destruct (Z.ltb_spec (- (Zpos m * 2 ^ (e + 1074))) 0); [|lia].
    rewrite Z.opp_involutive, roundV_exact; lia.
  - destruct (Z.ltb_spec 0 (Zpos m * 2 ^ (e + 1074))); [|lia].
    apply roundV_exact; lia.
Qed.

Lemma represented_exact (u : spec_float) :
  finite_or_zero u = true -> valid_binary u = true -> represented u (SFval u).
Proof.
  destruct u as [s| | |s m e]; try discriminate; intros _ Hv.
  - left. split; [reflexivity | now exists s].
  - pose proof (valid_finite_val s m e Hv) as [Hp Hb].
    unfold SFval. destruct s; unfold cond_Zopp; [right; right | right; left];
      (split; [lia|]); right; (split; [lia|]); exists m, e; repeat split; trivial; lia.
Qed.

Lemma shl_align_fst (m : positive) (e e' : Z) :
  e' <= e -> Zpos (fst (shl_align m e e')) = Zpos m * 2 ^ (e - e').
Proof.
  intros H. unfold shl_align. destruct (e' - e) as [|p|p] eqn:E; cbn [fst]; try lia.
  - replace (e - e') with 0 by lia. lia.
  - rewrite Pos_iter_xO. do 2 f_equal. lia.
Qed.

Lemma binary_normalize_represented (M E : Z) :
  -1074 <= E ->
  represented (binary_normalize prec emax M E false) (roundVs (M * 2 ^ (E + 1074))).
Proof.
  intros HE. assert (HP : 0 < 2 ^ (E + 1074)) by (apply Z.pow_pos_nonneg; lia).
  unfold roundVs, binary_normalize. destruct M as [|p|p].
  - left. split; [reflexivity | now exists false].
  - destruct (Z.ltb_spec 0 (Zpos p * 2 ^ (E + 1074))); [|lia].
    right; left. split; [apply roundV_pos; lia|].
    now apply binary_round_represents.
  - destruct (Z.ltb_spec 0 (Zneg p * 2 ^ (E + 1074))); [lia|].
    destruct (Z.ltb_spec (Zneg p * 2 ^ (E + 1074)) 0); [|lia].
    right; right. replace (- (Zneg p * 2 ^ (E + 1074))) with (Zpos p * 2 ^ (E + 1074)) by lia.
    split; [pose proof (roundV_pos (Zpos p * 2 ^ (E + 1074))); lia|].
    rewrite Z.opp_involutive. now apply binary_round_represents.
Qed.

(** The sum of two finite numbers is their exact sum, rounded. *)
Lemma SFadd_represented (u v : spec_float) :
  finite_or_zero u = true -> finite_or_zero v = true ->
  valid_binary u = true -> valid_binary v = true ->
  represented (SF64add u v) (roundVs (SFval u + SFval v)).
Proof.
  intros Fu Fv Vu Vv.
  destruct u as [su| | |su mu eu], v as [sv| | |sv mv ev]; try discriminate.
  - left. split; [reflexivity|]. destruct su, sv; cbn; eauto.
  - rewrite Z.add_0_l, (roundVs_exact (S754_finite sv mv ev)) by assumption.
    now apply (represented_exact (S754_finite sv mv ev)).
  - rewrite Z.add_0_r, (roundVs_exact (S754_finite su mu eu)) by assumption.
    now apply (represented_exact (S754_finite su mu eu)).
  - destruct (valid_finite_bounds su mu eu Vu) as (Heu & _).
    destruct (valid_finite_bounds sv mv ev Vv) as (Hev & _).
    unfold SF64add, SFadd.
    set (ez := Z.min eu ev).
    assert (Hez : -1074 <= ez) by (subst ez; lia).
    assert (HS : SFval (S754_finite su mu eu) + SFval (S754_finite sv mv ev)
                 = (cond_Zopp su (Zpos (fst (shl_align mu eu ez)))
                    + cond_Zopp sv (Zpos (fst (shl_align mv ev ez)))) * 2 ^ (ez + 1074)).
    { rewrite !shl_align_fst by (subst ez; lia). unfold SFval.
      assert (A : forall m e, ez <= e -> Zpos m * 2 ^ (e + 1074)
                                = Zpos m * 2 ^ (e - ez) * 2 ^ (ez + 1074)).
      { intros m e H. rewrite <- Z.mul_assoc, <- Z.pow_add_r by lia. do 2 f_equal. lia. }
      rewrite (A mu eu), (A mv ev) by (subst ez; lia).
      destruct su, sv; unfold cond_Zopp; lia. }
    rewrite HS. now apply binary_normalize_represented.
Qed.

(** Binary64 addition is monotone. *)
Lemma SFadd_mono (a u v : spec_float) :
  finite_or_zero a = true -> finite_or_zero u = true -> finite_or_zero v = true ->
  valid_binary a = true -> valid_binary u = true -> valid_binary v = true ->
  SFleb u v = true -> SFleb (SF64add a u) (SF64add a v) = true.
Proof.
  intros Fa Fu Fv Va Vu Vv Hle. rewrite SFleb_val in Hle by assumption.
  apply Z.leb_le in Hle.
  apply (represented_le _ _ _ _ (SFadd_represented a u Fa Fu Va Vu)
                                 (SFadd_represented a v Fa Fv Va Vv)).
  apply roundVs_mono. lia.
Qed.

Lemma digits_le (S n : Z) : 0 < S < 2 ^ n -> digits S <= n.
Proof.
  intros [H0 Hn]. pose proof (digits_bounds S H0) as [B _].
  destruct (Z.le_gt_cases (digits S) n) as [L|G]; [exact L|].
  assert (0 <= n).
  { destruct (Z.le_gt_cases 0 n); [assumption|]. rewrite Z.pow_neg_r in Hn; lia. }
  assert (2 ^ n <= 2 ^ (digits S - 1)) by (apply Z.pow_le_mono_r; lia). lia.
Qed.

Lemma digits_ge (S n : Z) : 0 <= n -> 2 ^ n <= S -> n + 1 <= digits S.
Proof.
  intros Hn HS. assert (0 < 2 ^ n) by (apply Z.pow_pos_nonneg; lia).
  pose proof (digits_bounds S ltac:(lia)) as [_ B].
  destruct (Z.le_gt_cases (n + 1) (digits S)) as [L|G]; [exact L|].
  assert (2 ^ digits S <= 2 ^ n).
  { pose proof (digits_ge_1 S ltac:(lia)). apply Z.pow_le_mono_r; lia. }
  lia.
Qed.

(** Multiplying a non-negative finite number [v] by a factor of magnitude at
    most 1 yields a number of magnitude at most [v]. *)
Lemma SFmul_contracts (u v : spec_float) :
  finite_or_zero u = true -> finite_or_zero v = true ->
  valid_binary u = true -> valid_binary v = true ->
  Z.abs (SFval u) <= 2 ^ 1074 -> 0 <= SFval v ->
  exists R, represented (SF64mul u v) R /\ Z.abs R <= SFval v.
Proof.
  intros Fu Fv Vu Vv Hu Hv.
  destruct u as [su| | |su mu eu], v as [sv| | |sv mv ev]; try discriminate;
    try solve [exists 0; split; [left; split; [reflexivity|cbn; eauto] | cbn in *; lia]].
  pose proof (valid_finite_val su mu eu Vu) as [Pu _].
  pose proof (valid_finite_val sv mv ev Vv) as [Pv _].
  destruct (valid_finite_bounds su mu eu Vu) as (Heu & Hmu & Hnu).
  destruct (valid_finite_bounds sv mv ev Vv) as (Hev & Hmv & Hnv).
  assert (sv = false) by (destruct sv; [unfold SFval, cond_Zopp in Hv; lia | reflexivity]).
  subst sv. unfold SFval, cond_Zopp in Hv.
  assert (Hu' : Zpos mu * 2 ^ (eu + 1074) <= 2 ^ 1074)
    by (unfold SFval in Hu; destruct su; unfold cond_Zopp in Hu; lia).
  clear Hu.
  assert (Heu0 : eu <= 0).
  { destruct (Z.le_gt_cases eu 0); [assumption|].
    assert (2 ^ 1075 <= 2 ^ (eu + 1074)) by (apply Z.pow_le_mono_r; lia).
    change (2 ^ 1075) with (2 * 2 ^ 1074) in H0.
    assert (1 * 2 ^ (eu + 1074) <= Zpos mu * 2 ^ (eu + 1074))
      by (apply Z.mul_le_mono_nonneg_r; lia).
    lia. }
  assert (Hmu1 : Zpos mu <= 2 ^ (- eu)).
  { assert (E : 2 ^ 1074 = 2 ^ (- eu) * 2 ^ (eu + 1074))
      by (rewrite <- Z.pow_add_r by lia; f_equal; lia).
    rewrite E in Hu'. apply Z.mul_le_mono_pos_r in Hu'; [exact Hu'|].
    apply Z.pow_pos_nonneg; lia. }
  unfold SF64mul, SFmul. rewrite xorb_false_r.
  set (M := (mu * mv)%positive). set (E := eu + ev).
  assert (HM : Zpos M = Zpos mu * Zpos mv) by reflexivity.
  set (c := fexp prec emax (Zpos (digits2_pos M) + E)).
  assert (Hc : c = Z.max (digits (Zpos M) + E - 53) (-1074))
    by (subst c; rewrite fexp_eq, digits_pos; reflexivity).
  assert (Hpe : 0 < 2 ^ (- eu)) by (apply Z.pow_pos_nonneg; lia).
  assert (HMle : Zpos M <= Zpos mv * 2 ^ (- eu)).
  { rewrite HM, (Z.mul_comm (Zpos mu)). apply Z.mul_le_mono_nonneg_l; lia. }
  assert (Hd : digits (Zpos M) <= 53 - eu).
  { apply digits_le. split; [lia|].
    replace (53 - eu) with (53 + - eu) by lia. rewrite Z.pow_add_r by lia.
    assert (Zpos mv * 2 ^ (- eu) < 2 ^ 53 * 2 ^ (- eu))
      by (apply Z.mul_lt_mono_pos_r; lia).
    lia. }
  assert (HcE : E <= c).
  { destruct Hnu as [-> | Hnu]; [destruct Hnv as [-> | Hnv]|].
    - subst E. lia.
    - assert (1 * Zpos mv <= Zpos mu * Zpos mv) by (apply Z.mul_le_mono_nonneg_r; lia).
      assert (53 <= digits (Zpos M)) by (apply (digits_ge _ 52); lia). lia.
    - assert (Zpos mu * 1 <= Zpos mu * Zpos mv) by (apply Z.mul_le_mono_nonneg_l; lia).
      assert (53 <= digits (Zpos M)) by (apply (digits_ge _ 52); lia). lia. }
  assert (Hcv : c <= ev) by (subst E; lia).
  assert (Hc0 : -1074 <= c) by lia.
  pose proof (binary_round_aux_exact su M E) as Hb. cbv zeta in Hb. fold c in Hb.
  rewrite (Hb HcE).
  pose proof (rnd_in_format M E) as Hf. cbv zeta in Hf. fold c in Hf.
  destruct (Hf HcE) as [[Hq0 Hq1] Hn].
  set (q := rnd (Zpos M) (2 ^ (c - E))) in *.
  assert (HqT : q <= Zpos mv * 2 ^ (ev - c)).
  { apply rnd_le_multiple; [apply Z.pow_pos_nonneg; lia|].
    rewrite <- Z.mul_assoc, <- Z.pow_add_r by lia.
    replace (ev - c + (c - E)) with (- eu) by (subst E; lia). exact HMle. }
  assert (HR : q * 2 ^ (c + 1074) <= Zpos mv * 2 ^ (ev + 1074)).
  { replace (ev + 1074) with ((ev - c) + (c + 1074)) by lia.
    rewrite (Z.pow_add_r 2 (ev - c) (c + 1074)), Z.mul_assoc by lia.
    apply Z.mul_le_mono_nonneg_r; [|exact HqT].
    apply Z.lt_le_incl, Z.pow_pos_nonneg; lia. }
  destruct (Z.eq_dec q 0) as [Eq0 | Nq0].
  - rewrite Eq0, finish_zero by lia. exists 0. split; [|unfold SFval, cond_Zopp; lia].
    left. split; [reflexivity | eauto].
  - assert (Hrep : represents (finish su q c) su (q * 2 ^ (c + 1074)))
      by (apply finish_represents; [lia | lia | exact Hn]).
    assert (0 < q * 2 ^ (c + 1074))
      by (apply Z.mul_pos_pos; [lia | apply Z.pow_pos_nonneg; lia]).
    destruct su.
    + exists (- (q * 2 ^ (c + 1074))). split; [|unfold SFval, cond_Zopp; lia].
      right; right. split; [lia|]. now rewrite Z.opp_involutive.
    + exists (q * 2 ^ (c + 1074)). split; [|unfold SFval, cond_Zopp; lia].
      right; left. split; [lia | exact Hrep].
Qed.

Lemma div_eucl_exact (a b q : Z) : 0 < b -> a = q * b -> Z.div_eucl a b = (q, 0).
Proof.
  intros Hb Ha. pose proof (Z_div_mod a b ltac:(lia)) as H.
  destruct (Z.div_eucl a b) as [q' r']. destruct H as [H1 H2].
  assert (q' = q) by nia. subst q'. f_equal. lia.
Qed.

(** Halving a normal number is exact. *)
Lemma SFdiv_two (m : positive) (e : Z) :
  2 ^ 52 <= Zpos m < 2 ^ 53 -> -1072 <= e <= 971 ->
  SF64div (S754_finite false m e) (S754_finite false 4503599627370496 (-51))
    = S754_finite false m (e - 1).
Proof.
  intros Hm He.
  assert (Hd1 : Zdigits2 (Zpos m) = 53)
    by (apply Zdigits2_unique; [change (53 - 1) with 52; lia | lia]).
  unfold SF64div, SFdiv, SFdiv_core_binary. cbv zeta. rewrite Hd1.
  change (Zdigits2 4503599627370496) with 53. rewrite fexp_eq.
  replace (Z.min (Z.max (53 + e - (53 + -51) - 53) (-1074)) (e - -51)) with (e - 2) by lia.
  replace (e - -51 - (e - 2)) with 53 by lia. cbv iota.
  rewrite Z.shiftl_mul_pow2 by lia.
  rewrite (div_eucl_exact _ _ (Zpos m~0)); [|lia|].
  2:{ change (Zpos m~0) with (2 * Zpos m). change 4503599627370496 with (2 ^ 52). change (2 ^ 53) with (2 * 2 ^ 52). lia. }
  change (new_location 4503599627370496 0) with loc_Exact. cbn [xorb].
  pose proof (binary_round_aux_exact false (m~0) (e - 2)) as Hb. cbv zeta in Hb.
  assert (Hd2 : Zpos (digits2_pos m~0) = 54).
  { cbn [digits2_pos]. rewrite Pos2Z.inj_succ. cbn [Zdigits2] in Hd1. lia. }
  rewrite Hd2, fexp_eq in Hb.
  replace (Z.max (54 + (e - 2) - 53) (-1074)) with (e - 1) in Hb by lia.
  rewrite Hb by lia.
  replace (e - 1 - (e - 2)) with 1 by lia. change (2 ^ 1) with 2.
  assert (Hr : rnd (Zpos m~0) 2 = Zpos m).
  { rewrite rnd_exact; [| lia |].
    - change (Zpos m~0) with (2 * Zpos m). rewrite Z.mul_comm. apply Z.div_mul. lia.
    - change (Zpos m~0) with (2 * Zpos m). rewrite Z.mul_comm. apply Z.mod_mul. lia. }
  rewrite Hr, finish_no_carry by lia.
  change (emax - prec) with 971.
  destruct (Z.leb_spec (e - 1) 971); [reflexivity | lia].
Qed.

(** A positive value is carried by a positive finite number. *)
Lemma positive_val_finite (u : spec_float) :
  valid_binary u = true -> 0 < SFval u ->
  exists m e, u = S754_finite false m e /\ SFval u = Zpos m * 2 ^ (e + 1074).
Proof.
  intros Hv Hp. destruct u as [s|s| |s m e]; try (unfold SFval in Hp; lia).
  destruct s.
  - pose proof (valid_finite_val true m e Hv). unfold SFval, cond_Zopp in Hp. lia.
  - exists m, e. split; reflexivity.
Qed.

Lemma roundV_double_val (u : spec_float) :
  valid_binary u = true -> 0 < SFval u -> roundV (2 * SFval u) = 2 * SFval u.
Proof.
  intros Hv Hp. destruct (positive_val_finite u Hv Hp) as (m & e & -> & E).
  rewrite E. destruct (valid_finite_bounds false m e Hv) as (He & Hm & _).
  replace (2 * (Zpos m * 2 ^ (e + 1074))) with (Zpos m * 2 ^ (e + 1075)).
  - apply roundV_exact; lia.
  - replace (e + 1075) with (e + 1074 + 1) by lia. rewrite Z.pow_add_r by lia.
    change (2 ^ 1) with 2. lia.
Qed.

(** The midpoint [(lo + hi) / 2] of two numbers of the search window: the sum
    is rounded once, with an error of at most [2^1039] units of [2^-1074]
    (the window lies below [2^18]), and the halving is exact. *)
Lemma midpoint_window (lo hi : spec_float) :
  finite_or_zero lo = true -> finite_or_zero hi = true ->
  valid_binary lo = true -> valid_binary hi = true ->
  100 * 2 ^ 1074 <= SFval lo -> SFval lo <= SFval hi -> SFval hi <= 150000 * 2 ^ 1074 ->
  let mid := SF64div (SF64add lo hi) (S754_finite false 4503599627370496 (-51)) in
  finite_or_zero mid = true /\ valid_binary mid = true /\
  SFval lo <= SFval mid <= SFval hi /\
  SFval lo + SFval hi - 2 ^ 1039 <= 2 * SFval mid <= SFval lo + SFval hi + 2 ^ 1039.
Proof.
  intros Flo Fhi Vlo Vhi HA HAB HB.
  pose proof (SFadd_represented lo hi Flo Fhi Vlo Vhi) as HR.
  set (A := SFval lo) in *. set (B := SFval hi) in *.
  assert (Hu : 0 < 2 ^ 1074) by (apply Z.pow_pos_nonneg; lia).
  assert (Hu54 : 2 ^ 54 <= 2 ^ 1074) by (apply Z.pow_le_mono_r; lia).
  assert (HApos : 0 < A) by lia. assert (HBpos : 0 < B) by lia.
  assert (HS : 0 < A + B) by lia.
  assert (ER : roundVs (A + B) = roundV (A + B)).
  { unfold roundVs. destruct (Z.ltb_spec 0 (A + B)); [reflexivity | lia]. }
  rewrite ER in HR. set (R := roundV (A + B)) in *.
  assert (HRlo : 2 * A <= R).
  { subst A. rewrite <- (roundV_double_val lo Vlo HApos). apply roundV_mono. lia. }
  assert (HRhi : R <= 2 * B).
  { subst B. rewrite <- (roundV_double_val hi Vhi HBpos). apply roundV_mono. lia. }
  assert (H2098 : 300000 * 2 ^ 1074 < overflow) by (apply scaled_below_overflow; reflexivity).
  assert (Herr : A + B - 2 ^ 1039 <= R <= A + B + 2 ^ 1039).
  { pose proof (roundV_error (A + B) HS) as [E1 E2]. fold R in E1, E2.
    assert (Hk : roundShift (A + B) <= 1040).
    { unfold roundShift.
      assert (digits (A + B) <= 1093); [|lia].
      apply digits_le. split; [exact HS|].
      replace (2 ^ 1093) with (524288 * 2 ^ 1074)
        by (change 524288 with (2 ^ 19); rewrite <- Z.pow_add_r by lia; reflexivity).
      lia. }
    assert (Hp : 2 ^ roundShift (A + B) <= 2 ^ 1040)
      by (apply Z.pow_le_mono_r; [lia | exact Hk]).
    replace (2 ^ 1040) with (2 * 2 ^ 1039) in Hp
      by (change 2 with (2 ^ 1) at 1; rewrite <- Z.pow_add_r by lia; reflexivity).
    lia. }
  destruct (represented_finite _ R HR ltac:(lia)) as (Fs & Vs & Es).
  destruct (positive_val_finite _ Vs ltac:(lia)) as (m & e & Em & Ev).
  cbv zeta. rewrite Em in *. rewrite Es in Ev.
  destruct (valid_finite_bounds false m e Vs) as (He & Hm & Hn).
  assert (He' : -1072 <= e).
  { destruct (Z.le_gt_cases (-1072) e) as [|Hlt]; [assumption|exfalso].
    assert (2 ^ (e + 1074) <= 2 ^ 1) by (apply Z.pow_le_mono_r; lia).
    change (2 ^ 1) with 2 in *. change (2 ^ 54) with (2 * 2 ^ 53) in Hu54.
    assert (Zpos m * 2 ^ (e + 1074) <= Zpos m * 2)
      by (apply Z.mul_le_mono_nonneg_l; lia).
    lia. }
  rewrite SFdiv_two by lia.
  assert (Vm : valid_binary (S754_finite false m (e - 1)) = true).
  { apply valid_binary_finite. apply valid_binary_finite in Vs. lia. }
  assert (Ehalf : 2 * SFval (S754_finite false m (e - 1)) = R).
  { unfold SFval, cond_Zopp. rewrite Ev.
    replace (e + 1074) with (e - 1 + 1074 + 1) by lia.
    rewrite (Z.pow_add_r 2 (e - 1 + 1074) 1) by lia. change (2 ^ 1) with 2. lia. }
  split; [reflexivity|]. split; [exact Vm|]. lia.
Qed.
End BinaryRounding.

(** ** Consequences on primitive floats *)


(** The value of a number in units of [2^-1074], and the numbers that have one. *)
Definition valueOf (a : float) : Z := SFval (Prim2SF a).
Definition finiteNumber (a : float) : bool := finite_or_zero (Prim2SF a).

Lemma SFopp_facts (u : spec_float) :
  finite_or_zero u = true -> valid_binary u = true ->
  finite_or_zero (SFopp u) = true /\ valid_binary (SFopp u) = true /\
  SFval (SFopp u) = (- SFval u)%Z.
Proof.
  destruct u as [s| | |s m e]; try discriminate; intros _ Hv; repeat split; trivial.
  unfold SFopp, SFval. destruct s; unfold negb, cond_Zopp; lia.
Qed.

Lemma abs_leb_one (a : float) :
  (abs a <=? 1) = true ->
  finite_or_zero (Prim2SF a) = true /\ (Z.abs (SFval (Prim2SF a)) <= 2 ^ 1074)%Z.
Proof.
  rewrite leb_spec, abs_spec. pose proof (Prim2SF_valid a) as Hv.
  assert (H1 : Prim2SF 1 = S754_finite false 4503599627370496 (-52)) by reflexivity.
  rewrite H1.
  assert (V1 : valid_binary (S754_finite false 4503599627370496 (-52)) = true) by reflexivity.
  assert (E1 : (4503599627370496 * 2 ^ (-52 + 1074) = 2 ^ 1074)%Z) by reflexivity.
  destruct (Prim2SF a) as [s|s| |s m e].
  - intros _. split; [reflexivity|]. unfold SFval. change (Z.abs 0) with 0%Z.
    apply Z.lt_le_incl, Z.pow_pos_nonneg; lia.
  - unfold SFabs, SFleb, SFcompare. discriminate.
  - unfold SFabs, SFleb, SFcompare. discriminate.
  - unfold SFabs. intros Hle.
    change (valid_binary (S754_finite s m e)) with (valid_binary (S754_finite false m e)) in Hv.
    rewrite SFleb_val in Hle; try reflexivity; try assumption.
    apply Z.leb_le in Hle. split; [reflexivity|].
    unfold SFval, cond_Zopp in Hle. rewrite E1 in Hle.
    pose proof (valid_finite_val false m e Hv) as [Hp _].
    unfold SFval, cond_Zopp. destruct s; lia.
Qed.

(** Comparisons of finite numbers, read on values. *)
Lemma leb_val (a b : float) :
  finiteNumber a = true -> finiteNumber b = true ->
  (a <=? b) = (valueOf a <=? valueOf b)%Z.
Proof.
  intros Fa Fb. rewrite leb_spec.
  exact (SFleb_val _ _ Fa Fb (Prim2SF_valid a) (Prim2SF_valid b)).
Qed.

Lemma ltb_val (a b : float) :
  finiteNumber a = true -> finiteNumber b = true ->
  (a <? b) = (valueOf a <? valueOf b)%Z.
Proof.
  intros Fa Fb. rewrite ltb_spec.
  exact (SFltb_val _ _ Fa Fb (Prim2SF_valid a) (Prim2SF_valid b)).
Qed.

(** A number strictly between 0 and Infinity is finite and positive. *)
Lemma positive_finite (L : float) :
  (0 <? L) = true -> (L <? infinity) = true ->
  finiteNumber L = true /\ (0 < valueOf L)%Z.
Proof.
  unfold finiteNumber, valueOf. rewrite !ltb_spec.
  change (Prim2SF 0) with (S754_zero false).
  change (Prim2SF infinity) with (S754_infinity false).
  pose proof (Prim2SF_valid L) as V.
  destruct (Prim2SF L) as [s|[|]| |[|] m e]; unfold SFltb, SFcompare; try discriminate.
  intros _ _. split; [reflexivity|].
  pose proof (valid_finite_val false m e V). unfold SFval, cond_Zopp. lia.
Qed.

(** A number between two finite numbers is finite, and so is its value. *)
Lemma between_finite (lo a hi : float) :
  finiteNumber lo = true -> finiteNumber hi = true ->
  (lo <=? a) = true -> (a <=? hi) = true ->
  finiteNumber a = true /\ (valueOf lo <= valueOf a <= valueOf hi)%Z.
Proof.
  intros Fl Fh Hl Hh.
  assert (Fa : finiteNumber a = true).
  { unfold finiteNumber in *. rewrite leb_spec in Hl, Hh.
    destruct (Prim2SF a) as [s|[|]| |s m e]; try reflexivity; exfalso.
    - destruct (Prim2SF lo) as [sl|sl| |sl ml el]; try discriminate;
        unfold SFleb, SFcompare in Hl; discriminate.
    - destruct (Prim2SF hi) as [sl|sl| |sl ml el]; try discriminate;
        unfold SFleb, SFcompare in Hh; discriminate.
    - unfold SFleb, SFcompare in Hh. destruct (Prim2SF hi); discriminate. }
  split; [exact Fa|].
  rewrite (leb_val _ _ Fl Fa) in Hl. rewrite (leb_val _ _ Fa Fh) in Hh.
  apply Z.leb_le in Hl, Hh. lia.
Qed.

Lemma SFsub_add_opp (u v : spec_float) :
  finite_or_zero u = true -> finite_or_zero v = true ->
  SF64sub u v = SF64add u (SFopp v).
Proof.
  destruct u as [su| | |su mu eu], v as [sv| | |sv mv ev]; try discriminate; intros _ _;
    try reflexivity.
  - destruct su, sv; reflexivity.
  - unfold SF64sub, SF64add, SFsub, SFadd, SFopp. f_equal.
    destruct sv; unfold negb, cond_Zopp; lia.
Qed.

(** The height [h + s * L] of a point at distance [L] from the height [h]
    stays between [h - L] and [h + L] when the factor [s] has magnitude at
    most 1, all operations being the rounded ones. *)
Lemma offset_height_bounds (h s L : float) :
  finiteNumber h = true -> finiteNumber L = true -> (0 <= valueOf L)%Z ->
  (abs s <=? 1) = true ->
  (h - L <=? h + s * L) = true /\ (h + s * L <=? h + L) = true.
Proof.
  unfold finiteNumber, valueOf. intros Hh FL PL Hs.
  destruct (abs_leb_one s Hs) as [Fs Bs].
  pose proof (Prim2SF_valid h) as Vh. pose proof (Prim2SF_valid L) as VL.
  pose proof (Prim2SF_valid s) as Vs.
  destruct (SFmul_contracts (Prim2SF s) (Prim2SF L) Fs FL Vs VL Bs PL) as (R & HR & HRL).
  pose proof (finite_val_abs _ FL VL) as HLb.
  destruct (represented_finite _ R HR ltac:(lia)) as (Fp & Vp & Ep).
  destruct (SFopp_facts (Prim2SF L) FL VL) as (Fo & Vo & Eo).
  rewrite !leb_spec, sub_spec, !add_spec, mul_spec.
  rewrite (SFsub_add_opp _ _ Hh FL).
  split; apply SFadd_mono; try assumption.
  - rewrite SFleb_val by assumption. apply Z.leb_le. lia.
  - rewrite SFleb_val by assumption. apply Z.leb_le. lia.
Qed.

(** ** The bracket of the inner search *)

Lemma midpoint_spec (b : Bracket) :
  Prim2SF (midpoint b)
    = SF64div (SF64add (Prim2SF (bmin b)) (Prim2SF (bmax b)))
              (S754_finite false 4503599627370496 (-51)).
Proof. unfold midpoint. now rewrite div_spec, add_spec. Qed.


(** The bracket at the start of iteration [i]: inside [100, 150000], of
    width [149900 / 2^i] up to [32 * 2^-40] (the midpoints are rounded).
    Widths are counted in units of [2^-1074], so [2^1034] stands for [2^-40]. *)
Definition inWindow (i : nat) (b : Bracket) : Prop :=
  finiteNumber (bmin b) = true /\ finiteNumber (bmax b) = true /\
  (100 * 2 ^ 1074 <= valueOf (bmin b))%Z /\
  (valueOf (bmax b) <= 150000 * 2 ^ 1074)%Z /\
  ((149900 * 2 ^ (40 - Z.of_nat i) - 32) * 2 ^ 1034
     <= valueOf (bmax b) - valueOf (bmin b)
     <= (149900 * 2 ^ (40 - Z.of_nat i) + 32) * 2 ^ 1034)%Z.

Lemma inWindow_initial : inWindow 0 initialBracket.
Proof.
  unfold inWindow, finiteNumber, valueOf.
  repeat split; try (vm_compute; reflexivity); apply Z.leb_le; vm_compute; reflexivity.
Qed.

Section Window.
Variable dist : float -> float.
Variable target : float.

Lemma inWindow_step (i : nat) (b : Bracket) :
  (i < 40)%nat -> inWindow i b ->
  inWindow (S i) (bisectStep dist target b) /\
  finiteNumber (midpoint b) = true /\
  (valueOf (bmin b) < valueOf (midpoint b) < valueOf (bmax b))%Z.
Proof.
  intros Hi (Flo & Fhi & HA & HB & HW).
  unfold finiteNumber, valueOf in *.
  pose proof (Prim2SF_valid (bmin b)) as Vlo. pose proof (Prim2SF_valid (bmax b)) as Vhi.
  set (q := (2 ^ (40 - Z.of_nat (S i)))%Z).
  assert (Hq : (1 <= q)%Z).
  { subst q. change 1%Z with (2 ^ 0)%Z. apply Z.pow_le_mono_r; lia. }
  assert (Eq : (2 ^ (40 - Z.of_nat i) = 2 * q)%Z).
  { subst q. replace (40 - Z.of_nat i)%Z with (1 + (40 - Z.of_nat (S i)))%Z by lia.
    rewrite Z.pow_add_r by lia. reflexivity. }
  rewrite Eq in HW.
  assert (HU : (0 < 2 ^ 1034)%Z) by (apply Z.pow_pos_nonneg; lia).
  assert (E39 : (2 ^ 1039 = 32 * 2 ^ 1034)%Z).
  { change 32%Z with (2 ^ 5)%Z. rewrite <- Z.pow_add_r by lia. reflexivity. }
  remember (2 ^ 1034)%Z as U eqn:EU.
  assert (HqU : (U <= q * U)%Z) by nia.
  assert (HAB : (SFval (Prim2SF (bmin b)) <= SFval (Prim2SF (bmax b)))%Z) by lia.
  pose proof (midpoint_window _ _ Flo Fhi Vlo Vhi HA HAB HB) as HM.
  cbv zeta in HM. rewrite <- midpoint_spec in HM.
  destruct HM as (Fm & Vm & Hin & Herr). rewrite E39 in Herr.
  set (A := SFval (Prim2SF (bmin b))) in *. set (B := SFval (Prim2SF (bmax b))) in *.
  set (M := SFval (Prim2SF (midpoint b))) in *.
  split; [|split; [exact Fm | lia]].
  pose proof (bisectStep_bounds dist target b) as Hb.
  unfold inWindow, finiteNumber, valueOf.
  destruct (0 <? missAt dist target b); injection Hb as -> ->; fold A B M.
  - repeat split; try assumption; try lia.
  - repeat split; try assumption; try lia.
Qed.

Lemma inWindow_bracketAt (i : nat) :
  (i <= 40)%nat -> inWindow i (bracketAt dist target i).
Proof.
  induction i as [|i IH]; intros Hi; [exact inWindow_initial|].
  change (bracketAt dist target (S i)) with (bisectStep dist target (bracketAt dist target i)).
  apply inWindow_step; [lia | apply IH; lia].
Qed.

(** Every stiffness the search evaluates lies strictly inside the bracket. *)
Lemma midAt_inside (i : nat) :
  (i < 40)%nat ->
  finiteNumber (midAt dist target i) = true /\
  (100 * 2 ^ 1074 < valueOf (midAt dist target i) < 150000 * 2 ^ 1074)%Z.
Proof.
  intros Hi. pose proof (inWindow_bracketAt i ltac:(lia)) as HI.
  destruct (inWindow_step i _ Hi HI) as (_ & Fm & Hm).
  destruct HI as (_ & _ & HA & HB & _).
  split; [exact Fm|]. unfold midAt. lia.
Qed.
End Window.

(** An integer below [2^53] is a number, exactly. *)
Lemma Z2float_exact (n : Z) :
  (0 < n < 2 ^ 53)%Z ->
  finiteNumber (Z2float n) = true /\ valueOf (Z2float n) = (n * 2 ^ 1074)%Z.
Proof.
  intros Hn. unfold finiteNumber, valueOf, Z2float.
  pose proof (binary_normalize_represented n 0 ltac:(lia)) as HR.
  change (0 + 1074)%Z with 1074%Z in HR.
  assert (Hu : (0 < 2 ^ 1074)%Z) by (apply Z.pow_pos_nonneg; lia).
  assert (Hpos : (0 < n * 2 ^ 1074)%Z) by (apply Z.mul_pos_pos; lia).
  assert (ER : roundVs (n * 2 ^ 1074) = (n * 2 ^ 1074)%Z).
  { unfold roundVs. destruct (Z.ltb_spec 0 (n * 2 ^ 1074)); [|lia].
    apply roundV_exact; lia. }
  rewrite ER in HR.
  assert (Hlt : (Z.abs (n * 2 ^ 1074) < overflow)%Z).
  { rewrite Z.abs_eq by lia. apply scaled_below_overflow.
    apply Z.lt_le_trans with (2 ^ 53)%Z; [lia | apply Z.pow_le_mono_r; lia]. }
  destruct (represented_finite _ _ HR Hlt) as (F & V & E).
  rewrite Prim2SF_SF2Prim by exact V. split; assumption.
Qed.

Lemma bracket_ends :
  finiteNumber 100 = true /\ valueOf 100 = (100 * 2 ^ 1074)%Z /\
  finiteNumber 150000 = true /\ valueOf 150000 = (150000 * 2 ^ 1074)%Z.
Proof.
  split; [reflexivity|]. split; [vm_compute; reflexivity|].
  split; [reflexivity | vm_compute; reflexivity].
Qed.

Lemma window_leb (a : float) :
  finiteNumber a = true ->
  (100 * 2 ^ 1074 <= valueOf a <= 150000 * 2 ^ 1074)%Z ->
  (100 <=? a) = true /\ (a <=? 150000) = true.
Proof.
  intros F [H1 H2]. destruct bracket_ends as (Fl & El & Fh & Eh).
  rewrite (leb_val _ _ Fl F), (leb_val _ _ F Fh), El, Eh.
  split; apply Z.leb_le; assumption.
Qed.

Lemma window_ltb (a : float) :
  finiteNumber a = true ->
  (100 * 2 ^ 1074 < valueOf a < 150000 * 2 ^ 1074)%Z ->
  (100 <? a) = true /\ (a <? 150000) = true.
Proof.
  intros F [H1 H2]. destruct bracket_ends as (Fl & El & Fh & Eh).
  rewrite (ltb_val _ _ Fl F), (ltb_val _ _ F Fh), El, Eh.
  split; apply Z.ltb_lt; assumption.
Qed.

(** Rounding a number of the bracket to the nearest integer stays in it. *)
Lemma roundHalfUp_window (m : positive) (e : Z) :
  (-1074 <= e)%Z ->
  (100 * 2 ^ 1074 <= Zpos m * 2 ^ (e + 1074) <= 150000 * 2 ^ 1074)%Z ->
  (100 <= roundHalfUp false m e <= 150000)%Z.
Proof.
  intros He [H1 H2]. unfold roundHalfUp, cond_Zopp.
  assert (Hu : (0 < 2 ^ 1074)%Z) by (apply Z.pow_pos_nonneg; lia).
  destruct e as [|p|k].
  - change (0 + 1074)%Z with 1074%Z in *. change (2 ^ 0)%Z with 1%Z.
    apply Z.mul_le_mono_pos_r in H1; [|exact Hu].
    apply Z.mul_le_mono_pos_r in H2; [|exact Hu]. lia.
  - rewrite Z.pow_add_r, Z.mul_assoc in H1, H2 by lia.
    apply Z.mul_le_mono_pos_r in H1; [|exact Hu].
    apply Z.mul_le_mono_pos_r in H2; [|exact Hu]. lia.
  - change (Z.pow_pos 2 k) with (2 ^ Zpos k)%Z.
    assert (HP : (0 < 2 ^ Zpos k)%Z) by (apply Z.pow_pos_nonneg; lia).
    assert (Hd : (0 < 2 ^ (Z.neg k + 1074))%Z) by (apply Z.pow_pos_nonneg; lia).
    assert (Eu : (2 ^ 1074 = 2 ^ Zpos k * 2 ^ (Z.neg k + 1074))%Z).
    { rewrite <- Z.pow_add_r by lia. f_equal. lia. }
    rewrite Eu, Z.mul_assoc in H1, H2.
    apply Z.mul_le_mono_pos_r in H1; [|exact Hd].
    apply Z.mul_le_mono_pos_r in H2; [|exact Hd].
    remember (2 ^ Zpos k)%Z as P eqn:EP. split.
    + apply Z.div_le_lower_bound; lia.
    + assert ((2 * Zpos m + P) / (2 * P) < 150001)%Z; [|lia].
      apply Z.div_lt_upper_bound; lia.
Qed.

Lemma Math_round_window (a : float) :
  finiteNumber a = true ->
  (100 * 2 ^ 1074 <= valueOf a <= 150000 * 2 ^ 1074)%Z ->
  exists n : Z, Math_round a = Z2float n /\ (100 <= n <= 150000)%Z /\
                (100 <=? Math_round a) = true /\ (Math_round a <=? 150000) = true.
Proof.
  intros F Hw. unfold finiteNumber, valueOf in *. pose proof (Prim2SF_valid a) as V.
  assert (Hu : (0 < 2 ^ 1074)%Z) by (apply Z.pow_pos_nonneg; lia).
  destruct (positive_val_finite _ V ltac:(lia)) as (m & e & Ea & Ev).
  rewrite Ev in Hw. destruct (valid_finite_bounds false m e) as (He & _); [now rewrite <- Ea|].
  pose proof (roundHalfUp_window m e ltac:(lia) Hw) as Hn.
  exists (roundHalfUp false m e).
  assert (ER : Math_round a = Z2float (roundHalfUp false m e)).
  { unfold Math_round. rewrite Ea. cbv zeta.
    destruct (Z.eqb_spec (roundHalfUp false m e) 0); [lia | reflexivity]. }
  rewrite ER. split; [reflexivity|]. split; [exact Hn|].
  destruct (Z2float_exact (roundHalfUp false m e)) as [Fn Vn].
  { split; [lia|]. apply Z.le_lt_trans with 150000%Z; [lia | reflexivity]. }
  apply window_leb; [exact Fn|]. rewrite Vn.
  split; apply Z.mul_le_mono_nonneg_r; lia.
Qed.

(** ** The stiffness the solver commits *)

(** The stiffness the inner search holds stays in the closed bracket. *)
Lemma bestT_window (dist : float -> float) (target : float) (i : nat) :
  (i <= 40)%nat ->
  finiteNumber (bestT (bracketAt dist target i)) = true /\
  (100 * 2 ^ 1074 <= valueOf (bestT (bracketAt dist target i)) <= 150000 * 2 ^ 1074)%Z.
Proof.
  intros Hi. destruct (bestSeen_bracketAt dist target i) as [_ [(j & Hj & -> & _) | [-> _]]].
  - destruct (midAt_inside dist target j ltac:(lia)) as [F V]. split; [exact F | lia].
  - destruct bracket_ends as (F & E & _ & _). split; [exact F|]. rewrite E.
    assert (0 < 2 ^ 1074)%Z by (apply Z.pow_pos_nonneg; lia). lia.
Qed.

(** The solution [runOptimizer] commits is the result of the inner search at
    some angle. *)
Lemma sweepSearch_solution (solver : float -> Sol.result) (angle0 : float) :
  exists a, fst (fst (sweepSearch solver angle0)) = solver a.
Proof.
  rewrite sweepSearch_fold. cbv zeta.
  destruct (fold_keepBetter_best solver sweepAngles (solver angle0, angle0))
    as (_ & _ & Hwho). cbv zeta in Hwho.
  destruct (1.0 <? _); [destruct (_ <? 2.0)|]; cbn [fst]; try (now exists angle0).
  destruct Hwho as [-> | (a & _ & ->)]; cbn [fst]; [now exists angle0 | now exists a].
Qed.

Lemma runOptimizer_tension `{MathLib} (st : AppState) :
  tension (specs (runOptimizer st))
    = Math_round (Sol.t (fst (fst (optimizerSearch (specs st))))).
Proof.
  unfold runOptimizer. destruct (optimizerSearch (specs st)) as [[s f] c]. reflexivity.
Qed.

(** The difference of two finite numbers, when it is positive and at most a
    bound [m * 2^j] that is itself a number. *)
Lemma sub_val_le (a b : float) (m j : Z) :
  finiteNumber a = true -> finiteNumber b = true ->
  (0 < m < 2 ^ 53)%Z -> (0 <= j <= 1074)%Z ->
  (0 < valueOf a - valueOf b <= m * 2 ^ j)%Z ->
  finiteNumber (a - b) = true /\ (valueOf (a - b) <= m * 2 ^ j)%Z.
Proof.
  unfold finiteNumber, valueOf. intros Fa Fb Hm Hj Hd.
  pose proof (Prim2SF_valid a) as Va. pose proof (Prim2SF_valid b) as Vb.
  destruct (SFopp_facts _ Fb Vb) as (Fo & Vo & Eo).
  rewrite sub_spec, (SFsub_add_opp _ _ Fa Fb).
  pose proof (SFadd_represented _ _ Fa Fo Va Vo) as HR. rewrite Eo in HR.
  set (S := (SFval (Prim2SF a) + - SFval (Prim2SF b))%Z) in *.
  assert (HS : (0 < S <= m * 2 ^ j)%Z) by (subst S; lia).
  assert (ER : roundVs S = roundV S).
  { unfold roundVs. destruct (Z.ltb_spec 0 S); [reflexivity | lia]. }
  rewrite ER in HR.
  assert (Hle : (roundV S <= m * 2 ^ j)%Z).
  { rewrite <- (roundV_exact m j) by lia. apply roundV_mono. lia. }
  pose proof (roundV_pos S ltac:(lia)) as Hpos.
  assert (Hlt : (m * 2 ^ j < overflow)%Z) by (apply below_overflow; lia).
  destruct (represented_finite _ _ HR ltac:(lia)) as (F & _ & E).
  split; [exact F | lia].
Qed.

(** X2.  Every stiffness the inner search evaluates lies strictly between 100
    and 150000, the first one being 75050.  The stiffness it returns is one of
    them, or the initial 100 when no evaluation has an error below Infinity
    (the first midpoint replaces the initial [bestT] exactly when its error is
    below Infinity): in all cases it lies within [100, 150000]. *)
Theorem solveTensionForAngle_stiffness_in_bracket `{MathLib} (specs : Specs) (a : float) :
  let r := solveTensionForAngle specs a in
  let bracket := bracketAt (rangeAt specs a) (targetDist specs) in
  let mid := midAt (rangeAt specs a) (targetDist specs) in
  let absErr := absErrAt (rangeAt specs a) (targetDist specs) in
  (forall i, (i < 40)%nat -> (100 <? mid i) = true /\ (mid i <? 150000) = true) /\
  mid 0%nat = 75050 /\
  bestT (bracket 1%nat) = (if absErr 0%nat <? Infinity then mid 0%nat else 100) /\
  ((exists j, (j < 40)%nat /\ Sol.t r = mid j)
   \/ (Sol.t r = 100 /\ forall i, (i < 40)%nat -> (absErr i <? Infinity) = false)) /\
  (100 <=? Sol.t r) = true /\ (Sol.t r <=? 150000) = true.
Proof.
  cbv zeta. rewrite solveTensionForAngle_bracketAt. cbn [Sol.t].
  set (dist := rangeAt specs a). set (target := targetDist specs).
  split.
  { intros i Hi. destruct (midAt_inside dist target i Hi) as [F V].
    apply window_ltb; [exact F | exact V]. }
  split; [reflexivity|]. split.
  { pose proof (bisectStep_best dist target initialBracket) as Hb.
    change (bracketAt dist target 1) with (bisectStep dist target initialBracket).
    change (absErrAt dist target 0) with (Math_abs (missAt dist target initialBracket)).
    change (bestErr initialBracket) with Infinity in Hb.
    destruct (Math_abs (missAt dist target initialBracket) <? Infinity);
      injection Hb as -> _; reflexivity. }
  split.
  { destruct (bestSeen_bracketAt dist target 40) as [Hlt [(j & Hj & Ht & _) | [Ht He]]].
    - left. exists j. split; [exact Hj | exact Ht].
    - right. split; [exact Ht|]. rewrite He in Hlt. exact Hlt. }
  destruct (bestT_window dist target 40 (le_n _)) as [F V].
  exact (window_leb _ F V).
Qed.

(** X3.  Whatever the specs, the stiffness [runOptimizer] commits is an
    integer between 100 and 150000. *)
Theorem runOptimizer_commits_integer_stiffness `{MathLib} (st : AppState) :
  (exists n : Z, tension (specs (runOptimizer st)) = Z2float n /\ (100 <= n <= 150000)%Z) /\
  (100 <=? tension (specs (runOptimizer st))) = true /\
  (tension (specs (runOptimizer st)) <=? 150000) = true.
Proof.
  rewrite runOptimizer_tension. unfold optimizerSearch.
  destruct (sweepSearch_solution (solveTensionForAngle (specs st)) (angle (specs st)))
    as [a' ->].
  rewrite solveTensionForAngle_bracketAt. cbn [Sol.t].
  destruct (bestT_window (rangeAt (specs st) a') (targetDist (specs st)) 40 (le_n _))
    as [F' V'].
  destruct (Math_round_window _ F' V') as (n & En & Hn & Hl & Hh).
  split; [exists n; split; assumption|]. split; assumption.
Qed.

(** X4.  The bracket of the inner search stays ordered inside [100, 150000],
    and the 40 halvings bring its width below 2^-22 (rounding included). *)
Theorem solveTensionForAngle_bracket_narrows `{MathLib} (specs : Specs) (a : float) :
  let bracket := bracketAt (rangeAt specs a) (targetDist specs) in
  (forall i, (i <= 40)%nat ->
     (100 <=? bmin (bracket i)) = true /\
     (bmin (bracket i) <? bmax (bracket i)) = true /\
     (bmax (bracket i) <=? 150000) = true) /\
  (bmax (bracket 40%nat) - bmin (bracket 40%nat) <? 0x1p-22) = true.
Proof.
  cbv zeta. set (dist := rangeAt specs a). set (target := targetDist specs).
  assert (HU : (0 < 2 ^ 1034)%Z) by (apply Z.pow_pos_nonneg; lia).
  destruct bracket_ends as (Fl & El & Fh & Eh).
  split.
  - intros i Hi.
    destruct (inWindow_bracketAt dist target i Hi) as (Fa & Fb & HA & HB & HW & _).
    assert (Hq : (1 <= 2 ^ (40 - Z.of_nat i))%Z).
    { change 1%Z with (2 ^ 0)%Z. apply Z.pow_le_mono_r; lia. }
    remember (2 ^ 1034)%Z as U. remember (2 ^ (40 - Z.of_nat i))%Z as q.
    assert (HqU : (U <= q * U)%Z) by nia.
    rewrite (leb_val _ _ Fl Fa), (ltb_val _ _ Fa Fb), (leb_val _ _ Fb Fh), El, Eh.
    split; [apply Z.leb_le; exact HA|]. split; [apply Z.ltb_lt; lia | apply Z.leb_le; exact HB].
  - destruct (inWindow_bracketAt dist target 40 (le_n _)) as (Fa & Fb & _ & _ & HW1 & HW2).
    change (40 - Z.of_nat 40)%Z with 0%Z in HW1, HW2. change (2 ^ 0)%Z with 1%Z in HW1, HW2.
    destruct (sub_val_le _ _ 149932 1034 Fb Fa) as [Fd Hd]; [lia | lia | lia |].
    assert (F22 : finiteNumber 0x1p-22 = true) by reflexivity.
    assert (E22 : valueOf 0x1p-22 = (262144 * 2 ^ 1034)%Z) by (vm_compute; reflexivity).
    rewrite (ltb_val _ _ Fd F22), E22. apply Z.ltb_lt. lia.
Qed.

(** ** The release point *)

(** The sign a product carries: that of its factors combined, whatever the
    rounding does. *)
Definition signed (s : bool) (u : spec_float) : Prop :=
  match u with
  | S754_zero s' | S754_infinity s' | S754_finite s' _ _ => s' = s
  | S754_nan => True
  end.

Lemma SFmul_signed (su sv : bool) (mu mv : positive) (eu ev : Z) :
  signed (xorb su sv) (SF64mul (S754_finite su mu eu) (S754_finite sv mv ev)).
Proof.
  unfold SF64mul, SFmul, binary_round_aux.
  destruct (shr_fexp prec emax _ _ loc_Exact) as [mrs e'].
  destruct (shr_fexp prec emax _ e' loc_Exact) as [mrs' e''].
  destruct (shr_m mrs'); cbn [signed]; trivial.
  destruct (Z.leb _ _); reflexivity.
Qed.

Lemma SFmul_finite_comm (su sv : bool) (mu mv : positive) (eu ev : Z) :
  SF64mul (S754_finite su mu eu) (S754_finite sv mv ev)
    = SF64mul (S754_finite sv mv ev) (S754_finite su mu eu).
Proof.
  unfold SF64mul, SFmul. now rewrite xorb_comm, Pos.mul_comm, Z.add_comm.
Qed.

(** The factor [Math.PI / 180] that converts degrees. *)
Definition degree : float := Math_PI / 180.

Lemma degree_small :
  Prim2SF degree = S754_finite false 5030569068109113 (-58) /\
  (Z.abs (SFval (Prim2SF degree)) <= 2 ^ 1074)%Z.
Proof. split; [reflexivity | apply Z.leb_le; vm_compute; reflexivity]. Qed.

(** For an angle of 10 to 80 degrees the release-side angle is negative (or a
    negative zero) and the launch angle is not: the two differ. *)
Lemma release_side_differs (a : float) :
  (10 <=? a) = true -> (a <=? 80) = true ->
  (a - 90) * degree <> a * degree.
Proof.
  intros H10 H80.
  destruct (between_finite 10 a 80 eq_refl eq_refl H10 H80) as (Fa & Ha).
  assert (E10 : valueOf 10 = (10 * 2 ^ 1074)%Z) by (vm_compute; reflexivity).
  assert (E80 : valueOf 80 = (80 * 2 ^ 1074)%Z) by (vm_compute; reflexivity).
  assert (E90 : SFval (SFopp (Prim2SF 90)) = (- (90 * 2 ^ 1074))%Z) by (vm_compute; reflexivity).
  assert (F90 : finite_or_zero (Prim2SF 90) = true) by reflexivity.
  assert (Fo90 : finite_or_zero (SFopp (Prim2SF 90)) = true) by reflexivity.
  assert (Vo90 : valid_binary (SFopp (Prim2SF 90)) = true) by reflexivity.
  rewrite E10, E80 in Ha. unfold finiteNumber, valueOf in *.
  pose proof (Prim2SF_valid a) as Va.
  assert (Hu : (0 < 2 ^ 1074)%Z) by (apply Z.pow_pos_nonneg; lia).
  assert (H2098 : (80 * 2 ^ 1074 < overflow)%Z) by (apply scaled_below_overflow; reflexivity).
  destruct (positive_val_finite _ Va ltac:(lia)) as (ma & ea & Ea & Eva).
  destruct degree_small as [Ed Hd].
  (* the launch angle: a finite number without a negative sign *)
  assert (HY : signed false (Prim2SF (a * degree)) /\ finite_or_zero (Prim2SF (a * degree)) = true).
  { rewrite mul_spec, Ea, Ed. split; [apply (SFmul_signed false false)|].
    rewrite SFmul_finite_comm. rewrite <- Ea, <- Ed.
    destruct (SFmul_contracts (Prim2SF degree) (Prim2SF a)) as (R & HR & HRa);
      try assumption; try (rewrite Ed; reflexivity); try lia.
    destruct (represented_finite _ R HR ltac:(lia)) as (F & _). exact F. }
  (* the release-side angle: a negative sign *)
  assert (HX : signed true (Prim2SF ((a - 90) * degree))).
  { rewrite mul_spec, sub_spec, (SFsub_add_opp _ _ Fa F90).
    pose proof (SFadd_represented _ _ Fa Fo90 Va Vo90) as HR. rewrite E90 in HR.
    set (S := (SFval (Prim2SF a) + - (90 * 2 ^ 1074))%Z) in *.
    assert (HS : (S < 0)%Z) by (subst S; lia).
    assert (ER : roundVs S = (- roundV (- S))%Z).
    { unfold roundVs. destruct (Z.ltb_spec 0 S); [lia|].
      destruct (Z.ltb_spec S 0); [reflexivity | lia]. }
    pose proof (roundV_pos (- S) ltac:(lia)) as Hpos.
    assert (Hle : (roundV (- S) <= 80 * 2 ^ 1074)%Z).
    { rewrite <- (roundV_exact 80 1074) by lia. apply roundV_mono. subst S. lia. }
    rewrite ER in HR.
    destruct (represented_finite _ _ HR ltac:(lia)) as (F & V & E).
    destruct (SF64add (Prim2SF a) (SFopp (Prim2SF 90))) as [s|s| |[|] m e].
    - unfold SFval in E. lia.
    - discriminate F.
    - discriminate F.
    - rewrite Ed. apply (SFmul_signed true false).
    - pose proof (valid_finite_val false m e V). unfold SFval, cond_Zopp in E. lia. }
  intros Heq. rewrite Heq in HX. destruct HY as [HY FY].
  clear - HX HY FY.
  destruct (Prim2SF (a * degree)) as [s|s| |s m e];
    [| discriminate FY | discriminate FY |];
    cbn [signed] in HX, HY; rewrite HX in HY; discriminate HY.
Qed.

(** X1.  For every valid spec (a positive, finite arm length) and a sine of
    magnitude at most 1, the release position has a y-coordinate between the
    pivot height 5.5 minus the arm length and the pivot height plus the arm
    length, inclusive: it is the pivot (0, 5.5) offset by the arm length along
    the release-side angle, which is the configured angle minus 90 degrees,
    while the velocity is directed along the configured angle itself; for a
    configured angle of 10 to 80 degrees the two directions differ. *)
Theorem calculateLaunchVector_release_point `{MathLib} (p : Specs) :
  (0 <? armLength p) = true -> (armLength p <? Infinity) = true ->
  (Math_abs (Math_sin (releaseAngle p)) <=? 1) = true ->
  let launch := calculateLaunchVector p in
  (5.5 - armLength p <=? Vec.y (pos launch)) = true /\
  (Vec.y (pos launch) <=? 5.5 + armLength p) = true /\
  pos launch = Vec.mk (0 + Math_cos (releaseAngle p) * armLength p)
                      (5.5 + Math_sin (releaseAngle p) * armLength p) 0 /\
  releaseAngle p = (angle p - 90) * (Math_PI / 180) /\
  vel launch = Vec.mk (Math_cos (launchAngle p) * launchSpeed p)
                      (Math_sin (launchAngle p) * launchSpeed p) 0 /\
  launchAngle p = angle p * (Math_PI / 180) /\
  ((10 <=? angle p) = true -> (angle p <=? 80) = true -> releaseAngle p <> launchAngle p).
Proof.
  intros Hpos Hfin Hsin. cbv zeta.
  destruct (positive_finite _ Hpos Hfin) as [FL PL].
  destruct (offset_height_bounds 5.5 (Math_sin (releaseAngle p)) (armLength p))
    as [Hlo Hhi]; [reflexivity | exact FL | lia | exact Hsin |].
  split; [exact Hlo|]. split; [exact Hhi|].
  split; [reflexivity|]. split; [reflexivity|]. split; [reflexivity|].
  split; [reflexivity|]. apply release_side_differs.
Qed.

(** X1, on the default launcher: the release height 1.257... lies between
    -0.5 and 11.5, and the release-side angle differs from the launch angle. *)
Lemma calculateLaunchVector_release_point_witness :
  let launch := @calculateLaunchVector taylorMath defaultSpecs in
  (5.5 - 6 <=? Vec.y (pos launch)) = true /\
  (Vec.y (pos launch) <=? 5.5 + 6) = true /\
  releaseAngle defaultSpecs <> launchAngle defaultSpecs.
Proof.
  destruct (@calculateLaunchVector_release_point taylorMath defaultSpecs)
    as (Hlo & Hhi & _ & _ & _ & _ & Hne);
    [vm_compute; reflexivity | vm_compute; reflexivity | vm_compute; reflexivity |].
  split; [exact Hlo|]. split; [exact Hhi|].
  apply Hne; vm_compute; reflexivity.
Defined.

(** ** What the integrator and the solver read of the specs *)

Transparent simulateFlightPath.

Section SpecFields.
Variables p p' : Specs.
Hypothesis same_drag : drag p = drag p'.
Hypothesis same_wind : wind p = wind p'.
Hypothesis same_projMass : projMass p = projMass p'.

Lemma flightStep_fields (s : Launch) : flightStep p s = flightStep p' s.
Proof. unfold flightStep, acceleration. now rewrite same_drag, same_wind, same_projMass. Qed.

Lemma flightLoop_fields (n : nat) (s : Launch) : flightLoop n p s = flightLoop n p' s.
Proof.
  revert s. induction n as [|n IH]; intros s; [reflexivity|].
  cbn [flightLoop]. cbv zeta. rewrite flightStep_fields.
  destruct (grounded (flightStep p' s)); [reflexivity | apply IH].
Qed.

Lemma simulateFlightPath_fields (startPos startVel : Vec.t) :
  simulateFlightPath startPos startVel p = simulateFlightPath startPos startVel p'.
Proof. unfold simulateFlightPath. apply flightLoop_fields. Qed.
End SpecFields.

Opaque simulateFlightPath.

Lemma rangeAt_rangeOf `{MathLib} (sp : Specs) (a k : float) :
  rangeAt sp a k = rangeOf (withTensionAngle sp k a).
Proof. unfold rangeAt, rangeOf. cbv zeta. now apply simulateFlightPath_fields. Qed.

(** X5.  The integrator reads only the drag, the wind and the projectile mass
    of the specs it is given.  So the range the inner search evaluates for a
    stiffness [k] at the angle [a], integrating with the current specs, is
    the range of the launcher whose tension is [k] and whose angle is [a]. *)
Theorem solver_evaluates_the_range_of_the_candidate `{MathLib} (sp : Specs) (a k : float) :
  (forall (q : Specs) (startPos startVel : Vec.t),
     drag q = drag sp -> wind q = wind sp -> projMass q = projMass sp ->
     simulateFlightPath startPos startVel q = simulateFlightPath startPos startVel sp) /\
  rangeAt sp a k = rangeOf (withTensionAngle sp k a).
Proof.
  split; [|apply rangeAt_rangeOf].
  intros q startPos startVel Hd Hw Hm. now apply simulateFlightPath_fields.
Qed.

(** ** The solver and the tension and angle it was started with *)

Lemma bisectLoop_ext (d1 d2 : float -> float) (target : float) (n : nat) (b : Bracket) :
  (forall k, d1 k = d2 k) -> bisectLoop d1 target n b = bisectLoop d2 target n b.
Proof.
  intros Hd. revert b. induction n as [|n IH]; intros b; [reflexivity|].
  cbn [bisectLoop]. rewrite IH. f_equal. unfold bisectStep, missAt. now rewrite Hd.
Qed.

(** The inner search reads neither the tension nor the angle of the specs. *)
Lemma solveTensionForAngle_fields `{MathLib} (sp : Specs) (k a0 a : float) :
  solveTensionForAngle (withTensionAngle sp k a0) a = solveTensionForAngle sp a.
Proof.
  unfold solveTensionForAngle. cbv zeta. cbn [targetDist withTensionAngle].
  rewrite (bisectLoop_ext (rangeAt (withTensionAngle sp k a0) a) (rangeAt sp a)); [reflexivity|].
  intros m. rewrite !rangeAt_rangeOf. reflexivity.
Qed.

Lemma fold_keepBetter_ext (s1 s2 : float -> Sol.result) (l : list float)
    (r0 : Sol.result * float) :
  (forall a, s1 a = s2 a) -> fold_left (keepBetter s1) l r0 = fold_left (keepBetter s2) l r0.
Proof.
  intros Hs. revert r0. induction l as [|a l IH]; intros r0; [reflexivity|].
  cbn [fold_left]. rewrite IH. f_equal. unfold keepBetter. now rewrite Hs.
Qed.

Lemma sweepSearch_ext (s1 s2 : float -> Sol.result) (angle0 : float) :
  (forall a, s1 a = s2 a) -> sweepSearch s1 angle0 = sweepSearch s2 angle0.
Proof.
  intros Hs. rewrite !sweepSearch_fold. cbv zeta.
  now rewrite (fold_keepBetter_ext s1 s2 _ _ Hs), Hs.
Qed.

Lemma runOptimizer_commit `{MathLib} (st : AppState) :
  runOptimizer st
    = commit (specs st) (fst (fst (optimizerSearch (specs st))))
             (snd (fst (optimizerSearch (specs st)))) (snd (optimizerSearch (specs st))).
Proof.
  unfold runOptimizer. destruct (optimizerSearch (specs st)) as [[r a] c]. reflexivity.
Qed.

(** X6.  The outcome of [runOptimizer] does not depend on the tension the
    specs hold when it is started, nor on the solver state and the flag: it
    overwrites the tension and the angle, sets the solver state to LOCKED,
    and leaves the six other fields of the specs as they are. *)
Theorem runOptimizer_overwrites_tension `{MathLib}
    (st : AppState) (k : float) (s : SolverState) (c : bool) :
  let sp := specs st in
  runOptimizer (mkApp (withTensionAngle sp k (angle sp)) s c) = runOptimizer st /\
  solverState (runOptimizer st) = LOCKED /\
  (armLength (specs (runOptimizer st)), armMass (specs (runOptimizer st)),
   projMass (specs (runOptimizer st)), targetDist (specs (runOptimizer st)),
   wind (specs (runOptimizer st)), drag (specs (runOptimizer st)))
    = (armLength sp, armMass sp, projMass sp, targetDist sp, wind sp, drag sp).
Proof.
  cbv zeta. rewrite !runOptimizer_commit. cbn [specs]. split; [|split; reflexivity].
  unfold optimizerSearch. cbn [angle withTensionAngle].
  rewrite (sweepSearch_ext (solveTensionForAngle (withTensionAngle (specs st) k (angle (specs st))))
                           (solveTensionForAngle (specs st)))
    by (intros a; apply solveTensionForAngle_fields).
  reflexivity.
Qed.

(** ** Running the solver on its own result *)

(** The candidate angles of the sweep are integers. *)
Lemma sweepAngles_integers (a : float) : In a sweepAngles -> Math_round a = a.
Proof.
  intros Ha. unfold sweepAngles in Ha. cbn [In] in Ha.
  repeat (destruct Ha as [<-|Ha]; [vm_compute; reflexivity|]). contradiction.
Qed.

(** A best pair that no candidate beats is where the sweep stays. *)
Lemma fold_keepBetter_stay (solver : float -> Sol.result) (l : list float)
    (r0 : Sol.result * float) :
  (forall a, In a l -> (Sol.err (solver a) <? Sol.err (fst r0)) = false) ->
  fold_left (keepBetter solver) l r0 = r0.
Proof.
  induction l as [|a l IH]; intros Hall; [reflexivity|].
  cbn [fold_left].
  assert (Hk : keepBetter solver r0 a = r0).
  { unfold keepBetter. now rewrite (Hall a (or_introl eq_refl)). }
  rewrite Hk. apply IH. intros a' Ha'. apply Hall. now right.
Qed.

(** Searching again from the angle a search ended on returns the same solution
    and the same angle (the flag may differ). *)
Lemma sweepSearch_again (solver : float -> Sol.result) (angle0 : float) :
  let r := sweepSearch solver angle0 in
  fst (sweepSearch solver (snd (fst r))) = fst r /\
  (snd (fst r) = angle0 \/ In (snd (fst r)) sweepAngles).
Proof.
  cbv zeta. rewrite (sweepSearch_fold solver angle0). cbv zeta.
  destruct (fold_keepBetter_best solver sweepAngles (solver angle0, angle0))
    as (_ & Hall & Hwho). cbv zeta in Hall, Hwho.
  set (swept := fold_left (keepBetter solver) sweepAngles (solver angle0, angle0)) in *.
  destruct (1.0 <? Sol.err (solver angle0)) eqn:E1.
  - destruct (Sol.err (fst swept) <? 2.0) eqn:E2; cbn [fst snd].
    + assert (Hs : fst swept = solver (snd swept))
        by (destruct Hwho as [-> | (a & _ & ->)]; reflexivity).
      split; [|destruct Hwho as [-> | (a & Ha & ->)]; cbn [snd]; [now left | now right]].
      rewrite sweepSearch_fold. cbv zeta. rewrite <- Hs.
      assert (Hstay : fold_left (keepBetter solver) sweepAngles (fst swept, snd swept)
                      = (fst swept, snd swept))
        by (apply fold_keepBetter_stay; exact Hall).
      rewrite Hstay. cbn [fst snd]. rewrite E2.
      destruct (1.0 <? Sol.err (fst swept)); reflexivity.
    + split; [|now left]. rewrite sweepSearch_fold. cbv zeta. fold swept.
      now rewrite E1, E2.
  - cbn [fst snd]. split; [|now left]. rewrite sweepSearch_fold. cbv zeta. now rewrite E1.
Qed.

(** X7.  When the requested angle is an integer (the angle slider moves in
    steps of 1), running [runOptimizer] again on the state it produced commits
    the same specs: the same tension and the same angle. *)
Theorem runOptimizer_twice `{MathLib} (st : AppState) :
  Math_round (angle (specs st)) = angle (specs st) ->
  specs (runOptimizer (runOptimizer st)) = specs (runOptimizer st).
Proof.
  intros Hint. rewrite (runOptimizer_commit (runOptimizer st)). rewrite !runOptimizer_commit.
  unfold commit. cbn [specs]. unfold optimizerSearch. cbn [angle withTensionAngle].
  destruct (sweepSearch_again (solveTensionForAngle (specs st)) (angle (specs st)))
    as [Hsame Hangle]. cbv zeta in Hsame, Hangle.
  remember (sweepSearch (solveTensionForAngle (specs st)) (angle (specs st))) as r eqn:Er.
  assert (Hround : Math_round (snd (fst r)) = snd (fst r)).
  { destruct Hangle as [-> | Hin]; [exact Hint | now apply sweepAngles_integers]. }
  rewrite Hround.
  assert (Hext : sweepSearch
                   (solveTensionForAngle
                      (withTensionAngle (specs st) (Math_round (Sol.t (fst (fst r))))
                                        (snd (fst r))))
                   (snd (fst r))
                 = sweepSearch (solveTensionForAngle (specs st)) (snd (fst r))).
  { apply sweepSearch_ext. intros a. apply solveTensionForAngle_fields. }
  rewrite Hext, Hsame, Hround. reflexivity.
Qed.

(** X7, on the default specs: 45 is an integer. *)
Lemma runOptimizer_twice_witness :
  let st := mkApp defaultSpecs IDLE false in
  specs (@runOptimizer taylorMath (@runOptimizer taylorMath st))
    = specs (@runOptimizer taylorMath st).
Proof.
  apply (@runOptimizer_twice taylorMath (mkApp defaultSpecs IDLE false)).
  vm_compute; reflexivity.
Defined.

(** ** The phases of the render loop *)

Section Phases.
Context `{MathLib}.
Variable p : Specs.

Lemma frames_add (st : Eng.state) (n m : nat) :
  frames p st (n + m) = frames p (frames p st n) m.
Proof. unfold frames. rewrite Nat.add_comm. apply Nat.iter_add. Qed.

Lemma frames_at_rest (st : Eng.state) (n : nat) :
  Eng.phase st = IMPACT -> frames p st n = st.
Proof.
  intros Hph. induction n as [|n IH]; [reflexivity|].
  change (frames p st (S n)) with (animate p (frames p st n)). rewrite IH.
  unfold animate. now rewrite Hph.
Qed.

Lemma frames_ready (st : Eng.state) (n : nat) :
  Eng.phase st = READY ->
  Eng.phase (frames p st n) = READY /\
  Eng.pos (frames p st n) = Eng.pos st /\ Eng.vel (frames p st n) = Eng.vel st /\
  Eng.time (frames p st n) = Eng.time st /\
  Eng.telemetry (frames p st n) = Eng.telemetry st.
Proof.
  intros Hph. induction n as [|n (I1 & I2 & I3 & I4 & I5)]; [now repeat split|].
  change (frames p st (S n)) with (animate p (frames p st n)).
  unfold animate. rewrite I1. cbn. now repeat split.
Qed.

Variable st0 : Eng.state.
Hypothesis fired0 : Eng.phase st0 = FLIGHT_START.

(** In flight the clock advances by [dt] per frame; the arm angle is the
    release-side angle and the telemetry is still the previous one. *)
Lemma frames_in_flight_clock (k : nat) :
  (forall j, (1 <= j <= k)%nat -> grounded (stateAt p (calculateLaunchVector p) j) = false) ->
  Eng.time (frames p st0 (1 + k)) = clock k (Eng.time st0) /\
  Eng.theta (frames p st0 (1 + k)) = releaseAngle p /\
  Eng.telemetry (frames p st0 (1 + k)) = Eng.telemetry st0.
Proof.
  induction k as [|k IH]; intros Hair.
  - change (frames p st0 (1 + 0)) with (animate p st0).
    unfold animate. rewrite fired0. cbn. now repeat split.
  - destruct IH as (Ht & Hth & Htel); [intros j Hj; apply Hair; lia|].
    destruct (frames_in_flight p st0 fired0 k) as (Hph & Hst & Hpl);
      [intros j Hj; apply Hair; lia|].
    change (frames p st0 (1 + S k)) with (animate p (frames p st0 (1 + k))).
    rewrite (animate_flight p _ Hph Hpl). cbv zeta. rewrite Hst.
    change (flightStep p (stateAt p (calculateLaunchVector p) k))
      with (stateAt p (calculateLaunchVector p) (S k)).
    rewrite Hair by lia. cbn [Eng.time Eng.theta Eng.telemetry].
    rewrite Ht, Hth, Htel. now repeat split.
Qed.

Lemma frames_impact_clock (k : nat) :
  (1 <= k)%nat ->
  grounded (stateAt p (calculateLaunchVector p) k) = true ->
  (forall j, (1 <= j < k)%nat -> grounded (stateAt p (calculateLaunchVector p) j) = false) ->
  Eng.time (frames p st0 (1 + k)) = clock k (Eng.time st0) /\
  Eng.theta (frames p st0 (1 + k)) = releaseAngle p.
Proof.
  intros Hk Hg Hair. destruct k as [|k]; [lia|].
  destruct (frames_in_flight_clock k) as (Ht & Hth & _); [intros j Hj; apply Hair; lia|].
  destruct (frames_in_flight p st0 fired0 k) as (Hph & Hst & Hpl);
    [intros j Hj; apply Hair; lia|].
  change (frames p st0 (1 + S k)) with (animate p (frames p st0 (1 + k))).
  rewrite (animate_flight p _ Hph Hpl). cbv zeta. rewrite Hst.
  change (flightStep p (stateAt p (calculateLaunchVector p) k))
    with (stateAt p (calculateLaunchVector p) (S k)).
  rewrite Hg. cbn [Eng.time Eng.theta]. rewrite Ht, Hth. now split.
Qed.
End Phases.

(** X8.  A shot, from [fire] to rest.  If the integrator first reaches the
    ground on its step [k], then [1 + k] frames after [fire] the render loop
    is in the IMPACT phase, and it stays in the very same state on every later
    frame: the projectile lies on the ground (height exactly 0) at the
    integrator's horizontal position, the telemetry holds this position as
    the range, a velocity of 0 and the error range - targetDist, the arm is at
    the release-side angle, and the flight clock holds [k] steps of [dt]. *)
Theorem shot_ends_at_rest `{MathLib} (p : Specs) (st : Eng.state) (k n : nat) :
  let l := calculateLaunchVector p in
  (1 <= k)%nat ->
  grounded (stateAt p l k) = true ->
  (forall j, (1 <= j < k)%nat -> grounded (stateAt p l j) = false) ->
  let landed := frames p (fire st) (1 + k + n) in
  landed = frames p (fire st) (1 + k) /\
  Eng.phase landed = IMPACT /\
  Eng.pos landed = Vec.mk (Vec.x (pos (stateAt p l k))) 0 0 /\
  Eng.telemetry landed
    = mkTelemetry (Vec.x (Eng.pos landed)) 0 (Vec.x (Eng.pos landed) - targetDist p) /\
  Eng.theta landed = releaseAngle p /\
  Eng.time landed = clock k 0.
Proof.
  cbv zeta. intros Hk Hg Hair.
  assert (Hf : Eng.phase (fire st) = FLIGHT_START) by reflexivity.
  destruct (frames_impact p (fire st) Hf k Hk Hg Hair) as (Hph & Hpos & _ & Htel).
  destruct (frames_impact_clock p (fire st) Hf k Hk Hg Hair) as (Ht & Hth).
  rewrite frames_add, (frames_at_rest p _ n Hph).
  split; [reflexivity|]. split; [exact Hph|].
  assert (Hz : Vec.z (pos (stateAt p (calculateLaunchVector p) k)) = 0).
  { clear - k. induction k as [|k' IH]; [reflexivity|].
    change (stateAt p (calculateLaunchVector p) (S k'))
      with (flightStep p (stateAt p (calculateLaunchVector p) k')).
    unfold flightStep. destruct (acceleration p _ _ _) as [ax ay]. exact IH. }
  assert (Hpos' : Eng.pos (frames p (fire st) (1 + k))
                  = Vec.mk (Vec.x (pos (stateAt p (calculateLaunchVector p) k))) 0 0).
  { rewrite Hpos. unfold Vec.setY. now rewrite Hz. }
  split; [exact Hpos'|]. rewrite Htel, Hpos'. cbn [Vec.x].
  split; [reflexivity|]. split; [exact Hth | exact Ht].
Qed.

(** X8, on the default launcher: the integrator reaches the ground on step
    198, so the 199th frame after [fire] is the impact, and 100 frames later
    nothing has changed. *)
Lemma shot_ends_at_rest_witness :
  let landed := @frames taylorMath defaultSpecs (fire fired) (1 + 198 + 100) in
  Eng.phase landed = IMPACT /\ Vec.y (Eng.pos landed) = 0.
Proof.
  destruct (@shot_ends_at_rest taylorMath defaultSpecs fired 198 100)
    as (_ & Hph & Hpos & _).
  - lia.
  - vm_compute; reflexivity.
  - intros j Hj.
    assert (Hall : forallb (fun j => negb (grounded (stateAt defaultSpecs
                      (@calculateLaunchVector taylorMath defaultSpecs) j))) (seq 1 197) = true)
      by (vm_compute; reflexivity).
    rewrite forallb_forall in Hall. apply negb_true_iff, Hall, in_seq. lia.
  - cbv zeta. split; [exact Hph|]. now rewrite Hpos.
Defined.

(** X9.  Without [fire] nothing flies.  After [reset] every frame leaves the
    loop in the READY phase, with the projectile state, the clock and the
    telemetry of the last shot untouched (only the arm angle moves); and once
    in the IMPACT phase the state does not change at all. *)
Theorem idle_frames_keep_the_shot `{MathLib} (p : Specs) (st : Eng.state) (n : nat) :
  (Eng.phase (frames p (reset st) n) = READY /\
   Eng.pos (frames p (reset st) n) = Eng.pos st /\
   Eng.vel (frames p (reset st) n) = Eng.vel st /\
   Eng.time (frames p (reset st) n) = Eng.time st /\
   Eng.telemetry (frames p (reset st) n) = Eng.telemetry st) /\
  (Eng.phase st = IMPACT -> frames p st n = st).
Proof.
  split; [|apply frames_at_rest].
  exact (frames_ready p (reset st) n eq_refl).
Qed.

(** ** The trail *)

Lemma eng_animateScene `{MathLib} (p : Specs) (sc : Scene) :
  eng (animateScene p sc) = animate p (eng sc).
Proof.
  unfold animateScene. cbv zeta.
  destruct (Eng.phase (eng sc)); try reflexivity.
  destruct (_ && _); reflexivity.
Qed.

Lemma trail_animateScene `{MathLib} (p : Specs) (sc : Scene) :
  trail (animateScene p sc) = trail sc \/
  ((length (trail sc) < 500)%nat /\
   trail (animateScene p sc) = trail sc ++ [Eng.pos (animate p (eng sc))]).
Proof.
  unfold animateScene. cbv zeta.
  destruct (Eng.phase (eng sc)); try (now left).
  destruct (length (trail sc) <? 500)%nat eqn:El; cbn [andb]; [|now left].
  destruct (_ <? dt); [right | now left].
  apply Nat.ltb_lt in El. now split.
Qed.

(** X12.  From [fire] on, the trail logic leaves the engine state alone, and
    after [n] frames the trail holds at most 500 points, at most [n], each of
    them the position of the projectile on one of these frames. *)
Theorem trail_is_bounded `{MathLib} (p : Specs) (sc : Scene) (n : nat) :
  let sc' := sceneAfter p (fireScene sc) n in
  eng sc' = frames p (fire (eng sc)) n /\
  (length (trail sc') <= 500)%nat /\
  (length (trail sc') <= n)%nat /\
  (forall pt, In pt (trail sc') ->
     exists k, (1 <= k <= n)%nat /\ pt = Eng.pos (frames p (fire (eng sc)) k)).
Proof.
  cbv zeta. induction n as [|n (IHe & IH500 & IHn & IHin)].
  - split; [reflexivity|]. split; [cbn; lia|]. split; [cbn; lia|]. intros pt [].
  - change (sceneAfter p (fireScene sc) (S n))
      with (animateScene p (sceneAfter p (fireScene sc) n)).
    change (frames p (fire (eng sc)) (S n)) with (animate p (frames p (fire (eng sc)) n)).
    rewrite eng_animateScene, IHe. split; [reflexivity|].
    destruct (trail_animateScene p (sceneAfter p (fireScene sc) n)) as [-> | [Hlt ->]].
    + split; [exact IH500|]. split; [lia|].
      intros pt Hpt. destruct (IHin pt Hpt) as (k & Hk & ->). exists k. split; [lia | reflexivity].
    + rewrite length_app. cbn [length]. split; [lia|]. split; [lia|].
      intros pt Hpt. apply in_app_or in Hpt. destruct Hpt as [Hpt | [<- | []]].
      * destruct (IHin pt Hpt) as (k & Hk & ->). exists k. split; [lia | reflexivity].
      * exists (S n). split; [lia|]. now rewrite IHe.
Qed.

(** ** Numbers that are not NaN *)

Lemma is_nan_spec (a : float) :
  is_nan a = match Prim2SF a with S754_nan => true | _ => false end.
Proof.
  unfold is_nan. rewrite FloatAxioms.eqb_spec.
  destruct (Prim2SF a) as [s|[|]| |[|] m e]; try reflexivity;
    unfold SFeqb, SFcompare; rewrite Z.compare_refl, Pos.compare_cont_refl; reflexivity.
Qed.

Lemma finiteNumber_not_nan (a : float) : finiteNumber a = true -> is_nan a = false.
Proof.
  unfold finiteNumber. rewrite is_nan_spec. destruct (Prim2SF a); try discriminate; reflexivity.
Qed.

Lemma finite_of_abs_ltb_infinity (a : float) :
  (Math_abs a <? Infinity) = true -> finiteNumber a = true.
Proof.
  unfold Math_abs, Infinity, finiteNumber. rewrite ltb_spec, abs_spec.
  change (Prim2SF infinity) with (S754_infinity false).
  destruct (Prim2SF a) as [s|s| |s m e]; try reflexivity;
    unfold SFabs, SFltb, SFcompare; discriminate.
Qed.

Lemma leb_refl (a : float) : is_nan a = false -> (a <=? a) = true.
Proof.
  rewrite is_nan_spec, leb_spec.
  destruct (Prim2SF a) as [s|[|]| |[|] m e]; try discriminate; try reflexivity;
    intros _; unfold SFleb, SFcompare; rewrite Z.compare_refl, Pos.compare_cont_refl;
    reflexivity.
Qed.

Lemma ltb_leb (a b : float) : (a <? b) = true -> (a <=? b) = true.
Proof.
  rewrite ltb_spec, leb_spec. unfold SFltb, SFleb.
  destruct (SFcompare _ _) as [[| |]|]; try discriminate; reflexivity.
Qed.

Lemma leb_zeros (a b : float) : is_zero a = true -> is_zero b = true -> (a <=? b) = true.
Proof.
  unfold is_zero. rewrite !FloatAxioms.eqb_spec, leb_spec.
  change (Prim2SF zero) with (S754_zero false).
  destruct (Prim2SF a) as [sa|sa| |sa ma ea], (Prim2SF b) as [sb|sb| |sb mb eb];
    try reflexivity; unfold SFeqb, SFcompare;
    try discriminate; try (destruct sa; discriminate); try (destruct sb; discriminate).
Qed.

(** Clamping: [Math.max(lo, Math.min(hi, x))] lies in [lo, hi] unless it is NaN. *)
Lemma clamp_bounds (lo hi x : float) :
  (lo <=? hi) = true -> is_nan x = false ->
  let y := Math_max lo (Math_min hi x) in
  (lo <=? y) = true /\ (y <=? hi) = true.
Proof.
  intros Hlh Hx. cbv zeta.
  assert (Hlo : is_nan lo = false).
  { rewrite is_nan_spec. rewrite leb_spec in Hlh. unfold SFleb, SFcompare in Hlh.
    destruct (Prim2SF lo); try reflexivity. discriminate. }
  assert (Hhi : is_nan hi = false).
  { rewrite is_nan_spec. rewrite leb_spec in Hlh. unfold SFleb, SFcompare in Hlh.
    destruct (Prim2SF hi); try reflexivity. destruct (Prim2SF lo); discriminate. }
  assert (Hz : is_nan (Math_min hi x) = false /\ (Math_min hi x <=? hi) = true).
  { unfold Math_min. rewrite Hhi, Hx. cbn [orb].
    destruct (is_positive_zero hi && is_negative_zero x) eqn:Ez.
    - split; [exact Hx|]. unfold is_positive_zero, is_negative_zero in Ez.
      apply andb_prop in Ez as [E1 E2]. apply andb_prop in E1 as [E1 _].
      apply andb_prop in E2 as [E2 _]. now apply leb_zeros.
    - destruct (x <? hi) eqn:El.
      + split; [exact Hx | now apply ltb_leb].
      + split; [exact Hhi | now apply leb_refl]. }
  destruct Hz as [Hzn Hzh]. set (z := Math_min hi x) in *.
  unfold Math_max. rewrite Hlo, Hzn. cbn [orb].
  destruct (is_negative_zero lo && is_positive_zero z) eqn:Ez.
  - split; [|exact Hzh]. unfold is_positive_zero, is_negative_zero in Ez.
    apply andb_prop in Ez as [E1 E2]. apply andb_prop in E1 as [E1 _].
    apply andb_prop in E2 as [E2 _]. now apply leb_zeros.
  - destruct (lo <? z) eqn:El.
    + split; [now apply ltb_leb | exact Hzh].
    + split; [now apply leb_refl | exact Hlh].
Qed.

(** Rounding never turns a non-negative mantissa into NaN. *)
Lemma shr_1_nonneg (r : shr_record) : (0 <= shr_m r)%Z -> (0 <= shr_m (shr_1 r))%Z.
Proof. destruct r as [[|[p|p|]|p] b s]; cbn; lia. Qed.

Lemma shr_nonneg (r : shr_record) (e n : Z) :
  (0 <= shr_m r)%Z -> (0 <= shr_m (fst (shr r e n)))%Z.
Proof.
  intros Hr. destruct n as [|k|k]; cbn [shr fst]; try exact Hr.
  rewrite iter_pos_nat. induction (Pos.to_nat k) as [|j IH]; [exact Hr|].
  cbn [Nat.iter]. now apply shr_1_nonneg.
Qed.

Lemma shr_fexp_nonneg (m e : Z) (l : location) :
  (0 <= m)%Z -> (0 <= shr_m (fst (shr_fexp prec emax m e l)))%Z.
Proof.
  intros Hm. unfold shr_fexp. apply shr_nonneg. destruct l as [|[| |]]; exact Hm.
Qed.

Lemma binary_round_aux_not_nan (s : bool) (m e : Z) (l : location) :
  (0 <= m)%Z -> binary_round_aux prec emax s m e l <> S754_nan.
Proof.
  intros Hm. unfold binary_round_aux.
  pose proof (shr_fexp_nonneg m e l Hm) as H1.
  destruct (shr_fexp prec emax m e l) as [r1 e1]. cbn [fst] in H1.
  assert (H2 : (0 <= round_nearest_even (shr_m r1) (loc_of_shr_record r1))%Z).
  { unfold round_nearest_even. destruct (loc_of_shr_record r1) as [|[| |]]; try lia.
    destruct (Z.even (shr_m r1)); lia. }
  pose proof (shr_fexp_nonneg _ e1 loc_Exact H2) as H3.
  destruct (shr_fexp prec emax _ e1 loc_Exact) as [r2 e2]. cbn [fst] in H3.
  destruct (shr_m r2) as [|q|q]; [discriminate | destruct (Z.leb _ _); discriminate | lia].
Qed.

Lemma represented_not_nan (u : spec_float) (R : Z) : represented u R -> u <> S754_nan.
Proof.
  intros [[_ [s ->]] | [[_ [[_ ->] | [_ (m & e & -> & _)]]]
                       | [_ [[_ ->] | [_ (m & e & -> & _)]]]]]; discriminate.
Qed.

Lemma not_nan_spec (a : float) : is_nan a = false <-> Prim2SF a <> S754_nan.
Proof.
  rewrite is_nan_spec. destruct (Prim2SF a); split; intros H; try reflexivity;
    try discriminate; congruence.
Qed.

Lemma add_not_nan (a b : float) :
  finiteNumber a = true -> is_nan b = false -> is_nan (a + b) = false.
Proof.
  unfold finiteNumber. intros Fa Hb. apply not_nan_spec in Hb. apply not_nan_spec.
  rewrite add_spec. pose proof (Prim2SF_valid a) as Va. pose proof (Prim2SF_valid b) as Vb.
  destruct (Prim2SF b) as [sb|sb| |sb mb eb] eqn:Eb.
  - apply (represented_not_nan _ _ (SFadd_represented _ (S754_zero sb) Fa eq_refl Va Vb)).
  - destruct (Prim2SF a); try discriminate Fa; unfold SF64add, SFadd; discriminate.
  - congruence.
  - apply (represented_not_nan _ _ (SFadd_represented _ (S754_finite sb mb eb) Fa eq_refl Va Vb)).
Qed.

Lemma sub_not_nan (a b : float) :
  finiteNumber a = true -> is_nan b = false -> is_nan (a - b) = false.
Proof.
  unfold finiteNumber. intros Fa Hb. apply not_nan_spec in Hb. apply not_nan_spec.
  rewrite sub_spec. pose proof (Prim2SF_valid a) as Va. pose proof (Prim2SF_valid b) as Vb.
  destruct (Prim2SF b) as [sb|sb| |sb mb eb] eqn:Eb.
  - rewrite (SFsub_add_opp _ (S754_zero sb) Fa eq_refl).
    destruct (SFopp_facts (S754_zero sb) eq_refl Vb) as (Fo & Vo & _).
    apply (represented_not_nan _ _ (SFadd_represented _ _ Fa Fo Va Vo)).
  - destruct (Prim2SF a); try discriminate Fa; unfold SF64sub, SFsub; discriminate.
  - congruence.
  - rewrite (SFsub_add_opp _ (S754_finite sb mb eb) Fa eq_refl).
    destruct (SFopp_facts (S754_finite sb mb eb) eq_refl Vb) as (Fo & Vo & _).
    apply (represented_not_nan _ _ (SFadd_represented _ _ Fa Fo Va Vo)).
Qed.

(** Scaling by a finite non-zero constant. *)
Lemma mul_const_not_nan (a c : float) (sc : bool) (mc : positive) (ec : Z) :
  Prim2SF c = S754_finite sc mc ec -> is_nan a = false -> is_nan (a * c) = false.
Proof.
  intros Ec Ha. apply not_nan_spec in Ha. apply not_nan_spec. rewrite mul_spec, Ec.
  destruct (Prim2SF a) as [sa|sa| |sa ma ea].
  - unfold SF64mul, SFmul. discriminate.
  - unfold SF64mul, SFmul. discriminate.
  - congruence.
  - unfold SF64mul, SFmul. apply binary_round_aux_not_nan. lia.
Qed.

(** ** The camera *)

(** The zoom radius and the elevation are inside their limits, and the last
    mouse ordinate is a finite number. *)
Definition cameraInRange (c : Cam.t) : Prop :=
  (20 <=? Cam.radius c) = true /\ (Cam.radius c <=? 200) = true /\
  (0.1 <=? Cam.phi c) = true /\ (Cam.phi c <=? Math_PI / 2 - 0.1) = true /\
  finiteNumber (snd (Cam.lastMouse c)) = true.

Lemma handleMouse_in_range (e : MouseEvent) (c : Cam.t) :
  finiteEvent e = true -> cameraInRange c -> cameraInRange (handleMouse e c).
Proof.
  destruct e as [ty x y d], c as [r th ph ce dr [lx ly]].
  unfold finiteEvent, cameraInRange, handleMouse.
  cbn [etype clientX clientY deltaY Cam.radius Cam.theta Cam.phi Cam.center Cam.dragging
       Cam.lastMouse fst snd].
  intros He (Hr1 & Hr2 & Hp1 & Hp2 & Hl).
  destruct ty; cbv zeta;
    cbn [Cam.radius Cam.theta Cam.phi Cam.center Cam.dragging Cam.lastMouse fst snd].
  - apply finite_of_abs_ltb_infinity in He. now repeat split.
  - apply finite_of_abs_ltb_infinity in He.
    destruct dr; cbn [Cam.radius Cam.theta Cam.phi Cam.center Cam.dragging Cam.lastMouse
                      fst snd]; [|now repeat split].
    destruct (between_finite 0.1 ph (Math_PI / 2 - 0.1) eq_refl eq_refl Hp1 Hp2) as [Fp _].
    assert (Hn : is_nan (ph - (y - ly) * 0.005) = false).
    { apply sub_not_nan; [exact Fp|].
      apply (mul_const_not_nan _ 0.005 false 5764607523034235 (-60) eq_refl).
      apply sub_not_nan; [exact He | now apply finiteNumber_not_nan]. }
    destruct (clamp_bounds 0.1 (Math_PI / 2 - 0.1) _ eq_refl Hn) as [H1 H2].
    now repeat split.
  - now repeat split.
  - apply finite_of_abs_ltb_infinity in He.
    destruct (between_finite 20 r 200 eq_refl eq_refl Hr1 Hr2) as [Fr _].
    assert (Hn : is_nan (r + d * 0.1) = false).
    { apply add_not_nan; [exact Fr|].
      apply (mul_const_not_nan _ 0.1 false 7205759403792794 (-56) eq_refl).
      now apply finiteNumber_not_nan. }
    destruct (clamp_bounds 20 200 _ eq_refl Hn) as [H1 H2].
    now repeat split.
Qed.

Lemma fold_handleMouse_in_range (es : list MouseEvent) (c : Cam.t) :
  forallb finiteEvent es = true -> cameraInRange c ->
  cameraInRange (fold_left (fun c e => handleMouse e c) es c).
Proof.
  revert c. induction es as [|e es IH]; intros c Hes Hc; [exact Hc|].
  cbn [forallb] in Hes. apply andb_prop in Hes as [He Hes]. cbn [fold_left].
  apply IH; [exact Hes | now apply handleMouse_in_range].
Qed.

(** X10.  Whatever sequence of mouse and wheel events (with finite
    coordinates and deltas) the camera receives from its initial state, the
    zoom radius stays within [20, 200] and the elevation [phi] within
    [0.1, PI/2 - 0.1]. *)
Theorem camera_stays_in_range (es : list MouseEvent) :
  forallb finiteEvent es = true ->
  let c := cameraAfter es in
  (20 <=? Cam.radius c) = true /\ (Cam.radius c <=? 200) = true /\
  (0.1 <=? Cam.phi c) = true /\ (Cam.phi c <=? Math_PI / 2 - 0.1) = true.
Proof.
  intros Hes. cbv zeta.
  destruct (fold_handleMouse_in_range es initialCamera Hes) as (H1 & H2 & H3 & H4 & _).
  - unfold cameraInRange, initialCamera. cbn [Cam.radius Cam.phi Cam.lastMouse snd].
    repeat split; vm_compute; reflexivity.
  - unfold cameraAfter. now repeat split.
Qed.

(** X10, on a zoom far out followed by a long drag upwards. *)
Lemma camera_stays_in_range_witness :
  let c := cameraAfter [mkEvent wheel 0 0 5000; mkEvent mousedown 100 100 0;
                        mkEvent mousemove 130 (-4000) 0; mkEvent mouseup 130 (-4000) 0] in
  (Cam.radius c <=? 200) = true /\ (Cam.phi c <=? Math_PI / 2 - 0.1) = true.
Proof.
  destruct (camera_stays_in_range
              [mkEvent wheel 0 0 5000; mkEvent mousedown 100 100 0;
               mkEvent mousemove 130 (-4000) 0; mkEvent mouseup 130 (-4000) 0])
    as (_ & H2 & _ & H4); [vm_compute; reflexivity|].
  cbv zeta. split; [exact H2 | exact H4].
Defined.

(** ** Sums and products of bounded numbers *)

(** A rounded sum lies between any two numbers that enclose the exact sum. *)
Lemma add_between (a x lo hi : float) :
  finiteNumber a = true -> finiteNumber x = true ->
  finiteNumber lo = true -> finiteNumber hi = true ->
  (valueOf lo <= valueOf a + valueOf x <= valueOf hi)%Z ->
  finiteNumber (a + x) = true /\ (valueOf lo <= valueOf (a + x) <= valueOf hi)%Z.
Proof.
  unfold finiteNumber, valueOf. intros Fa Fx Fl Fh [H1 H2].
  pose proof (Prim2SF_valid a) as Va. pose proof (Prim2SF_valid x) as Vx.
  pose proof (Prim2SF_valid lo) as Vl. pose proof (Prim2SF_valid hi) as Vh.
  pose proof (SFadd_represented _ _ Fa Fx Va Vx) as HR. rewrite <- add_spec in HR.
  pose proof (roundVs_mono _ _ H1) as M1. pose proof (roundVs_mono _ _ H2) as M2.
  rewrite (roundVs_exact _ Fl Vl) in M1. rewrite (roundVs_exact _ Fh Vh) in M2.
  pose proof (finite_val_abs _ Fl Vl) as Bl. pose proof (finite_val_abs _ Fh Vh) as Bh.
  destruct (represented_finite _ _ HR ltac:(lia)) as (F & _ & E).
  split; [exact F | lia].
Qed.

Lemma opp_val (x : float) :
  finiteNumber x = true -> finiteNumber (- x) = true /\ valueOf (- x) = (- valueOf x)%Z.
Proof.
  unfold finiteNumber, valueOf. intros Fx. rewrite opp_spec.
  destruct (SFopp_facts _ Fx (Prim2SF_valid x)) as (F & _ & E). now split.
Qed.

Lemma sub_between (a x lo hi : float) :
  finiteNumber a = true -> finiteNumber x = true ->
  finiteNumber lo = true -> finiteNumber hi = true ->
  (valueOf lo <= valueOf a - valueOf x <= valueOf hi)%Z ->
  finiteNumber (a - x) = true /\ (valueOf lo <= valueOf (a - x) <= valueOf hi)%Z.
Proof.
  intros Fa Fx Fl Fh H. destruct (opp_val x Fx) as [Fo Eo].
  assert (E : a - x = a + - x).
  { apply Prim2SF_inj. rewrite sub_spec, add_spec, opp_spec. now apply SFsub_add_opp. }
  rewrite E. apply add_between; try assumption. rewrite Eo. lia.
Qed.

(** A number of [0, 1), as [Math.random] returns. *)
Lemma unit_interval (r : float) :
  (0 <=? r) = true -> (r <? 1) = true ->
  finiteNumber r = true /\ (0 <= valueOf r <= 2 ^ 1074)%Z.
Proof.
  intros H0 H1. apply ltb_leb in H1.
  destruct (between_finite 0 r 1 eq_refl eq_refl H0 H1) as [F [V0 V1]].
  split; [exact F|].
  assert (E0 : valueOf 0 = 0%Z) by reflexivity.
  assert (E1 : valueOf 1 = (2 ^ 1074)%Z) by (vm_compute; reflexivity).
  rewrite E0 in V0. rewrite E1 in V1. lia.
Qed.

(** Scaling a number of [0, 1) by a non-negative number [c] gives a number of
    [0, c]. *)
Lemma mul_unit_interval (r c : float) :
  (0 <=? r) = true -> (r <? 1) = true ->
  finiteNumber c = true -> (0 <= valueOf c)%Z ->
  finiteNumber (r * c) = true /\ (0 <= valueOf (r * c) <= valueOf c)%Z.
Proof.
  intros H0 H1 Fc Pc. destruct (unit_interval r H0 H1) as [Fr [R0 R1]].
  unfold finiteNumber, valueOf in *.
  pose proof (Prim2SF_valid r) as Vr. pose proof (Prim2SF_valid c) as Vc.
  destruct (SFmul_contracts _ _ Fr Fc Vr Vc ltac:(lia) Pc) as (R & HR & HRc).
  pose proof (finite_val_abs _ Fc Vc) as Bc.
  rewrite <- mul_spec in HR.
  destruct (represented_finite _ _ HR ltac:(lia)) as (F & V & E).
  split; [exact F|]. rewrite E. split; [|lia].
  (* the sign of the product *)
  destruct (Z.le_gt_cases 0 R) as [|Hneg]; [assumption | exfalso].
  rewrite mul_spec in E, F, V.
  destruct (Prim2SF r) as [sr|sr| |sr mr er]; try discriminate;
    destruct (Prim2SF c) as [sc|sc| |sc mc ec]; try discriminate;
    try (unfold SF64mul, SFmul, SFval in E; lia).
  assert (sr = false).
  { destruct sr; [|reflexivity]. pose proof (valid_finite_val true mr er Vr).
    unfold SFval, cond_Zopp in R0. lia. }
  assert (sc = false).
  { destruct sc; [|reflexivity]. pose proof (valid_finite_val true mc ec Vc).
    unfold SFval, cond_Zopp in Pc. lia. }
  subst sr sc. pose proof (SFmul_signed false false mr mc er ec) as Hs.
  destruct (SF64mul _ _) as [s|s| |s m e]; try discriminate.
  - unfold SFval in E. lia.
  - cbn [signed xorb] in Hs. subst s. pose proof (valid_finite_val false m e V).
    unfold SFval, cond_Zopp in E. lia.
Qed.

(** ** [Math.floor] and [toFixed] on bounded numbers *)

Lemma floorZ_window (m : positive) (e lo hi : Z) :
  (-1074 <= e)%Z ->
  (lo * 2 ^ 1074 <= Zpos m * 2 ^ (e + 1074) <= hi * 2 ^ 1074)%Z ->
  (lo <= floorZ false m e <= hi)%Z.
Proof.
  intros He [H1 H2]. unfold floorZ, cond_Zopp.
  assert (Hu : (0 < 2 ^ 1074)%Z) by (apply Z.pow_pos_nonneg; lia).
  destruct e as [|p|k].
  - change (0 + 1074)%Z with 1074%Z in *. change (2 ^ 0)%Z with 1%Z.
    apply Z.mul_le_mono_pos_r in H1; [|exact Hu].
    apply Z.mul_le_mono_pos_r in H2; [|exact Hu]. lia.
  - rewrite Z.pow_add_r, Z.mul_assoc in H1, H2 by lia.
    apply Z.mul_le_mono_pos_r in H1; [|exact Hu].
    apply Z.mul_le_mono_pos_r in H2; [|exact Hu]. lia.
  - change (Z.pow_pos 2 k) with (2 ^ Zpos k)%Z.
    assert (HP : (0 < 2 ^ Zpos k)%Z) by (apply Z.pow_pos_nonneg; lia).
    assert (Hd : (0 < 2 ^ (Z.neg k + 1074))%Z) by (apply Z.pow_pos_nonneg; lia).
    assert (Eu : (2 ^ 1074 = 2 ^ Zpos k * 2 ^ (Z.neg k + 1074))%Z).
    { rewrite <- Z.pow_add_r by lia. f_equal. lia. }
    rewrite Eu, Z.mul_assoc in H1, H2.
    apply Z.mul_le_mono_pos_r in H1; [|exact Hd].
    apply Z.mul_le_mono_pos_r in H2; [|exact Hd].
    remember (2 ^ Zpos k)%Z as P eqn:EP. split.
    + apply Z.div_le_lower_bound; lia.
    + assert (Zpos m / P < hi + 1)%Z; [|lia].
      apply Z.div_lt_upper_bound; lia.
Qed.

Lemma Math_floor_window (a : float) (lo hi : Z) :
  (0 < lo)%Z -> (hi < 2 ^ 53)%Z ->
  finiteNumber a = true ->
  (lo * 2 ^ 1074 <= valueOf a <= hi * 2 ^ 1074)%Z ->
  exists n : Z, Math_floor a = Z2float n /\ (lo <= n <= hi)%Z /\
                finiteNumber (Z2float n) = true /\ valueOf (Z2float n) = (n * 2 ^ 1074)%Z.
Proof.
  intros Hlo Hhi F Hw. unfold finiteNumber, valueOf in *. pose proof (Prim2SF_valid a) as V.
  assert (Hu : (0 < 2 ^ 1074)%Z) by (apply Z.pow_pos_nonneg; lia).
  assert (Hpos : (0 < SFval (Prim2SF a))%Z) by nia.
  destruct (positive_val_finite _ V Hpos) as (m & e & Ea & Ev).
  rewrite Ev in Hw. destruct (valid_finite_bounds false m e) as (He & _); [now rewrite <- Ea|].
  pose proof (floorZ_window m e lo hi ltac:(lia) Hw) as Hn.
  exists (floorZ false m e).
  assert (ER : Math_floor a = Z2float (floorZ false m e)).
  { unfold Math_floor. rewrite Ea. cbv zeta.
    destruct (Z.eqb_spec (floorZ false m e) 0); [lia | reflexivity]. }
  split; [exact ER|]. split; [exact Hn|]. apply Z2float_exact. lia.
Qed.

(** The values [n / 10] that [toFixed(1)] can denote for [n] up to 200. *)
Definition tenth (s : bool) (q : positive) : float :=
  SF2Prim (SF64div (S754_finite s q 0) (S754_finite false 10 0)).

Lemma tenths_in_range (s : bool) (q : positive) :
  (Zpos q <= 200)%Z -> (-20 <=? tenth s q) = true /\ (tenth s q <=? 20) = true.
Proof.
  intros Hq.
  assert (Hall : forallb (fun k => (-20 <=? tenth true (Pos.of_nat k)) && (tenth true (Pos.of_nat k) <=? 20)
                                   && (-20 <=? tenth false (Pos.of_nat k))
                                   && (tenth false (Pos.of_nat k) <=? 20))
                         (seq 1 200) = true) by (vm_compute; reflexivity).
  rewrite forallb_forall in Hall. specialize (Hall (Pos.to_nat q)).
  rewrite Pos2Nat.id in Hall.
  assert (Hin : In (Pos.to_nat q) (seq 1 200)).
  { apply in_seq. pose proof (Pos2Nat.is_pos q). pose proof (positive_nat_Z q). lia. }
  apply Hall in Hin. apply andb_prop in Hin as [Hin H4]. apply andb_prop in Hin as [Hin H3].
  apply andb_prop in Hin as [H1 H2]. destruct s; now split.
Qed.

Lemma roundToTenth_window (a : float) :
  finiteNumber a = true ->
  (- (20 * 2 ^ 1074) <= valueOf a <= 20 * 2 ^ 1074)%Z ->
  (-20 <=? roundToTenth a) = true /\ (roundToTenth a <=? 20) = true.
Proof.
  intros F Hw. unfold roundToTenth.
  assert (Fabs : finiteNumber (Math_abs a) = true /\ valueOf (Math_abs a) = Z.abs (valueOf a)).
  { unfold finiteNumber, valueOf, Math_abs in *. rewrite abs_spec.
    pose proof (Prim2SF_valid a) as V.
    destruct (Prim2SF a) as [s|s| |s m e]; try discriminate; split; try reflexivity.
    unfold SFabs, SFval, cond_Zopp.
    pose proof (valid_finite_val s m e V).
    destruct s; lia. }
  destruct Fabs as [Fab Vab].
  assert (Hguard : (1e21 <=? Math_abs a) = false).
  { rewrite (leb_val 1e21 _ eq_refl Fab), Vab.
    assert (E21 : valueOf 1e21 = (1000000000000000000000 * 2 ^ 1074)%Z)
      by (vm_compute; reflexivity).
    rewrite E21. apply Z.leb_gt.
    assert (0 < 2 ^ 1074)%Z by (apply Z.pow_pos_nonneg; lia). lia. }
  unfold finiteNumber, valueOf in *. pose proof (Prim2SF_valid a) as V.
  destruct (Prim2SF a) as [s|s| |s m e] eqn:Ea; try discriminate.
  - split; vm_compute; reflexivity.
  - rewrite Hguard. cbv zeta.
    destruct (valid_finite_bounds s m e V) as (He & _).
    assert (Hm : (Zpos m * 2 ^ (e + 1074) <= 20 * 2 ^ 1074)%Z)
      by (unfold SFval, cond_Zopp in Hw; destruct s; lia).
    assert (Hn : (roundHalfUp false (10 * m) e <= 200)%Z).
    { clear - He Hm. unfold roundHalfUp, cond_Zopp.
      assert (Hu : (0 < 2 ^ 1074)%Z) by (apply Z.pow_pos_nonneg; lia).
      rewrite Pos2Z.inj_mul.
      destruct e as [|p|k].
      - change (0 + 1074)%Z with 1074%Z in *. change (2 ^ 0)%Z with 1%Z.
        apply Z.mul_le_mono_pos_r in Hm; [|exact Hu]. lia.
      - rewrite Z.pow_add_r, Z.mul_assoc in Hm by lia.
        apply Z.mul_le_mono_pos_r in Hm; [|exact Hu]. lia.
      - change (Z.pow_pos 2 k) with (2 ^ Zpos k)%Z.
        assert (HP : (0 < 2 ^ Zpos k)%Z) by (apply Z.pow_pos_nonneg; lia).
        assert (Hd : (0 < 2 ^ (Z.neg k + 1074))%Z) by (apply Z.pow_pos_nonneg; lia).
        assert (Eu : (2 ^ 1074 = 2 ^ Zpos k * 2 ^ (Z.neg k + 1074))%Z).
        { rewrite <- Z.pow_add_r by lia. f_equal. lia. }
        rewrite Eu, Z.mul_assoc in Hm.
        apply Z.mul_le_mono_pos_r in Hm; [|exact Hd].
        remember (2 ^ Zpos k)%Z as P eqn:EP.
        assert ((2 * (10 * Zpos m) + P) / (2 * P) < 201)%Z; [|lia].
        apply Z.div_lt_upper_bound; lia. }
    destruct (roundHalfUp false (10 * m) e) as [|q|q].
    + destruct s; split; vm_compute; reflexivity.
    + exact (tenths_in_range s q Hn).
    + destruct s; split; vm_compute; reflexivity.
Qed.

(** X11.  Whatever the two random numbers of [0, 1), [generateTarget] sets a
    target distance that is an integer between 50 and 450 and a wind between
    -20 and 20 (the range of the wind slider), leaves the six other fields of
    the specs as they are, and puts the solver back to IDLE, the flag to
    false, the simulation to READY and the engine, if there is one, in its
    reset state. *)
Theorem generateTarget_in_range (r1 r2 : float) (c : Component) :
  (0 <=? r1) = true -> (r1 <? 1) = true -> (0 <=? r2) = true -> (r2 <? 1) = true ->
  let c' := generateTarget r1 r2 c in
  let s := specs (appState c) in
  let s' := specs (appState c') in
  (exists n : Z, targetDist s' = Z2float n /\ (50 <= n <= 450)%Z) /\
  (50 <=? targetDist s') = true /\ (targetDist s' <=? 450) = true /\
  (-20 <=? wind s') = true /\ (wind s' <=? 20) = true /\
  (tension s', armLength s', armMass s', projMass s', angle s', drag s')
    = (tension s, armLength s, armMass s, projMass s, angle s, drag s) /\
  (solverState (appState c'), autoCorrected (appState c'), simState c') = (IDLE, false, Sim.READY) /\
  engine c' = option_map reset (engine c).
Proof.
  intros H1 H1' H2 H2'. cbv zeta. unfold generateTarget. cbv zeta.
  cbn [appState specs targetDist wind tension armLength armMass projMass angle drag
       solverState autoCorrected simState engine].
  assert (Hu : (0 < 2 ^ 1074)%Z) by (apply Z.pow_pos_nonneg; lia).
  assert (E400 : valueOf 400 = (400 * 2 ^ 1074)%Z) by (vm_compute; reflexivity).
  assert (E50 : valueOf 50 = (50 * 2 ^ 1074)%Z) by (vm_compute; reflexivity).
  assert (E450 : valueOf 450 = (450 * 2 ^ 1074)%Z) by (vm_compute; reflexivity).
  assert (E40 : valueOf 40 = (40 * 2 ^ 1074)%Z) by (vm_compute; reflexivity).
  assert (E20 : valueOf 20 = (20 * 2 ^ 1074)%Z) by (vm_compute; reflexivity).
  assert (En20 : valueOf (-20) = (- (20 * 2 ^ 1074))%Z) by (vm_compute; reflexivity).
  (* the target distance *)
  destruct (mul_unit_interval r1 400 H1 H1' eq_refl) as [Fx Vx]; [rewrite E400; lia|].
  destruct (add_between 50 (r1 * 400) 50 450 eq_refl Fx eq_refl eq_refl) as [Fd Vd];
    [rewrite E50, E450; lia|].
  rewrite E50, E450 in Vd.
  destruct (Math_floor_window _ 50 450 ltac:(lia) ltac:(reflexivity) Fd Vd)
    as (n & En & Hn & Fn & Vn).
  (* the wind *)
  destruct (mul_unit_interval r2 40 H2 H2' eq_refl) as [Fy Vy]; [rewrite E40; lia|].
  destruct (sub_between (r2 * 40) 20 (-20) 20 Fy eq_refl eq_refl eq_refl) as [Fw Vw];
    [rewrite E20, En20; lia|].
  rewrite E20, En20 in Vw.
  destruct (roundToTenth_window _ Fw Vw) as [W1 W2].
  split; [exists n; split; [exact En | exact Hn]|].
  rewrite En, (leb_val 50 _ eq_refl Fn), (leb_val _ 450 Fn eq_refl), Vn, E50, E450.
  split; [apply Z.leb_le, Z.mul_le_mono_nonneg_r; lia|].
  split; [apply Z.leb_le, Z.mul_le_mono_nonneg_r; lia|].
  split; [exact W1|]. split; [exact W2|]. repeat split.
Qed.

(** X11, on the draws 0.5 and 0.123: the target is set at 250 m with a wind of
    -15.1 m/s. *)
Lemma generateTarget_in_range_witness :
  let c' := generateTarget 0.5 0.123 (mkComponent (mkApp defaultSpecs LOCKED true)
                                                  Sim.IMPACT (Some fired)) in
  (50 <=? targetDist (specs (appState c'))) = true /\
  (targetDist (specs (appState c')) <=? 450) = true /\
  (-20 <=? wind (specs (appState c'))) = true /\ (wind (specs (appState c')) <=? 20) = true.
Proof.
  destruct (generateTarget_in_range 0.5 0.123
              (mkComponent (mkApp defaultSpecs LOCKED true) Sim.IMPACT (Some fired)))
    as (_ & T1 & T2 & W1 & W2 & _); try (vm_compute; reflexivity).
  cbv zeta. repeat split; assumption.
Defined.

(** ** The solver's prediction and the shot *)

(** X13.  What the inner search computes for a candidate is what the shot
    gives.  Fire the launcher whose tension is [k] and whose angle is [a]: if
    the projectile first reaches the ground on step [j] of the integrator,
    within its 5000 steps, then from frame [1 + j] on the telemetry shows as
    range the distance [dist] the inner search computes for the stiffness [k]
    at the angle [a], and as impact error its [err = dist - targetDist]. *)
Theorem shot_matches_solver_prediction `{MathLib}
    (sp : Specs) (a k : float) (st : Eng.state) (j n : nat) :
  let fired_specs := withTensionAngle sp k a in
  let l := calculateLaunchVector fired_specs in
  (1 <= j <= 5000)%nat ->
  grounded (stateAt fired_specs l j) = true ->
  (forall i, (1 <= i < j)%nat -> grounded (stateAt fired_specs l i) = false) ->
  let shown := Eng.telemetry (frames fired_specs (fire st) (1 + j + n)) in
  range shown = rangeAt sp a k /\
  impactError shown = rangeAt sp a k - targetDist sp.
Proof.
  cbv zeta. intros Hj Hg Hair.
  set (q := withTensionAngle sp k a) in *.
  assert (Hf : Eng.phase (fire st) = FLIGHT_START) by reflexivity.
  destruct (frames_impact q (fire st) Hf j ltac:(lia) Hg Hair) as (Hph & _ & _ & Htel).
  rewrite frames_add, (frames_at_rest q _ n Hph), Htel. cbn [range impactError].
  assert (Hsim : rangeAt sp a k = Vec.x (pos (stateAt q (calculateLaunchVector q) j))).
  { rewrite rangeAt_rangeOf. fold q. unfold rangeOf. cbv zeta.
    destruct (calculateLaunchVector q) as [lp lv] eqn:El. cbn [pos vel].
    apply simulateFlightPath_at_first_hit; [lia | exact Hg | exact Hair]. }
  rewrite Hsim. split; reflexivity.
Qed.

(** X13, on the default launcher (tension 4000 at 45 degrees), whose
    projectile reaches the ground on step 198. *)
Lemma shot_matches_solver_prediction_witness :
  range (Eng.telemetry (@frames taylorMath defaultSpecs (fire fired) (1 + 198 + 0)))
    = @rangeAt taylorMath defaultSpecs 45 4000.
Proof.
  destruct (@shot_matches_solver_prediction taylorMath defaultSpecs 45 4000 fired 198 0)
    as [Hrange _].
  - lia.
  - vm_compute; reflexivity.
  - intros i Hi.
    assert (Hall : forallb (fun i => negb (grounded (stateAt defaultSpecs
                      (@calculateLaunchVector taylorMath defaultSpecs) i))) (seq 1 197) = true)
      by (vm_compute; reflexivity).
    rewrite forallb_forall in Hall. apply negb_true_iff, Hall, in_seq. lia.
  - exact Hrange.
Defined.

(** X14.  The error the inner search returns belongs to the stiffness it
    returns: unless it returns the initial pair (100, Infinity), [err] is the
    distance by which the launcher with the returned stiffness, at the
    searched angle, misses the target. *)
Theorem solveTensionForAngle_error_is_the_miss `{MathLib} (sp : Specs) (a : float) :
  let r := solveTensionForAngle sp a in
  r = Sol.mk 100 Infinity \/
  Sol.err r = Math_abs (rangeOf (withTensionAngle sp (Sol.t r) a) - targetDist sp).
Proof.
  cbv zeta. rewrite solveTensionForAngle_bracketAt. cbn [Sol.t Sol.err].
  destruct (bestSeen_bracketAt (rangeAt sp a) (targetDist sp) 40)
    as [_ [(j & _ & Ht & He & _) | [Ht He]]].
  - right. rewrite He, Ht, <- rangeAt_rangeOf. reflexivity.
  - left. now rewrite Ht, He.
Qed.

(** ** Flight without drag and wind *)

(** A state the drag computation handles: the squared speed is finite and so
    are the two direction cosines [vel.x / v] and [vel.y / v]. *)
Definition regularSpeed (s : Launch) : bool :=
  let vSq := pow2 (Vec.x (vel s)) + pow2 (Vec.y (vel s)) in
  let v := Math_sqrt vSq in
  (vSq <? Infinity) && (Math_abs (Vec.x (vel s) / v) <? Infinity)
  && (Math_abs (Vec.y (vel s) / v) <? Infinity).

(** The velocity increment of one step under gravity alone. *)
Definition gravityKick : float := (- 9.81) * dt.

Lemma add_neg_zero (a : float) : a + neg_zero = a.
Proof.
  apply Prim2SF_inj. rewrite add_spec. change (Prim2SF neg_zero) with (S754_zero true).
  destruct (Prim2SF a) as [[|]|s| |s m e]; reflexivity.
Qed.

(** The drag force without drag coefficient: a positive zero. *)
Lemma no_drag_force (vSq : float) :
  nonneg_sign (Prim2SF vSq) -> (vSq <? Infinity) = true ->
  0.5 * 1.225 * vSq * 0 * 0.05 = 0.
Proof.
  intros Hs Hf.
  assert (Fq : finiteNumber vSq = true /\ (0 <= valueOf vSq)%Z).
  { unfold finiteNumber, valueOf, Infinity in *. rewrite ltb_spec in Hf.
    change (Prim2SF infinity) with (S754_infinity false) in Hf.
    pose proof (Prim2SF_valid vSq) as V.
    destruct (Prim2SF vSq) as [s|[|]| |[|] m e]; cbn [nonneg_sign] in Hs; try contradiction;
      try (unfold SFltb, SFcompare in Hf; discriminate).
    - split; [reflexivity | unfold SFval; lia].
    - split; [reflexivity|]. pose proof (valid_finite_val false m e V).
      unfold SFval, cond_Zopp. lia. }
  destruct Fq as [Fq Pq].
  assert (Ec : Prim2SF (0.5 * 1.225) = S754_finite false 5516909543528858 (-53)) by reflexivity.
  assert (E : Prim2SF (0.5 * 1.225 * vSq) = S754_zero false \/
              exists m e, Prim2SF (0.5 * 1.225 * vSq) = S754_finite false m e).
  { rewrite mul_spec, Ec. unfold finiteNumber, valueOf in *.
    pose proof (Prim2SF_valid vSq) as V.
    destruct (SFmul_contracts (S754_finite false 5516909543528858 (-53)) (Prim2SF vSq))
      as (R & HR & HRq); try assumption; try reflexivity.
    { apply Z.leb_le. vm_compute. reflexivity. }
    pose proof (finite_val_abs _ Fq V) as Bq.
    destruct (represented_finite _ _ HR ltac:(lia)) as (F & _ & _).
    destruct (Prim2SF vSq) as [s|s| |s m e]; try discriminate.
    - left. destruct s; cbn [nonneg_sign] in Hs; [contradiction | reflexivity].
    - destruct s; cbn [nonneg_sign] in Hs; [contradiction|].
      pose proof (SFmul_signed false false 5516909543528858 m (-53) e) as Sg.
      destruct (SF64mul _ _) as [s'|s'| |s' m' e']; try discriminate F;
        cbn [signed xorb] in Sg; subst s'; [now left | right; eauto]. }
  apply Prim2SF_inj. rewrite mul_spec, (mul_spec _ 0).
  change (Prim2SF 0) with (S754_zero false).
  change (Prim2SF 0.05) with (S754_finite false 7205759403792794 (-57)).
  destruct E as [-> | (m & e & ->)]; reflexivity.
Qed.

Section DragFree.
Variable p : Specs.
Hypothesis no_drag : drag p = 0.
Hypothesis no_wind : wind p = 0.
Hypothesis mass_positive : (0 <? projMass p) = true.
Hypothesis mass_finite : (projMass p <? Infinity) = true.

(** The horizontal acceleration is a negative zero, the vertical one is the
    gravity, whatever the finite direction cosine [c]. *)
Lemma drag_free_terms (c : float) :
  (Math_abs c <? Infinity) = true ->
  (- (0 * c + 0)) / projMass p = neg_zero /\
  (- (0 * c)) / projMass p - 9.81 = - 9.81.
Proof.
  intros Hc. apply finite_of_abs_ltb_infinity in Hc.
  destruct (positive_finite _ mass_positive mass_finite) as [Fm Pm].
  unfold finiteNumber, valueOf in *. pose proof (Prim2SF_valid (projMass p)) as Vm.
  destruct (positive_val_finite _ Vm Pm) as (mm & em & Em & _).
  split; apply Prim2SF_inj.
  - rewrite div_spec, opp_spec, add_spec, mul_spec, Em.
    change (Prim2SF 0) with (S754_zero false).
    change (Prim2SF neg_zero) with (S754_zero true).
    destruct (Prim2SF c) as [[|]|s| |[|] m e]; try discriminate; reflexivity.
  - rewrite sub_spec, div_spec, opp_spec, mul_spec, Em.
    change (Prim2SF 0) with (S754_zero false).
    change (Prim2SF 9.81) with (S754_finite false 5522539043063071 (-49)).
    change (Prim2SF (- 9.81)) with (S754_finite true 5522539043063071 (-49)).
    destruct (Prim2SF c) as [[|]|s| |[|] m e]; try discriminate; reflexivity.
Qed.

Lemma squared_speed_nonneg (s : Launch) :
  nonneg_sign (Prim2SF (pow2 (Vec.x (vel s)) + pow2 (Vec.y (vel s)))).
Proof.
  unfold pow2. rewrite add_spec, !mul_spec.
  apply SFadd_nonneg; apply SFmul_self_nonneg.
Qed.

Lemma drag_free_flightStep (s : Launch) :
  regularSpeed s = true ->
  flightStep p s
    = let vy := Vec.y (vel s) + gravityKick in
      {| pos := Vec.mk (Vec.x (pos s) + Vec.x (vel s) * dt) (Vec.y (pos s) + vy * dt)
                       (Vec.z (pos s));
         vel := Vec.mk (Vec.x (vel s)) vy (Vec.z (vel s)) |}.
Proof.
  unfold regularSpeed. cbv zeta. intros Hreg.
  apply andb_prop in Hreg as [Hreg Hy]. apply andb_prop in Hreg as [Hq Hx].
  unfold flightStep, acceleration. cbv zeta. rewrite no_drag, no_wind.
  rewrite (no_drag_force _ (squared_speed_nonneg s) Hq).
  destruct (drag_free_terms _ Hx) as [Ex _]. destruct (drag_free_terms _ Hy) as [_ Ey].
  rewrite Ex, Ey.
  change (neg_zero * dt) with neg_zero. rewrite add_neg_zero. reflexivity.
Qed.
End DragFree.

(** X15.  Without drag and without wind (and a positive finite projectile
    mass), a step of the integrator from a state whose squared speed and
    direction cosines are finite is exactly the step of a projectile under
    gravity alone: the horizontal velocity is unchanged, the vertical velocity
    gains (-9.81) * 0.016, and the position advances by the new velocity
    times 0.016.  So as long as the states met are of this kind, the
    horizontal velocity is conserved along the whole flight. *)
Theorem drag_free_flight (p : Specs) (s : Launch) (k : nat) :
  drag p = 0 -> wind p = 0 ->
  (0 <? projMass p) = true -> (projMass p <? Infinity) = true ->
  (forall j, (j < k)%nat -> regularSpeed (stateAt p s j) = true) ->
  Vec.x (vel (stateAt p s k)) = Vec.x (vel s) /\
  Vec.y (vel (stateAt p s k)) = Nat.iter k (fun vy => vy + (- 9.81) * 0.016) (Vec.y (vel s)) /\
  Vec.x (pos (stateAt p s k)) = Nat.iter k (fun x => x + Vec.x (vel s) * 0.016) (Vec.x (pos s)) /\
  (forall j, (j < k)%nat ->
     Vec.y (pos (stateAt p s (S j)))
       = Vec.y (pos (stateAt p s j)) + Vec.y (vel (stateAt p s (S j))) * 0.016).
Proof.
  intros Hd Hw Hm0 Hm1. induction k as [|k IH]; intros Hreg.
  - split; [reflexivity|]. split; [reflexivity|]. split; [reflexivity|]. intros j Hj. lia.
  - destruct IH as (Hvx & Hvy & Hx & Hy); [intros j Hj; apply Hreg; lia|].
    assert (Hstep := drag_free_flightStep p Hd Hw Hm0 Hm1 (stateAt p s k) (Hreg k (Nat.lt_succ_diag_r k))).
    cbv zeta in Hstep.
    change (stateAt p s (S k)) with (flightStep p (stateAt p s k)).
    rewrite Hstep. cbn [vel pos Vec.x Vec.y Nat.iter].
    rewrite Hvx, Hvy, Hx.
    split; [reflexivity|]. split; [reflexivity|]. split; [reflexivity|].
    intros j Hj. destruct (Nat.eq_dec j k) as [-> | Hne].
    + change (stateAt p s (S k)) with (flightStep p (stateAt p s k)).
      rewrite Hstep. cbn [vel pos Vec.x Vec.y]. reflexivity.
    + apply Hy. lia.
Qed.

(** X15, on the first 100 steps of the drag-free launcher [longShot]. *)
Lemma drag_free_flight_witness :
  let l := @calculateLaunchVector taylorMath longShot in
  Vec.x (vel (stateAt longShot l 100)) = Vec.x (vel l).
Proof.
  cbv zeta.
  destruct (drag_free_flight longShot (@calculateLaunchVector taylorMath longShot) 100)
    as [Hvx _].
  - reflexivity.
  - reflexivity.
  - vm_compute; reflexivity.
  - vm_compute; reflexivity.
  - intros j Hj.
    assert (Hall : forallb (fun j => regularSpeed (stateAt longShot
                      (@calculateLaunchVector taylorMath longShot) j)) (seq 0 100) = true)
      by (vm_compute; reflexivity).
    rewrite forallb_forall in Hall. apply Hall, in_seq. lia.
  - exact Hvx.
Defined.
